(** * The Windsurf gRPC client: wire encoding, request building, response
      parsing and the two streaming interfaces

    A shallow embedding of [src/plugin/grpc-client.ts].  JavaScript strings
    are sequences of UTF-16 code units, [number[]] arrays and [Buffer]s are
    lists of integers, and the event-driven parts (the callbacks of
    [streamChat], the queue of [streamChatGenerator]) are state machines
    driven by the events the HTTP/2 transport emits. *)

From Equations Require Import Equations.
From Stdlib Require Import String Ascii ZArith List Bool Lia.
Import ListNotations.
Local Open Scope Z_scope.

(* ====================================================================== *)
(** * The JavaScript runtime the client relies on *)
(* ====================================================================== *)

Module JS.

(** A JavaScript string: its UTF-16 code units. *)
Definition jsstring := list Z.

(** An ASCII literal as a JavaScript string. *)
Definition lit (s : string) : jsstring :=
  map (fun a => Z.of_N (N_of_ascii a)) (list_ascii_of_string s).

Definition jsstring_eqb (a b : jsstring) : bool :=
  if list_eq_dec Z.eq_dec a b then true else false.

(** Truthiness of a string: [if (s)] holds for every non-empty string. *)
Definition truthy (s : jsstring) : bool :=
  match s with [] => false | _ :: _ => true end.

(** [Array.prototype.join('')] on an array of strings. *)
Definition join (parts : list jsstring) : jsstring := concat parts.

(** ** 32-bit integer operators *)

Definition ToInt32 (x : Z) : Z := (x + 2 ^ 31) mod 2 ^ 32 - 2 ^ 31.

(** [x << n] *)
Definition shl (x n : Z) : Z := ToInt32 (Z.shiftl (ToInt32 x) (n mod 32)).

(** [x | y] *)
Definition bor (x y : Z) : Z := Z.lor (ToInt32 x) (ToInt32 y).

(** ** Buffers *)

(** A [Buffer]: its bytes. *)
Definition Buffer := list Z.

Definition ToUint8 (x : Z) : Z := x mod 256.

(** [Buffer.from(array)]: every entry is truncated to a byte. *)
Definition Buffer_from (a : list Z) : Buffer := map ToUint8 a.

Definition is_high_surrogate (c : Z) : bool := (0xD800 <=? c) && (c <=? 0xDBFF).
Definition is_low_surrogate (c : Z) : bool := (0xDC00 <=? c) && (c <=? 0xDFFF).

(** The UTF-8 bytes of one code point. *)
Definition utf8_of_code_point (cp : Z) : list Z :=
  if cp <? 0x80 then [cp]
  else if cp <? 0x800 then
    [Z.lor 0xC0 (Z.shiftr cp 6); Z.lor 0x80 (Z.land cp 0x3F)]
  else if cp <? 0x10000 then
    [Z.lor 0xE0 (Z.shiftr cp 12);
     Z.lor 0x80 (Z.land (Z.shiftr cp 6) 0x3F);
     Z.lor 0x80 (Z.land cp 0x3F)]
  else
    [Z.lor 0xF0 (Z.shiftr cp 18);
     Z.lor 0x80 (Z.land (Z.shiftr cp 12) 0x3F);
     Z.lor 0x80 (Z.land (Z.shiftr cp 6) 0x3F);
     Z.lor 0x80 (Z.land cp 0x3F)].

(** [Buffer.from(str, 'utf8')]: surrogate pairs are combined, a lone
    surrogate becomes U+FFFD. *)
Fixpoint Buffer_from_utf8 (s : jsstring) : Buffer :=
  match s with
  | [] => []
  | c :: rest =>
      if is_high_surrogate c then
        match rest with
        | d :: rest' =>
            if is_low_surrogate d then
              utf8_of_code_point
                (0x10000 + Z.shiftl (c - 0xD800) 10 + (d - 0xDC00))
                ++ Buffer_from_utf8 rest'
            else utf8_of_code_point 0xFFFD ++ Buffer_from_utf8 rest
        | [] => utf8_of_code_point 0xFFFD
        end
      else if is_low_surrogate c then
        utf8_of_code_point 0xFFFD ++ Buffer_from_utf8 rest
      else utf8_of_code_point c ++ Buffer_from_utf8 rest
  end.

(** The UTF-16 code units of one code point. *)
Definition utf16_of_code_point (cp : Z) : jsstring :=
  if cp <? 0x10000 then [cp]
  else [0xD800 + Z.shiftr (cp - 0x10000) 10;
        0xDC00 + Z.land (cp - 0x10000) 0x3FF].

(** State of the UTF-8 decoder between two bytes: the code point built so
    far, the continuation bytes still needed and the range allowed for
    the next byte. *)
Record utf8_state := Utf8State {
  u_cp : Z; u_needed : nat; u_lower : Z; u_upper : Z
}.

(** A byte read while no sequence is open. *)
Definition utf8_lead (b : Z) : jsstring * option utf8_state :=
  if b <=? 0x7F then ([b], None)
  else if (0xC2 <=? b) && (b <=? 0xDF) then
    ([], Some (Utf8State (Z.land b 0x1F) 1 0x80 0xBF))
  else if (0xE0 <=? b) && (b <=? 0xEF) then
    ([], Some (Utf8State (Z.land b 0xF) 2
                 (if b =? 0xE0 then 0xA0 else 0x80)
                 (if b =? 0xED then 0x9F else 0xBF)))
  else if (0xF0 <=? b) && (b <=? 0xF4) then
    ([], Some (Utf8State (Z.land b 0x7) 3
                 (if b =? 0xF0 then 0x90 else 0x80)
                 (if b =? 0xF4 then 0x8F else 0xBF)))
  else ([0xFFFD], None).

(** [buf.toString('utf8')]: every maximal ill-formed part is replaced by
    one U+FFFD; the byte that breaks a sequence is read again as a lead
    byte. *)
Fixpoint utf8_decode (st : option utf8_state) (bs : Buffer) : jsstring :=
  match bs with
  | [] => match st with Some _ => [0xFFFD] | None => [] end
  | b :: rest =>
      match st with
      | None =>
          let (out, st') := utf8_lead b in out ++ utf8_decode st' rest
      | Some s =>
          if (u_lower s <=? b) && (b <=? u_upper s) then
            let cp := Z.lor (Z.shiftl (u_cp s) 6) (Z.land b 0x3F) in
            match u_needed s with
            | S (S n) =>
                utf8_decode (Some (Utf8State cp (S n) 0x80 0xBF)) rest
            | _ => utf16_of_code_point cp ++ utf8_decode None rest
            end
          else
            let (out, st') := utf8_lead b in
            0xFFFD :: out ++ utf8_decode st' rest
      end
  end.

Definition toString_utf8 (b : Buffer) : jsstring := utf8_decode None b.

End JS.
Import JS.

(* ====================================================================== *)
(** * Protobuf encoding helpers *)
(* ====================================================================== *)

Module Wire.

(** [Number(v)] on a BigInt [v]: the double nearest to [v], ties to the
    even significand.  A double has 53 significant bits, so the integers
    up to [2 ^ 53] in size are kept as they are and a larger one loses
    its [e] low bits, where [e] is its bit length less 53.  (Past the
    range of doubles the code gets an infinity where this gives a
    multiple of [2 ^ 971]; [Buffer.from] stores either as the byte 0.) *)
Definition Number_of_BigInt (v : Z) : Z :=
  let a := Z.abs v in
  if a <? 2 ^ 53 then v
  else
    let e := Z.log2 a - 52 in
    let q := Z.shiftr a e in
    let r := Z.land a (Z.ones e) in
    let half := 2 ^ (e - 1) in
    let q := if (half <? r) || ((r =? half) && Z.odd q) then q + 1 else q in
    Z.sgn v * Z.shiftl q e.

(** [encodeVarint]: the [while (v > 127n)] loop on the BigInt [v].  Each
    turn pushes the low seven bits with the continuation bit and shifts
    [v] right by seven; the last push is [Number(v)]. *)
Equations? encodeVarint (v : Z) : list Z by wf (Z.to_nat (Z.log2 v)) lt :=
  encodeVarint v with Z_gt_le_dec v 127 => {
    | left _ := Z.lor (Z.land v 0x7f) 0x80 :: encodeVarint (Z.shiftr v 7);
    | right _ := [Number_of_BigInt v] }.
Proof.
  rewrite Z.log2_shiftr by lia.
  assert (7 <= Z.log2 v) by (apply (Z.log2_le_mono 128 v); lia).
  lia.
Qed.

(** [arr.length] / [buf.length] as a number. *)
Definition len {A} (l : list A) : Z := Z.of_nat (length l).

(** [encodeString]: wire type 2, the string as UTF-8. *)
Definition encodeString (fieldNum : Z) (str : jsstring) : list Z :=
  let strBytes := Buffer_from_utf8 str in
  bor (shl fieldNum 3) 2 :: encodeVarint (len strBytes) ++ strBytes.

(** [encodeMessage]: wire type 2, a nested message. *)
Definition encodeMessage (fieldNum : Z) (data : list Z) : list Z :=
  bor (shl fieldNum 3) 2 :: encodeVarint (len data) ++ data.

(** [encodeVarintField]: wire type 0. *)
Definition encodeVarintField (fieldNum : Z) (value : Z) : list Z :=
  bor (shl fieldNum 3) 0 :: encodeVarint value.

(** ** The reader's side of the format

    The client has no decoder; these definitions follow the protobuf
    wire format as the specification words it: a varint is a sequence
    of little-endian 7-bit groups, the continuation bit set on all but
    the last byte. *)

Fixpoint decodeVarint (bs : list Z) : option (Z * list Z) :=
  match bs with
  | [] => None
  | b :: rest =>
      if Z.testbit b 7 then
        match decodeVarint rest with
        | Some (hi, rest') => Some (Z.land b 0x7f + 128 * hi, rest')
        | None => None
        end
      else Some (b, rest)
  end.

(** What a reader finds behind the tag of a length-delimited field: the
    length the field declares and the bytes that follow it. *)
Definition declaredLength (fieldBytes : list Z) : option (Z * list Z) :=
  match fieldBytes with
  | [] => None
  | _ :: afterTag => decodeVarint afterTag
  end.

(** [buf.readUInt32BE(0)] on a four-byte buffer. *)
Definition readUInt32BE (bs : list Z) : option Z :=
  match bs with
  | [b3; b2; b1; b0] =>
      Some (b3 * 2 ^ 24 + b2 * 2 ^ 16 + b1 * 2 ^ 8 + b0)
  | _ => None
  end.

Definition isByte (b : Z) : Prop := 0 <= b < 256.

End Wire.
Import Wire.

(* ====================================================================== *)
(** * Errors *)
(* ====================================================================== *)

Module Errors.

(** [WindsurfErrorCode], as the credential module declares it. *)
Inductive WindsurfErrorCode :=
| NOT_RUNNING | CSRF_MISSING | API_KEY_MISSING
| CONNECTION_FAILED | AUTH_FAILED | STREAM_ERROR.

(** What the client throws or passes to a callback.  [details] of a
    [WindsurfError] is the message of the transport error it wraps. *)
Inductive error :=
| TransportError (message : jsstring)
    (* an [Error] emitted by the HTTP/2 session or stream *)
| RangeError      (* [writeUInt32BE] out of range *)
| URIError        (* [decodeURIComponent] on a malformed escape *)
| ModelNotFound (model : jsstring)
    (* the failure of the model lookup, see [Models.modelNameToEnum] *)
| WindsurfError (message : jsstring) (code : WindsurfErrorCode)
                (details : option jsstring).

End Errors.
Import Errors.

(* ====================================================================== *)
(** * Request building *)
(* ====================================================================== *)

Module Request.

(** [ChatMessage.role]: 'user' | 'assistant' | 'system' | 'tool'. *)
Inductive Role := user | assistant | system | tool.

Record ChatMessage := { role : Role; content : jsstring }.

(** The members of the enum [ChatMessageSource] that [roleToSource]
    reads.  The enum is declared in [types.js]; its values are taken as
    given. *)
Record ChatMessageSourceT := {
  USER : Z; ASSISTANT : Z; SYSTEM : Z; TOOL : Z
}.

(** What [encodeMetadata] reads from its environment: [Date.now()] and
    [crypto.randomUUID()]. *)
Record Env := { Date_now : Z; randomUUID : jsstring }.

Section Builder.
Variable ChatMessageSource : ChatMessageSourceT.
Variable env : Env.

Definition encodeMetadata (apiKey version : jsstring) : list Z :=
  let requestId := Date_now env in
  let sessionId := randomUUID env in
  encodeString 1 (lit "windsurf-next")
    ++ encodeString 2 version
    ++ encodeString 3 apiKey
    ++ encodeString 4 (lit "en")
    ++ encodeString 7 version
    ++ encodeVarintField 9 requestId
    ++ encodeString 10 sessionId
    ++ encodeString 12 (lit "windsurf").

Definition encodeFormattedChatMessage
    (role : Z) (content header footer : jsstring) : list Z :=
  let result := encodeVarintField 1 role in
  let result :=
    if truthy header then result ++ encodeString 2 header else result in
  let result := result ++ encodeString 3 content in
  if truthy footer then result ++ encodeString 4 footer else result.

(** The [default] arm of the switch returns [USER]; the type of
    [role] leaves it no input. *)
Definition roleToSource (r : Role) : Z :=
  match r with
  | user => USER ChatMessageSource
  | assistant => ASSISTANT ChatMessageSource
  | system => SYSTEM ChatMessageSource
  | tool => TOOL ChatMessageSource
  end.

(** One turn of [for (const msg of messages)]: the state is the
    [request] array and [systemPrompt]. *)
Definition addMessage (st : list Z * jsstring) (msg : ChatMessage)
  : list Z * jsstring :=
  let (request, systemPrompt) := st in
  match role msg with
  | system => (request, content msg)
  | r =>
      let source := roleToSource r in
      let formattedMsg :=
        encodeFormattedChatMessage source (content msg) [] [] in
      (request ++ encodeMessage 2 formattedMsg, systemPrompt)
  end.

(** The [request] array of [buildChatRequest], before framing. *)
Definition chatRequest
    (apiKey version : jsstring) (modelEnum : Z)
    (messages : list ChatMessage) : list Z :=
  let metadata := encodeMetadata apiKey version in
  let request := encodeMessage 1 metadata in
  let (request, systemPrompt) :=
    fold_left addMessage messages (request, []) in
  let request :=
    if truthy systemPrompt
    then request ++ encodeString 3 systemPrompt else request in
  request ++ encodeVarintField 4 modelEnum.

(** [buf.writeUInt32BE(value, offset)]: the four bytes written, or the
    range error. *)
Definition writeUInt32BE (value : Z) : error + list Z :=
  if (0 <=? value) && (value <=? 4294967295) then
    inr [Z.land (Z.shiftr value 24) 255; Z.land (Z.shiftr value 16) 255;
         Z.land (Z.shiftr value 8) 255; Z.land value 255]
  else inl RangeError.

(** The gRPC framing at the end of [buildChatRequest] (the test script
    has the same lines as its function [grpcFrame]): one byte for the
    compression flag, four for the length, then the payload. *)
Definition grpcFrame (payload : Buffer) : error + Buffer :=
  match writeUInt32BE (len payload) with
  | inr lenBytes => inr (0 :: lenBytes ++ payload)
  | inl e => inl e
  end.

Definition buildChatRequest
    (apiKey version : jsstring) (modelEnum : Z)
    (messages : list ChatMessage) : error + Buffer :=
  let payload :=
    Buffer_from (chatRequest apiKey version modelEnum messages) in
  grpcFrame payload.

End Builder.

(** ** The reader's side of a message

    A protobuf reader for the two wire types the client writes, after
    the wire format: a tag is the varint [fieldNumber << 3 | wireType],
    wire type 0 is followed by a varint, wire type 2 by a varint length
    and that many bytes.  [fuel] bounds the number of fields read. *)

Inductive value := Varint (v : Z) | Bytes (b : Buffer).

Definition field := (Z * value)%type.

Fixpoint readFields (fuel : nat) (bs : Buffer) : option (list field) :=
  match bs with
  | [] => Some []
  | _ :: _ =>
      match fuel with
      | O => None
      | S fuel' =>
          match decodeVarint bs with
          | None => None
          | Some (tag, rest) =>
              let number := Z.shiftr tag 3 in
              match Z.land tag 7 with
              | 0 =>
                  match decodeVarint rest with
                  | None => None
                  | Some (v, rest') =>
                      option_map (cons (number, Varint v))
                                 (readFields fuel' rest')
                  end
              | 2 =>
                  match decodeVarint rest with
                  | None => None
                  | Some (n, rest') =>
                      if n <=? len rest' then
                        option_map
                          (cons (number,
                                 Bytes (firstn (Z.to_nat n) rest')))
                          (readFields fuel' (skipn (Z.to_nat n) rest'))
                      else None
                  end
              | _ => None
              end
          end
      end
  end.

(** Every field takes at least two bytes, so the length is fuel enough. *)
Definition decodeFields (bs : Buffer) : option (list field) :=
  readFields (length bs) bs.

Definition isSystem (m : ChatMessage) : bool :=
  match role m with system => true | _ => false end.

(** The chat entry [buildChatRequest] writes, as field 2, for a message
    that is not a system message. *)
Definition chatEntry (ChatMessageSource : ChatMessageSourceT)
    (m : ChatMessage) : list Z :=
  encodeFormattedChatMessage
    (roleToSource ChatMessageSource (role m)) (content m) [] [].

(** [systemPrompt] after the loop has seen [messages]. *)
Definition systemPromptAfter (messages : list ChatMessage)
    (systemPrompt : jsstring) : jsstring :=
  fold_left (fun sp m => if isSystem m then content m else sp)
            messages systemPrompt.

(** The values of the fields numbered [n], in order. *)
Definition fieldsNumbered (n : Z) (fs : list field) : list value :=
  map snd (filter (fun f => fst f =? n) fs).

End Request.
Import Request.

(* ====================================================================== *)
(** * Regular expressions *)
(* ====================================================================== *)

(** The patterns of the client are sequences of character classes under
    greedy quantifiers, with at most an end anchor; this module gives such
    patterns the backtracking semantics of JavaScript, and the string
    methods the client calls with them. *)
Module Regex.

Definition cls := Z -> bool.

Definition between (lo hi : Z) : cls := fun c => (lo <=? c) && (c <=? hi).
Definition char (x : Z) : cls := fun c => c =? x.
Definition union (a b : cls) : cls := fun c => a c || b c.
Definition negate (a : cls) : cls := fun c => negb (a c).

(** [\s]: WhiteSpace and LineTerminator, also the set [trim] removes. *)
Definition space : cls := fun c =>
  between 9 13 c || char 32 c || char 0xA0 c || char 0x1680 c
  || between 0x2000 0x200A c || char 0x2028 c || char 0x2029 c
  || char 0x202F c || char 0x205F c || char 0x3000 c || char 0xFEFF c.

(** [\d] *)
Definition digit : cls := between 48 57.

(** An element of a pattern: a class repeated [lo] to [hi] times,
    greedily, inside a capture group or not; or the anchor [$]. *)
Inductive item :=
| Rep (c : cls) (lo : nat) (hi : option nat) (capture : bool)
| Eos.

Definition one (c : cls) : item := Rep c 1 (Some 1%nat) false.
Definition star (c : cls) : item := Rep c 0 None false.
Definition plus (c : cls) : item := Rep c 1 None false.
Definition atLeast (n : nat) (c : cls) : item := Rep c n None false.
Definition group (i : item) : item :=
  match i with Rep c lo hi _ => Rep c lo hi true | Eos => Eos end.

(** Length of the longest prefix of [s] inside the class. *)
Fixpoint runLength (c : cls) (s : jsstring) : nat :=
  match s with
  | x :: r => if c x then S (runLength c r) else O
  | [] => O
  end.

(** Greedy choice: [n] repetitions first, then fewer, down to [lo]. *)
Fixpoint backtrack {R} (attempt : nat -> option R) (lo n : nat)
  : option R :=
  if (n <? lo)%nat then None
  else match attempt n with
       | Some r => Some r
       | None =>
           match n with
           | O => None
           | S n' => backtrack attempt lo n'
           end
       end.

(** Match the pattern at the start of [s]: the captures and the text
    left after the match. *)
Fixpoint matchHere (p : list item) (s : jsstring)
  : option (list jsstring * jsstring) :=
  match p with
  | [] => Some ([], s)
  | Eos :: p' => match s with [] => matchHere p' s | _ :: _ => None end
  | Rep c lo hi capture :: p' =>
      let avail := runLength c s in
      let most :=
        match hi with Some h => Nat.min h avail | None => avail end in
      backtrack
        (fun n =>
           match matchHere p' (skipn n s) with
           | Some (caps, rest) =>
               Some ((if capture then [firstn n s] else []) ++ caps, rest)
           | None => None
           end)
        lo most
  end.

(** [str.match(re)] without the [g] flag: the captures of the leftmost
    match. *)
Fixpoint exec (p : list item) (s : jsstring) : option (list jsstring) :=
  match matchHere p s with
  | Some (caps, _) => Some caps
  | None =>
      match s with
      | [] => None
      | _ :: s' => exec p s'
      end
  end.

(** [re.test(str)] / the truth of [str.match(re)] for a pattern that
    starts with [^]. *)
Definition matchesAtStart (p : list item) (s : jsstring) : bool :=
  match matchHere p s with Some _ => true | None => false end.

(** [str.replace(re, '')] for a pattern that starts with [^]. *)
Definition removeAtStart (p : list item) (s : jsstring) : jsstring :=
  match matchHere p s with Some (_, rest) => rest | None => s end.

(** [str.replace(/[class]/g, r)] *)
Definition replaceEach (c : cls) (r : Z) (s : jsstring) : jsstring :=
  map (fun x => if c x then r else x) s.

(** The loop of [str.split(re)].  [piece] is the text since the end of
    the last separator and [skip] the characters of the current
    separator still ahead; at an empty match the scan moves on by one
    character. *)
Fixpoint splitLoop (p : list item) (piece : jsstring) (skip : nat)
    (s : jsstring) : list jsstring :=
  match s with
  | [] => [piece]
  | c :: s' =>
      match skip with
      | S k => splitLoop p piece k s'
      | O =>
          match matchHere p s with
          | None => splitLoop p (piece ++ [c]) O s'
          | Some (caps, rest) =>
              match (length s - length rest)%nat with
              | O =>
                  match piece with
                  | [] => splitLoop p [c] O s'
                  | _ :: _ => piece :: caps ++ splitLoop p [c] O s'
                  end
              | S k => piece :: caps ++ splitLoop p [] k s'
              end
          end
      end
  end.

Definition split (p : list item) (s : jsstring) : list jsstring :=
  match s with
  | [] => match matchHere p [] with Some _ => [] | None => [[]] end
  | _ :: _ => splitLoop p [] O s
  end.

Fixpoint dropWhile (c : cls) (s : jsstring) : jsstring :=
  match s with
  | x :: r => if c x then dropWhile c r else s
  | [] => []
  end.

(** [str.trim()] *)
Definition trim (s : jsstring) : jsstring :=
  rev (dropWhile space (rev (dropWhile space s))).

(** [str.includes(ch)] for a one-character [ch]. *)
Definition includes (x : Z) (s : jsstring) : bool := existsb (Z.eqb x) s.

End Regex.

(* ====================================================================== *)
(** * Response parsing *)
(* ====================================================================== *)

Module Response.
Import Regex.

(** [/[^\x20-\x7E\n]/g] *)
Definition nonPrintable : cls := negate (union (between 0x20 0x7E) (char 10)).

(** [/\*\s*([^0]+)/] *)
Definition asteriskMarker : list item :=
  [one (char 42); star space; group (plus (negate (char 48)))].

(** [/\s{2,}/] *)
Definition spaces2 : list item := [atLeast 2 space].

(** [/^[a-f0-9-]+$/i]: under the [i] flag the class holds the letters
    of both cases. *)
Definition hexToken : list item :=
  [plus (union (union (between 97 102) (between 65 70))
               (union (between 48 57) (char 45))); Eos].

(** [/^[\s\d*]+/] *)
Definition leadingNoise : list item :=
  [plus (union space (union digit (char 42)))].

(** The [for (const part of parts)] loop of the fallback. *)
Fixpoint firstMeaningful (parts : list jsstring) : jsstring :=
  match parts with
  | [] => []
  | part :: parts' =>
      if (0 <? len part)
         && negb (includes 45 part)
         && negb (matchesAtStart hexToken part)
      then
        let cleaned := trim (removeAtStart leadingNoise part) in
        if 0 <? len cleaned then cleaned else firstMeaningful parts'
      else firstMeaningful parts'
  end.

Definition extractTextFromChunk (chunk : Buffer) : jsstring :=
  let readable := trim (replaceEach nonPrintable 32 (toString_utf8 chunk)) in
  match exec asteriskMarker readable with
  | Some textMatch => trim (nth 0 textMatch [])
  | None => firstMeaningful (split spaces2 readable)
  end.

End Response.
Import Response.

(* ====================================================================== *)
(** * [decodeURIComponent] *)
(* ====================================================================== *)

Module URI.

Definition hexDigit (c : Z) : option Z :=
  if (48 <=? c) && (c <=? 57) then Some (c - 48)
  else if (97 <=? c) && (c <=? 102) then Some (c - 87)
  else if (65 <=? c) && (c <=? 70) then Some (c - 55)
  else None.

Inductive token := Lit (c : Z) | Esc (b : Z).

(** Every [%] must be followed by two hexadecimal digits. *)
Fixpoint tokenize (s : jsstring) : option (list token) :=
  match s with
  | [] => Some []
  | c :: rest =>
      if c =? 37 then
        match rest with
        | h1 :: h2 :: rest' =>
            match hexDigit h1, hexDigit h2 with
            | Some a, Some b =>
                option_map (cons (Esc (16 * a + b))) (tokenize rest')
            | _, _ => None
            end
        | _ => None
        end
      else option_map (cons (Lit c)) (tokenize rest)
  end.

(** The escaped octets must be well-formed UTF-8, one code point after
    the other. *)
Fixpoint decodeTokens (st : option utf8_state) (ts : list token)
  : option jsstring :=
  match ts with
  | [] => match st with None => Some [] | Some _ => None end
  | t :: ts' =>
      match st, t with
      | None, Lit c => option_map (cons c) (decodeTokens None ts')
      | None, Esc b =>
          if b <=? 0x7F then option_map (cons b) (decodeTokens None ts')
          else match utf8_lead b with
               | (_, Some s) => decodeTokens (Some s) ts'
               | (_, None) => None
               end
      | Some _, Lit _ => None
      | Some s, Esc b =>
          if (u_lower s <=? b) && (b <=? u_upper s) then
            let cp := Z.lor (Z.shiftl (u_cp s) 6) (Z.land b 0x3F) in
            match u_needed s with
            | S (S n) =>
                decodeTokens (Some (Utf8State cp (S n) 0x80 0xBF)) ts'
            | _ =>
                option_map (app (utf16_of_code_point cp))
                           (decodeTokens None ts')
            end
          else None
      end
  end.

(** [decodeURIComponent(s)]: the decoded string, or the [URIError]. *)
Definition decodeURIComponent (s : jsstring) : error + jsstring :=
  match tokenize s with
  | Some ts =>
      match decodeTokens None ts with
      | Some d => inr d
      | None => inl URIError
      end
  | None => inl URIError
  end.

End URI.
Import URI.

(* ====================================================================== *)
(** * Model lookup *)
(* ====================================================================== *)

Module Models.

(** Modelled from the spec: [modelNameToEnum], imported from [models.js],
    is not among the sources.  The specification has the model name
    resolved to an integer code through a fixed lookup, an unresolved
    name failing with [ModelNotFound]. *)
Definition modelNameToEnum (table : list (jsstring * Z)) (name : jsstring)
  : error + Z :=
  match find (fun entry => jsstring_eqb (fst entry) name) table with
  | Some (_, code) => inr code
  | None => inl (ModelNotFound name)
  end.

End Models.
Import Models.

(* ====================================================================== *)
(** * Streaming API *)
(* ====================================================================== *)

Module Transport.

(** [WindsurfCredentials] *)
Record WindsurfCredentials := {
  csrfToken : jsstring; port : Z; apiKey : jsstring; version : jsstring
}.

(** [StreamChatOptions], without the callbacks: the calls made to them
    are recorded in the state of the call. *)
Record StreamChatOptions := {
  model : jsstring; messages : list ChatMessage
}.

(** What the HTTP/2 session ([client]) and stream ([req]) emit. *)
Inductive event :=
| ClientError (message : jsstring)            (* client 'error' *)
| ClientConnect                               (* client 'connect' *)
| ReqData (chunk : Buffer)                    (* req 'data' *)
| ReqTrailers (status message : option jsstring)
    (* req 'trailers', with [trailers['grpc-status']] and
       [trailers['grpc-message']] *)
| ReqEnd                                      (* req 'end' *)
| ReqError (message : jsstring).              (* req 'error' *)

(** Network actions of a call. *)
Inductive io := Connect (port : Z).   (* [http2.connect] *)

(** The error the 'trailers' listeners build when [status !== '0']; the
    left side is the exception [decodeURIComponent] throws. *)
Definition grpcError (status message : option jsstring) : error + error :=
  let statusText :=
    match status with Some s => s | None => lit "undefined" end in
  let wrap text :=
    WindsurfError (lit "gRPC error " ++ statusText ++ lit ": " ++ text)
                  STREAM_ERROR None in
  match message with
  | Some (c :: m) =>
      match decodeURIComponent (c :: m) with
      | inr decoded => inr (wrap decoded)
      | inl e => inl e
      end
  | _ => inr (wrap (lit "Unknown error"))
  end.

(** [hay] contains [needle]. *)
Definition Contains (needle hay : jsstring) : Prop :=
  exists before after, hay = before ++ needle ++ after.

(** [status !== '0'] *)
Definition statusNotZero (status : option jsstring) : bool :=
  match status with
  | Some s => negb (jsstring_eqb s (lit "0"))
  | None => true
  end.

End Transport.
Import Transport.

(** ** [streamChat]: the promise and the callbacks *)

Module Push.

Inductive promise :=
| Pending
| Resolved (fullText : jsstring)
| Rejected (e : error).

(** A promise settles once: later [resolve] and [reject] do nothing. *)
Definition resolve (v : jsstring) (p : promise) : promise :=
  match p with Pending => Resolved v | _ => p end.
Definition reject (e : error) (p : promise) : promise :=
  match p with Pending => Rejected e | _ => p end.

(** A call to one of the callbacks of the options. *)
Inductive call :=
| onChunk (text : jsstring)
| onComplete (fullText : jsstring)
| onError (e : error).

Record State := {
  body : Buffer;               (* the request frame *)
  chunks : list jsstring;      (* [chunks] *)
  settled : promise;           (* the promise [streamChat] returned *)
  calls : list call;           (* callback calls, oldest first *)
  closes : nat;                (* calls of [client.close()] *)
  written : list Buffer;       (* one entry per request opened *)
  timer : option Z             (* the pending [setTimeout], in ms *)
}.

Definition invoke (c : call) (s : State) : State :=
  {| body := body s; chunks := chunks s; settled := settled s;
     calls := calls s ++ [c]; closes := closes s; written := written s;
     timer := timer s |}.

Definition settle (f : promise -> promise) (s : State) : State :=
  {| body := body s; chunks := chunks s; settled := f (settled s);
     calls := calls s; closes := closes s; written := written s;
     timer := timer s |}.

Definition close (s : State) : State :=
  {| body := body s; chunks := chunks s; settled := settled s;
     calls := calls s; closes := S (closes s); written := written s;
     timer := timer s |}.

Definition pushChunk (text : jsstring) (s : State) : State :=
  {| body := body s; chunks := chunks s ++ [text]; settled := settled s;
     calls := calls s; closes := closes s; written := written s;
     timer := timer s |}.

(** [client.request(...)], [req.write(body)], [req.end()] *)
Definition sendRequest (s : State) : State :=
  {| body := body s; chunks := chunks s; settled := settled s;
     calls := calls s; closes := closes s;
     written := written s ++ [body s]; timer := timer s |}.

Definition clearTimer (s : State) : State :=
  {| body := body s; chunks := chunks s; settled := settled s;
     calls := calls s; closes := closes s; written := written s;
     timer := None |}.

(** The state when [streamChat] returns its promise: [http2.connect]
    has been called, the listeners of [client] are registered and the
    two-minute timer is set. *)
Definition start (frame : Buffer) : State :=
  {| body := frame; chunks := []; settled := Pending; calls := [];
     closes := 0; written := []; timer := Some 120000 |}.

(** What can happen to a call: the transport emits an event, or the
    timer set by [setTimeout] fires. *)
Inductive occurrence :=
| Emit (e : event)
| TimerFires.

(** The listeners of the stream exist once 'connect' has opened it. *)
Definition requestOpen (s : State) : bool :=
  match written s with [] => false | _ :: _ => true end.

(** One listener run.  The left side is an exception that leaves the
    listener uncaught. *)
Definition step (s : State) (o : occurrence) : error + State :=
  match o with
  | Emit (ClientError msg) =>
      let s := invoke (onError (TransportError msg)) s in
      inr (settle (reject (WindsurfError (lit "Connection failed: " ++ msg)
                                         CONNECTION_FAILED (Some msg))) s)
  | Emit ClientConnect => inr (sendRequest s)
  | Emit (ReqData chunk) =>
      if requestOpen s then
        let text := extractTextFromChunk chunk in
        if truthy text then inr (invoke (onChunk text) (pushChunk text s))
        else inr s
      else inr s
  | Emit (ReqTrailers status message) =>
      if requestOpen s && statusNotZero status then
        match grpcError status message with
        | inr err => inr (settle (reject err) (invoke (onError err) s))
        | inl thrown => inl thrown
        end
      else inr s
  | Emit ReqEnd =>
      if requestOpen s then
        let s := close s in
        let fullText := join (chunks s) in
        inr (settle (resolve fullText) (invoke (onComplete fullText) s))
      else inr s
  | Emit (ReqError msg) =>
      if requestOpen s then
        let s := close s in
        let s := invoke (onError (TransportError msg)) s in
        inr (settle (reject (WindsurfError (lit "Request failed: " ++ msg)
                                           STREAM_ERROR (Some msg))) s)
      else inr s
  | TimerFires =>
      match timer s with
      | Some _ =>
          let s := close (clearTimer s) in
          let fullText := join (chunks s) in
          inr (settle (resolve fullText) (invoke (onComplete fullText) s))
      | None => inr s
      end
  end.

(** The listeners run one occurrence after the other; an uncaught
    exception ends the run. *)
Fixpoint run (s : State) (os : list occurrence) : error + State :=
  match os with
  | [] => inr s
  | o :: os' =>
      match step s o with
      | inr s' => run s' os'
      | inl e => inl e
      end
  end.

Section Call.
Variable table : list (jsstring * Z).
Variable ChatMessageSource : ChatMessageSourceT.
Variable env : Env.

(** The synchronous part of [streamChat]: the network actions made and
    either the exception thrown or the state of the pending call. *)
Definition streamChat (credentials : WindsurfCredentials)
    (options : StreamChatOptions) : list io * (error + State) :=
  match modelNameToEnum table (model options) with
  | inl e => ([], inl e)
  | inr modelEnum =>
      match buildChatRequest ChatMessageSource env
              (apiKey credentials) (version credentials)
              modelEnum (messages options) with
      | inl e => ([], inl e)
      | inr frame => ([Connect (port credentials)], inr (start frame))
      end
  end.
End Call.

(** The exchange of the specification's example: the chunks "Hel",
    "lo" and " world", then trailers with status 0 and the end of the
    stream. *)
Definition helloWorld : list occurrence :=
  map Emit
    [ClientConnect;
     ReqData (Buffer_from_utf8 (lit "Hel"));
     ReqData (Buffer_from_utf8 (lit "lo"));
     ReqData (Buffer_from_utf8 (lit " world"));
     ReqTrailers (Some (lit "0")) None;
     ReqEnd].

(** The fragments a sequence of chunks comes to: the texts extracted,
    without the empty ones. *)
Definition fragments (chunks : list Buffer) : list jsstring :=
  filter truthy (map extractTextFromChunk chunks).

(** The texts handed to [onChunk], in order. *)
Definition chunkCalls (cs : list call) : list jsstring :=
  flat_map (fun c => match c with onChunk t => [t] | _ => [] end) cs.

(** The arguments of the calls of [onComplete], in order. *)
Definition completeCalls (cs : list call) : list jsstring :=
  flat_map (fun c => match c with onComplete t => [t] | _ => [] end) cs.

End Push.

(** ** [streamChatGenerator]: the queue and the loop *)

Module Pull.

Record State := {
  chunkQueue : list jsstring;    (* [chunkQueue] *)
  done : bool;                   (* [done] *)
  error_ : option error;         (* [error] *)
  resolveWait : bool;            (* [resolveWait] is not null *)
  woken : bool;                  (* the awaited promise is resolved *)
  finished : bool;               (* the generator has returned or thrown *)
  closes : nat;                  (* calls of [client.close()] *)
  written : list Buffer          (* what was written to [req] *)
}.

Definition setError (e : error) (s : State) : State :=
  {| chunkQueue := chunkQueue s; done := done s; error_ := Some e;
     resolveWait := resolveWait s; woken := woken s;
     finished := finished s; closes := closes s; written := written s |}.

Definition setDone (s : State) : State :=
  {| chunkQueue := chunkQueue s; done := true; error_ := error_ s;
     resolveWait := resolveWait s; woken := woken s;
     finished := finished s; closes := closes s; written := written s |}.

Definition close (s : State) : State :=
  {| chunkQueue := chunkQueue s; done := done s; error_ := error_ s;
     resolveWait := resolveWait s; woken := woken s;
     finished := finished s; closes := S (closes s);
     written := written s |}.

Definition enqueue (text : jsstring) (s : State) : State :=
  {| chunkQueue := chunkQueue s ++ [text]; done := done s;
     error_ := error_ s; resolveWait := resolveWait s; woken := woken s;
     finished := finished s; closes := closes s; written := written s |}.

(** [resolveWait?.()] *)
Definition wake (s : State) : State :=
  {| chunkQueue := chunkQueue s; done := done s; error_ := error_ s;
     resolveWait := resolveWait s;
     woken := if resolveWait s then true else woken s;
     finished := finished s; closes := closes s; written := written s |}.

(** The state when the body of the generator reaches its loop: the
    connection is asked for, the listeners are registered and the frame
    is written.  No timer is set. *)
Definition start (frame : Buffer) : State :=
  {| chunkQueue := []; done := false; error_ := None;
     resolveWait := false; woken := false; finished := false;
     closes := 0; written := [frame] |}.

(** One listener run; there is no listener for 'connect'. *)
Definition step (s : State) (e : event) : error + State :=
  match e with
  | ClientError msg =>
      let s := setError (WindsurfError (lit "Connection failed: " ++ msg)
                                       CONNECTION_FAILED (Some msg)) s in
      inr (wake (setDone s))
  | ClientConnect => inr s
  | ReqData chunk =>
      let text := extractTextFromChunk chunk in
      if truthy text then inr (wake (enqueue text s)) else inr s
  | ReqTrailers status message =>
      if statusNotZero status then
        match grpcError status message with
        | inr err => inr (setError err s)
        | inl thrown => inl thrown
        end
      else inr s
  | ReqEnd => inr (wake (close (setDone s)))
  | ReqError msg =>
      let s := setError (WindsurfError (lit "Request failed: " ++ msg)
                                       STREAM_ERROR (Some msg)) s in
      inr (wake (close (setDone s)))
  end.

Fixpoint run (s : State) (es : list event) : error + State :=
  match es with
  | [] => inr s
  | e :: es' =>
      match step s e with
      | inr s' => run s' es'
      | inl x => inl x
      end
  end.

(** What a call of [next()] on the generator comes to. *)
Inductive outcome :=
| Yield (text : jsstring)    (* resolved with a fragment *)
| Await                      (* suspended at the [await], still pending *)
| Return                     (* the sequence has ended *)
| Throw (e : error).         (* rejected with the terminal error *)

(** The body from the head of the [while] loop to its next suspension
    or its end. *)
Definition loop (s : State) : State * outcome :=
  if negb (done s) || (0 <? len (chunkQueue s)) then
    match chunkQueue s with
    | text :: queue =>                      (* [chunkQueue.shift()] *)
        ({| chunkQueue := queue; done := done s; error_ := error_ s;
            resolveWait := false; woken := false; finished := false;
            closes := closes s; written := written s |}, Yield text)
    | [] =>
        (* the queue is empty, so the loop condition gave [!done] *)
        ({| chunkQueue := []; done := done s; error_ := error_ s;
            resolveWait := true; woken := false; finished := false;
            closes := closes s; written := written s |}, Await)
    end
  else
    ({| chunkQueue := chunkQueue s; done := done s; error_ := error_ s;
        resolveWait := false; woken := false; finished := true;
        closes := closes s; written := written s |},
     match error_ s with Some e => Throw e | None => Return end).

(** *** The generator, its consumer and the transport, interleaved

    A call of [next()] on an async generator is queued; the body works
    for the oldest call that is not settled.  On a generator suspended
    at its start or at a [yield] the call makes the body run at once, to
    its next suspension; on one suspended at the [await] the call waits
    in the queue behind the others.  A listener that calls [resolveWait]
    only resolves the awaited promise: the body goes on in a later
    microtask, after every event delivered in the same turn.  A history
    therefore lists three kinds of action.  (The body reaches its loop
    on the first [next()], so the history of a call begins with
    [CallNext].) *)

Record Session := {
  gen : State;
  pending : nat;                (* calls of [next()] not settled yet *)
  outcomes : list outcome       (* how the calls settled, oldest first *)
}.

Inductive action :=
| Happen (e : event)            (* a listener runs *)
| CallNext                      (* the consumer calls [next()] *)
| Resume.                       (* the microtask that continues the [await] *)

(** A call of [next()] is pending. *)
Definition waiting (ss : Session) : bool := (0 <? pending ss)%nat.

(** The body runs from the head of its loop for [n] queued calls: each
    [yield] settles the oldest call and the body goes on for the next
    one; at the [await] the calls left stay pending; when the body
    returns or throws, that settles the oldest call and every call
    behind it finds the sequence ended. *)
Fixpoint drive (n : nat) (g : State) (before : list outcome) : Session :=
  match n with
  | O => {| gen := g; pending := 0; outcomes := before |}
  | S n' =>
      match loop g with
      | (g', Yield text) => drive n' g' (before ++ [Yield text])
      | (g', Await) => {| gen := g'; pending := S n'; outcomes := before |}
      | (g', o) =>
          {| gen := g'; pending := 0;
             outcomes := before ++ o :: repeat Return n' |}
      end
  end.

Definition act (ss : Session) (a : action) : error + Session :=
  match a with
  | Happen e =>
      match step (gen ss) e with
      | inl x => inl x
      | inr g =>
          inr {| gen := g; pending := pending ss; outcomes := outcomes ss |}
      end
  | CallNext =>
      if finished (gen ss) then
        inr {| gen := gen ss; pending := pending ss;
               outcomes := outcomes ss ++ [Return] |}
      else
        match pending ss with
        | O => inr (drive 1 (gen ss) (outcomes ss))
        | S n =>
            inr {| gen := gen ss; pending := S (S n);
                   outcomes := outcomes ss |}
        end
  | Resume =>
      if resolveWait (gen ss) && woken (gen ss)
      then inr (drive (pending ss) (gen ss) (outcomes ss))
      else inr ss
  end.

Fixpoint play (ss : Session) (acts : list action) : error + Session :=
  match acts with
  | [] => inr ss
  | a :: acts' =>
      match act ss a with
      | inr ss' => play ss' acts'
      | inl x => inl x
      end
  end.

Definition session (frame : Buffer) : Session :=
  {| gen := start frame; pending := 0; outcomes := [] |}.

(** A consumer that goes on to the end of the sequence once the stream
    is over: the pending continuation runs, and [next()] is called once
    more than there are fragments in the queue. *)
Definition drain (ss : Session) : list action :=
  Resume :: repeat CallNext (S (length (chunkQueue (gen ss)))).

(** What holds between the consumer and the generator at any time: the
    body is at its [await] exactly when calls are pending, and the
    awaited promise is resolved when the stream is over. *)
Definition coherent (ss : Session) : Prop :=
  match pending ss with
  | O => resolveWait (gen ss) = false
  | S _ =>
      resolveWait (gen ss) = true /\ finished (gen ss) = false
      /\ (done (gen ss) = true -> woken (gen ss) = true)
  end.

(** The error a failing event leaves in [error]. *)
Definition failureOf (e : event) : option error :=
  match e with
  | ClientError msg =>
      Some (WindsurfError (lit "Connection failed: " ++ msg)
                          CONNECTION_FAILED (Some msg))
  | ReqError msg =>
      Some (WindsurfError (lit "Request failed: " ++ msg)
                          STREAM_ERROR (Some msg))
  | ReqTrailers status message =>
      if statusNotZero status then
        match grpcError status message with
        | inr err => Some err
        | inl _ => None
        end
      else None
  | _ => None
  end.

(** The terminal error of a history: that of its latest failing event. *)
Fixpoint lastFailure (acts : list action) : option error :=
  match acts with
  | [] => None
  | a :: acts' =>
      match lastFailure acts' with
      | Some e => Some e
      | None =>
          match a with Happen e => failureOf e | _ => None end
      end
  end.

(** Events that end the stream: after none of them is [done] set. *)
Definition endsStream (a : action) : bool :=
  match a with
  | Happen (ClientError _) | Happen ReqEnd | Happen (ReqError _) => true
  | _ => false
  end.

Definition settles (o : outcome) : bool :=
  match o with Return | Throw _ => true | _ => false end.

(** The actions on the consumer's side: a call of [next()] or a
    continuation of the body, no event of the transport. *)
Definition ofConsumer (a : action) : bool :=
  match a with Happen _ => false | _ => true end.

Section Call.
Variable table : list (jsstring * Z).
Variable ChatMessageSource : ChatMessageSourceT.
Variable env : Env.

(** The body of [streamChatGenerator] up to its loop, run by the
    first [next()]. *)
Definition streamChatGenerator (credentials : WindsurfCredentials)
    (options : StreamChatOptions) : list io * (error + State) :=
  match modelNameToEnum table (model options) with
  | inl e => ([], inl e)
  | inr modelEnum =>
      match buildChatRequest ChatMessageSource env
              (apiKey credentials) (version credentials)
              modelEnum (messages options) with
      | inl e => ([], inl e)
      | inr frame => ([Connect (port credentials)], inr (start frame))
      end
  end.
End Call.

End Pull.

(* ====================================================================== *)
(** * The test script of the client *)
(* ====================================================================== *)

(** The script that follows the client in [grpc-client.ts] builds a
    request of the richer form by hand.  Its [encodeVarint],
    [encodeString], [encodeVarintField], [encodeMessage] and [grpcFrame]
    have the same lines as those of the client. *)
Module Script.

(** [encodeTimestamp], with the value of [Date.now()] as [now]:
    [Math.floor(now / 1000)] seconds, [(now % 1000) * 1_000_000] nanos,
    the second field written only when [nanos > 0]. *)
Definition encodeTimestamp (now : Z) : list Z :=
  let seconds := now / 1000 in
  let nanos := Z.rem now 1000 * 1000000 in
  let bytes := encodeVarintField 1 seconds in
  if 0 <? nanos then bytes ++ encodeVarintField 2 nanos else bytes.

Definition encodeIntentGeneric (text : jsstring) : list Z :=
  encodeString 1 text.

Definition encodeChatMessageIntent (text : jsstring) : list Z :=
  let generic := encodeIntentGeneric text in
  encodeMessage 1 generic.

Definition encodeChatMessage (now : Z)
    (text messageId conversationId : jsstring) : list Z :=
  let bytes := encodeString 1 messageId in
  let bytes := bytes ++ encodeVarintField 2 1 in
  let timestamp := encodeTimestamp now in
  let bytes := bytes ++ encodeMessage 3 timestamp in
  let bytes := bytes ++ encodeString 4 conversationId in
  let intent := encodeChatMessageIntent text in
  bytes ++ encodeMessage 5 intent.

Definition encodeMetadata (apiKey version : jsstring) : list Z :=
  encodeString 1 (lit "windsurf")
    ++ encodeString 2 version
    ++ encodeString 3 apiKey
    ++ encodeString 4 (lit "en")
    ++ encodeString 7 version
    ++ encodeString 12 (lit "windsurf").

(** The payloads of [main]: [Buffer.from([...encodeMessage(1, metadata),
    ...encodeMessage(2, chatMessage), ...encodeVarintField(4, model)])]. *)
Definition payload (metadata chatMessage : list Z) (chatModel : Z)
  : Buffer :=
  Buffer_from (encodeMessage 1 metadata
                 ++ encodeMessage 2 chatMessage
                 ++ encodeVarintField 4 chatModel).

End Script.

(* ====================================================================== *)
(** * Credential discovery: what is read off the process listing *)
(* ====================================================================== *)

(** [getCSRFToken] and [getWindsurfVersion] of the credential module, with
    the result of [getLanguageServerProcess] (the output of [ps] or
    [wmic], or [null]) as their input. *)
Module Auth.
Import Regex.

(** A literal run of characters inside a pattern. *)
Definition literal (s : jsstring) : list item :=
  map (fun c => one (char c)) s.

(** [[a-f0-9-]] *)
Definition tokenChar : cls :=
  union (between 97 102) (union (between 48 57) (char 45)).

(** [/--csrf_token\s+([a-f0-9-]+)/] *)
Definition csrfTokenPattern : list item :=
  literal (lit "--csrf_token") ++ [plus space; group (plus tokenChar)].

(** [/--windsurf_version\s+([^\s]+)/] *)
Definition versionPattern : list item :=
  literal (lit "--windsurf_version")
    ++ [plus space; group (plus (negate space))].

Definition getCSRFToken (processInfo : option jsstring)
  : error + jsstring :=
  match processInfo with
  | Some (c :: info) =>
      match exec csrfTokenPattern (c :: info) with
      | Some (token :: _) =>
          if truthy token then inr token
          else inl (WindsurfError
                      (lit "CSRF token not found in Windsurf process. Is Windsurf running?")
                      CSRF_MISSING None)
      | _ =>
          inl (WindsurfError
                 (lit "CSRF token not found in Windsurf process. Is Windsurf running?")
                 CSRF_MISSING None)
      end
  | _ =>
      inl (WindsurfError
             (lit "Windsurf language server not found. Is Windsurf running?")
             NOT_RUNNING None)
  end.

(** [str.split('+')[0]]: the text before the first [+]. *)
Fixpoint beforeFirst (x : Z) (s : jsstring) : jsstring :=
  match s with
  | [] => []
  | c :: s' => if c =? x then [] else c :: beforeFirst x s'
  end.

Definition getWindsurfVersion (processInfo : option jsstring) : jsstring :=
  match processInfo with
  | Some (c :: info) =>
      match exec versionPattern (c :: info) with
      | Some match_ => beforeFirst 43 (nth 0 match_ [])
      | None => lit "1.13.104"
      end
  | _ => lit "1.13.104"
  end.

End Auth.

(* ====================================================================== *)
(** * Vocabulary for the properties *)
(* ====================================================================== *)

Module Observe.
Import Regex.

(** The bytes of a string field as they reach the wire: the string as
    UTF-8, spread into the request array and passed through
    [Buffer.from]. *)
Definition utf8Bytes (s : jsstring) : Buffer :=
  Buffer_from (Buffer_from_utf8 s).

(** The local [readable] of [extractTextFromChunk]. *)
Definition readable (chunk : Buffer) : jsstring :=
  trim (replaceEach nonPrintable 32 (toString_utf8 chunk)).

(** The characters [extractTextFromChunk] lets through: [\x20-\x7E] and
    the newline. *)
Definition printable (c : Z) : bool := negb (nonPrintable c).

(** The first character, if there is one, lies outside the class. *)
Definition startsOutside (c : cls) (s : jsstring) : Prop :=
  match s with [] => True | x :: _ => c x = false end.

(** [[\s\d*]], the class of [leadingNoise]. *)
Definition noise : cls := union space (union digit (char 42)).

(** The classes of the capture groups of a pattern, in order. *)
Definition captureClasses (p : list item) : list cls :=
  flat_map (fun i => match i with
                     | Rep c _ _ true => [c]
                     | _ => []
                     end) p.

(** A log of callback calls is consistent from the texts [seen] on when
    every [onChunk] gets a non-empty text and every [onComplete] gets the
    concatenation of the texts handed to [onChunk] before it. *)
Fixpoint consistentLog (seen : list jsstring) (cs : list Push.call)
  : Prop :=
  match cs with
  | [] => True
  | Push.onChunk t :: cs' => truthy t = true /\ consistentLog (seen ++ [t]) cs'
  | Push.onComplete t :: cs' => t = join seen /\ consistentLog seen cs'
  | Push.onError _ :: cs' => consistentLog seen cs'
  end.

(** What every listener of [streamChat] keeps: the log is consistent,
    [chunks] holds the texts handed to [onChunk], and a resolved promise
    has had its value handed to [onComplete]. *)
Definition logInvariant (s : Push.State) : Prop :=
  consistentLog [] (Push.calls s)
  /\ Push.chunks s = Push.chunkCalls (Push.calls s)
  /\ forall v, Push.settled s = Push.Resolved v ->
               In (Push.onComplete v) (Push.calls s).

Definition opensRequest (o : Push.occurrence) : bool :=
  match o with Push.Emit ClientConnect => true | _ => false end.

(** The fragments the consumer of the generator has received. *)
Definition yielded (os : list Pull.outcome) : list jsstring :=
  flat_map (fun o => match o with Pull.Yield t => [t] | _ => [] end) os.

(** The chunks the transport has delivered in a history. *)
Definition delivered (acts : list Pull.action) : list Buffer :=
  flat_map (fun a => match a with
                     | Pull.Happen (ReqData chunk) => [chunk]
                     | _ => []
                     end) acts.

(** The chunks among the events of the transport. *)
Definition chunksOf (es : list event) : list Buffer :=
  flat_map (fun e => match e with ReqData chunk => [chunk] | _ => [] end) es.

(** The listeners of the generator that call [client.close()]: 'end' and
    'error' of the stream. *)
Definition closesClient (a : Pull.action) : bool :=
  match a with
  | Pull.Happen ReqEnd | Pull.Happen (ReqError _) => true
  | _ => false
  end.

(** A varint as the wire format has it: every byte but the last carries
    the continuation bit, the last does not. *)
Definition varintShaped (bs : list Z) : Prop :=
  exists body last,
    bs = body ++ [last]
    /\ Forall (fun b => 128 <= b < 256) body
    /\ 0 <= last < 128.

End Observe.

(* ====================================================================== *)
(** * Properties of the wire encoder *)
(* ====================================================================== *)

Section WireFacts.

(** [Number] keeps the integers a double holds exactly. *)
Lemma Number_of_BigInt_exact (v : Z) :
  - 2 ^ 53 < v < 2 ^ 53 -> Number_of_BigInt v = v.
Proof.
  intros Hv. unfold Number_of_BigInt.
  destruct (Z.ltb_spec (Z.abs v) (2 ^ 53)); [reflexivity | lia].
Qed.

Lemma encodeVarint_stops (v : Z) :
  v <= 127 -> encodeVarint v = [Number_of_BigInt v].
Proof.
  intros Hv. rewrite encodeVarint_equation_1. simpl.
  destruct (Z_gt_le_dec v 127); [lia | reflexivity].
Qed.

Lemma encodeVarint_last (v : Z) : 0 <= v <= 127 -> encodeVarint v = [v].
Proof.
  intros Hv. rewrite encodeVarint_stops by lia.
  rewrite Number_of_BigInt_exact by lia. reflexivity.
Qed.

Lemma encodeVarint_more (v : Z) :
  127 < v ->
  encodeVarint v
  = Z.lor (Z.land v 0x7f) 0x80 :: encodeVarint (Z.shiftr v 7).
Proof.
  intros Hv. rewrite encodeVarint_equation_1. simpl.
  destruct (Z_gt_le_dec v 127); [reflexivity | lia].
Qed.

Lemma continuation_byte (v : Z) :
  Z.lor (Z.land v 0x7f) 0x80 = v mod 128 + 128.
Proof.
  pose proof (Z.add_lor_land (Z.land v 0x7f) 0x80) as Hadd.
  rewrite <- Z.land_assoc in Hadd. change (Z.land 0x7f 0x80) with 0 in Hadd.
  rewrite Z.land_0_r, Z.add_0_r in Hadd. rewrite Hadd.
  change 0x7f with (Z.ones 7). rewrite Z.land_ones by lia. reflexivity.
Qed.

Lemma small_has_no_continuation (b : Z) :
  0 <= b < 128 -> Z.testbit b 7 = false.
Proof.
  intros Hb. apply Z.testbit_false; [lia |].
  change (2 ^ 7) with 128.
  rewrite Z.div_small by lia. reflexivity.
Qed.

Lemma continuation_bit_set (x : Z) :
  0 <= x < 128 -> Z.testbit (x + 128) 7 = true.
Proof.
  intros Hx. apply Z.testbit_true; [lia |].
  change (2 ^ 7) with 128.
  replace ((x + 128) / 128) with 1; [reflexivity |].
  apply Z.div_unique with (r := x); lia.
Qed.

Lemma low_bits_of_continuation (x : Z) :
  0 <= x < 128 -> Z.land (x + 128) 0x7f = x.
Proof.
  intros Hx. change 0x7f with (Z.ones 7). rewrite Z.land_ones by lia.
  change (2 ^ 7) with 128.
  rewrite <- (Z.mul_1_l 128) at 1. rewrite Z.mod_add by lia.
  apply Z.mod_small; lia.
Qed.

(** Reading back what [encodeVarint] wrote, whatever follows it. *)
Lemma decodeVarint_encodeVarint (v : Z) (rest : list Z) :
  0 <= v -> decodeVarint (encodeVarint v ++ rest) = Some (v, rest).
Proof.
  revert rest. funelim (encodeVarint v); intros rest Hv.
  - cbn [app decodeVarint].
    rewrite continuation_byte.
    assert (Hm : 0 <= v mod 128 < 128) by (apply Z.mod_pos_bound; lia).
    rewrite continuation_bit_set by exact Hm.
    rewrite H by (apply Z.shiftr_nonneg; lia).
    rewrite low_bits_of_continuation by exact Hm.
    rewrite Z.shiftr_div_pow2 by lia. change (2 ^ 7) with 128.
    f_equal. f_equal. rewrite (Z.div_mod v 128) at 3 by lia. lia.
  - rewrite Number_of_BigInt_exact by lia. cbn [app decodeVarint].
    rewrite small_has_no_continuation by lia. reflexivity.
Qed.

(** [encodeVarint] writes bytes when its argument is not negative. *)
Lemma encodeVarint_bytes (v : Z) :
  0 <= v -> Forall isByte (encodeVarint v).
Proof.
  funelim (encodeVarint v); intros Hv.
  - constructor.
    + rewrite continuation_byte. unfold isByte.
      pose proof (Z.mod_pos_bound v 128). lia.
    + apply H. apply Z.shiftr_nonneg; lia.
  - rewrite Number_of_BigInt_exact by lia.
    constructor; [| constructor].
    unfold isByte. lia.
Qed.

Lemma Buffer_from_bytes (bs : list Z) :
  Forall isByte bs -> Buffer_from bs = bs.
Proof.
  induction 1 as [| b bs Hb _ IH]; [reflexivity |].
  unfold Buffer_from in *. cbn [map]. rewrite IH. f_equal.
  unfold ToUint8. apply Z.mod_small. exact Hb.
Qed.

Lemma Buffer_from_app (a b : list Z) :
  Buffer_from (a ++ b) = Buffer_from a ++ Buffer_from b.
Proof. apply map_app. Qed.

Lemma Buffer_from_length (a : list Z) : len (Buffer_from a) = len a.
Proof. unfold len, Buffer_from. rewrite length_map. reflexivity. Qed.

Lemma len_nonneg {A} (l : list A) : 0 <= len l.
Proof. unfold len. lia. Qed.

End WireFacts.

(** C5.  For every n among 0, 1, 127, 128, 2^32-1 and 2^53-1, reading the
    bytes of [encodeVarint n] as a base-128 varint (little-endian 7-bit
    groups, continuation bit on all but the last byte) gives n back and
    leaves no byte over. *)
Theorem varint_roundtrip_samples (n : Z) :
  In n [0; 1; 127; 128; 2 ^ 32 - 1; 2 ^ 53 - 1] ->
  decodeVarint (encodeVarint n) = Some (n, []).
Proof.
  intros Hn.
  rewrite <- (app_nil_r (encodeVarint n)).
  apply decodeVarint_encodeVarint.
  simpl in Hn.
  repeat (destruct Hn as [Hn | Hn]; [subst n; lia |]).
  contradiction.
Qed.

Lemma varint_roundtrip_samples_witness :
  In (2 ^ 53 - 1) [0; 1; 127; 128; 2 ^ 32 - 1; 2 ^ 53 - 1]
  /\ decodeVarint (encodeVarint (2 ^ 53 - 1)) = Some (2 ^ 53 - 1, []).
Proof.
  assert (H : In (2 ^ 53 - 1) [0; 1; 127; 128; 2 ^ 32 - 1; 2 ^ 53 - 1])
    by (simpl; tauto).
  split; [exact H | exact (varint_roundtrip_samples (2 ^ 53 - 1) H)].
Defined.

(** C7.  In a length-delimited field built by [encodeMessage] or
    [encodeString], for every field number and every payload, the varint
    written behind the tag reads back as the byte length of the payload,
    and the payload is exactly what follows it. *)
Theorem length_delimited_declares_payload_length
    (fieldNum : Z) (data : list Z) (str : jsstring) :
  declaredLength (encodeMessage fieldNum data) = Some (len data, data)
  /\ declaredLength (encodeString fieldNum str)
     = Some (len (Buffer_from_utf8 str), Buffer_from_utf8 str).
Proof.
  unfold declaredLength, encodeMessage, encodeString.
  split; apply decodeVarint_encodeVarint; apply len_nonneg.
Qed.

(* ====================================================================== *)
(** * Properties of the request builder *)
(* ====================================================================== *)

Section ReaderFacts.

(** The tags of the field numbers the client uses fit one byte. *)
Lemma tag_read (f w : Z) :
  1 <= f <= 15 -> w = 0 \/ w = 2 ->
  isByte (bor (shl f 3) w)
  /\ Z.testbit (bor (shl f 3) w) 7 = false
  /\ Z.shiftr (bor (shl f 3) w) 3 = f
  /\ Z.land (bor (shl f 3) w) 7 = w.
Proof.
  intros Hf Hw.
  assert (Hcases : f = 1 \/ f = 2 \/ f = 3 \/ f = 4 \/ f = 5 \/ f = 6
                   \/ f = 7 \/ f = 8 \/ f = 9 \/ f = 10 \/ f = 11
                   \/ f = 12 \/ f = 13 \/ f = 14 \/ f = 15) by lia.
  unfold isByte.
  repeat (destruct Hcases as [-> | Hcases]);
    try subst f; destruct Hw as [-> | ->];
    (match goal with
     | |- context [bor ?a ?b] =>
         let t := eval vm_compute in (bor a b) in
         change (bor a b) with t
     end;
     repeat split; try reflexivity; lia).
Qed.

Lemma decodeVarint_shorter (bs : list Z) (v : Z) (rest : list Z) :
  decodeVarint bs = Some (v, rest) -> (length rest < length bs)%nat.
Proof.
  revert v rest.
  induction bs as [| b bs IH]; intros v rest; cbn [decodeVarint length].
  - discriminate.
  - destruct (Z.testbit b 7).
    + destruct (decodeVarint bs) as [[hi rest'] |] eqn:E; [| discriminate].
      intros [= <- <-]. specialize (IH _ _ eq_refl). lia.
    + intros [= <- <-]. lia.
Qed.

(** More fuel than bytes changes nothing. *)
Lemma readFields_fuel (fuel1 : nat) :
  forall (fuel2 : nat) (bs : Buffer),
    (length bs <= fuel1)%nat -> (length bs <= fuel2)%nat ->
    readFields fuel1 bs = readFields fuel2 bs.
Proof.
  induction fuel1 as [| fuel1 IH]; intros fuel2 bs H1 H2.
  - destruct bs; [| simpl in H1; lia]. destruct fuel2; reflexivity.
  - destruct bs as [| b bs]; [destruct fuel2; reflexivity |].
    destruct fuel2 as [| fuel2]; [simpl in H2; lia |].
    cbn [readFields].
    destruct (decodeVarint (b :: bs)) as [[tag rest] |] eqn:Etag;
      [| reflexivity].
    apply decodeVarint_shorter in Etag.
    destruct (Z.land tag 7) as [| [ [ | | ] | [ | | ] | ] |]; try reflexivity.
    + destruct (decodeVarint rest) as [[v rest'] |] eqn:Ev; [| reflexivity].
      apply decodeVarint_shorter in Ev.
      rewrite (IH fuel2 rest') by lia. reflexivity.
    + destruct (decodeVarint rest) as [[n rest'] |] eqn:En; [| reflexivity].
      apply decodeVarint_shorter in En.
      destruct (n <=? len rest'); [| reflexivity].
      pose proof (length_skipn (Z.to_nat n) rest') as Hs.
      rewrite (IH fuel2 (skipn (Z.to_nat n) rest')) by lia. reflexivity.
Qed.

Lemma firstn_len_app {A} (a b : list A) :
  firstn (Z.to_nat (len a)) (a ++ b) = a.
Proof.
  unfold len. rewrite Nat2Z.id, firstn_app, Nat.sub_diag, firstn_all.
  simpl. apply app_nil_r.
Qed.

Lemma skipn_len_app {A} (a b : list A) :
  skipn (Z.to_nat (len a)) (a ++ b) = b.
Proof.
  unfold len. rewrite Nat2Z.id, skipn_app, Nat.sub_diag, skipn_all.
  reflexivity.
Qed.

(** Reading a length-delimited field written by [encodeMessage]. *)
Lemma decodeFields_encodeMessage (f : Z) (data rest : Buffer) :
  1 <= f <= 15 ->
  decodeFields (encodeMessage f data ++ rest)
  = option_map (cons (f, Bytes data)) (decodeFields rest).
Proof.
  intros Hf. destruct (tag_read f 2 Hf (or_intror eq_refl))
    as (_ & Hbit & Hnum & Hwire).
  unfold decodeFields, encodeMessage.
  cbn [app length readFields decodeVarint].
  rewrite Hbit, Hnum, Hwire. rewrite <- app_assoc.
  rewrite decodeVarint_encodeVarint by apply len_nonneg.
  replace (len data <=? len (data ++ rest)) with true
    by (symmetry; apply Z.leb_le; unfold len; rewrite length_app; lia).
  rewrite firstn_len_app, skipn_len_app.
  f_equal. apply readFields_fuel; rewrite ?length_app; lia.
Qed.

(** Reading a varint field written by [encodeVarintField]. *)
Lemma decodeFields_encodeVarintField (f v : Z) (rest : Buffer) :
  1 <= f <= 15 -> 0 <= v ->
  decodeFields (encodeVarintField f v ++ rest)
  = option_map (cons (f, Varint v)) (decodeFields rest).
Proof.
  intros Hf Hv. destruct (tag_read f 0 Hf (or_introl eq_refl))
    as (_ & Hbit & Hnum & Hwire).
  unfold decodeFields, encodeVarintField.
  cbn [app length readFields decodeVarint].
  rewrite Hbit, Hnum, Hwire.
  rewrite decodeVarint_encodeVarint by exact Hv.
  f_equal. apply readFields_fuel; rewrite ?length_app; lia.
Qed.

(** [Buffer.from] leaves the tag and the length of a field alone. *)
Lemma Buffer_from_encodeMessage (f : Z) (data : list Z) :
  1 <= f <= 15 ->
  Buffer_from (encodeMessage f data) = encodeMessage f (Buffer_from data).
Proof.
  intros Hf. destruct (tag_read f 2 Hf (or_intror eq_refl)) as (Hb & _).
  unfold encodeMessage. rewrite Buffer_from_length.
  change (Buffer_from (?t :: ?l)) with (ToUint8 t :: Buffer_from l).
  rewrite Buffer_from_app.
  rewrite (Buffer_from_bytes (encodeVarint (len data)))
    by (apply encodeVarint_bytes, len_nonneg).
  f_equal. apply Z.mod_small. exact Hb.
Qed.

Lemma Buffer_from_encodeVarintField (f v : Z) :
  1 <= f <= 15 -> 0 <= v ->
  Buffer_from (encodeVarintField f v) = encodeVarintField f v.
Proof.
  intros Hf Hv. destruct (tag_read f 0 Hf (or_introl eq_refl)) as (Hb & _).
  apply Buffer_from_bytes. unfold encodeVarintField.
  constructor; [exact Hb | apply encodeVarint_bytes; exact Hv].
Qed.

End ReaderFacts.

Section RequestFacts.
Variable ChatMessageSource : ChatMessageSourceT.
Variable env : Env.

(** The four bytes of [writeUInt32BE] spell the value, big end first. *)
Lemma writeUInt32BE_in_range (n : Z) :
  0 <= n < 2 ^ 32 ->
  exists lengthField,
    writeUInt32BE n = inr lengthField
    /\ Forall isByte lengthField
    /\ readUInt32BE lengthField = Some n.
Proof.
  intros Hn. unfold writeUInt32BE.
  replace ((0 <=? n) && (n <=? 4294967295)) with true
    by (symmetry; apply andb_true_iff; split; apply Z.leb_le; lia).
  eexists. split; [reflexivity |].
  change 255 with (Z.ones 8).
  rewrite !Z.land_ones, !Z.shiftr_div_pow2 by lia.
  change (2 ^ 8) with 256. change (2 ^ 16) with 65536.
  change (2 ^ 24) with 16777216. change (2 ^ 32) with 4294967296 in Hn.
  split.
  - unfold isByte.
    repeat constructor; apply Z.mod_pos_bound; lia.
  - unfold readUInt32BE. f_equal.
    change (2 ^ 8) with 256. change (2 ^ 16) with 65536.
    change (2 ^ 24) with 16777216.
    Z.div_mod_to_equations. lia.
Qed.

(** What the loop of [buildChatRequest] leaves in [request] and
    [systemPrompt]. *)
Lemma addMessage_fold (messages : list ChatMessage) :
  forall (request : list Z) (systemPrompt : jsstring),
    fold_left (addMessage ChatMessageSource) messages
              (request, systemPrompt)
    = (request
         ++ flat_map (fun m => encodeMessage 2 (chatEntry ChatMessageSource m))
                     (filter (fun m => negb (isSystem m)) messages),
       systemPromptAfter messages systemPrompt).
Proof.
  induction messages as [| m ms IH]; intros request systemPrompt.
  - simpl. rewrite app_nil_r. reflexivity.
  - assert (Hstep :
      addMessage ChatMessageSource (request, systemPrompt) m
      = (if isSystem m then request
         else request ++ encodeMessage 2 (chatEntry ChatMessageSource m),
         if isSystem m then content m else systemPrompt))
      by (unfold addMessage, isSystem, chatEntry;
          destruct (role m); reflexivity).
    cbn [fold_left]. rewrite Hstep, IH.
    unfold systemPromptAfter. cbn [fold_left filter].
    destruct (isSystem m); cbn [negb flat_map];
      rewrite <- ?app_assoc; reflexivity.
Qed.

Lemma chatRequest_shape (apiKey version : jsstring) (modelEnum : Z)
    (messages : list ChatMessage) :
  chatRequest ChatMessageSource env apiKey version modelEnum messages
  = encodeMessage 1 (encodeMetadata env apiKey version)
      ++ flat_map (fun m => encodeMessage 2 (chatEntry ChatMessageSource m))
                  (filter (fun m => negb (isSystem m)) messages)
      ++ (if truthy (systemPromptAfter messages [])
          then encodeString 3 (systemPromptAfter messages []) else [])
      ++ encodeVarintField 4 modelEnum.
Proof.
  unfold chatRequest. rewrite addMessage_fold.
  destruct (truthy (systemPromptAfter messages []));
    rewrite <- ?app_assoc; reflexivity.
Qed.

Lemma systemPromptAfter_empty (messages : list ChatMessage) :
  (forall m, In m messages -> role m = system -> content m = []) ->
  systemPromptAfter messages [] = [].
Proof.
  unfold systemPromptAfter.
  induction messages as [| m ms IH]; intros Hall; [reflexivity |].
  cbn [fold_left]. unfold isSystem at 2.
  destruct (role m) eqn:Er;
    try (apply IH; intros m' Hin; apply Hall; right; exact Hin).
  rewrite (Hall m (or_introl eq_refl) Er).
  apply IH. intros m' Hin. apply Hall. right. exact Hin.
Qed.

Lemma filter_twice {A} (p : A -> bool) (l : list A) :
  filter p (filter p l) = filter p l.
Proof.
  induction l as [| x l IH]; [reflexivity |].
  cbn [filter]. destruct (p x) eqn:E; [| exact IH].
  cbn [filter]. rewrite E, IH. reflexivity.
Qed.

(** Reading the chat entries one after the other. *)
Lemma decodeFields_chatEntries (ms : list ChatMessage) (rest : Buffer) :
  decodeFields
    (Buffer_from
       (flat_map (fun m => encodeMessage 2 (chatEntry ChatMessageSource m))
                 ms) ++ rest)
  = option_map
      (app (map (fun m =>
                   (2, Bytes (Buffer_from (chatEntry ChatMessageSource m))))
                ms))
      (decodeFields rest).
Proof.
  induction ms as [| m ms IH].
  - simpl. destruct (decodeFields rest); reflexivity.
  - cbn [flat_map map]. rewrite Buffer_from_app, <- app_assoc.
    rewrite Buffer_from_encodeMessage by lia.
    rewrite decodeFields_encodeMessage by lia. rewrite IH.
    destruct (decodeFields rest); reflexivity.
Qed.

End RequestFacts.

(** C6.  For every payload, the frame is one zero byte (no compression),
    then four bytes that spell the byte length of the payload big end
    first, then the payload itself; and this is the frame
    [buildChatRequest] returns for the payload it has built.  A JavaScript
    array holds fewer than 2^32 entries, which bounds the payload. *)
Theorem request_frame_layout (payload : Buffer) :
  len payload < 2 ^ 32 ->
  exists lengthField,
    grpcFrame payload = inr (0 :: lengthField ++ payload)
    /\ length lengthField = 4%nat
    /\ Forall isByte lengthField
    /\ readUInt32BE lengthField = Some (len payload)
    /\ forall ChatMessageSource env apiKey version modelEnum messages,
         Buffer_from
           (chatRequest ChatMessageSource env apiKey version modelEnum
                        messages)
         = payload ->
         buildChatRequest ChatMessageSource env apiKey version modelEnum
                          messages
         = inr (0 :: lengthField ++ payload).
Proof.
  intros Hlen.
  destruct (writeUInt32BE_in_range (len payload)) as (lf & Hw & Hb & Hr);
    [split; [apply len_nonneg | exact Hlen] |].
  assert (Hframe : grpcFrame payload = inr (0 :: lf ++ payload))
    by (unfold grpcFrame; rewrite Hw; reflexivity).
  exists lf. repeat split; try assumption.
  - unfold readUInt32BE in Hr.
    destruct lf as [| ? [| ? [| ? [| ? [| ? ?]]]]]; try discriminate.
    reflexivity.
  - intros src env apiKey version modelEnum messages Hpayload.
    unfold buildChatRequest. rewrite Hpayload. exact Hframe.
Qed.

Lemma request_frame_layout_witness :
  exists lengthField,
    grpcFrame [8; 1; 26; 1; 85] = inr (0 :: lengthField ++ [8; 1; 26; 1; 85])
    /\ length lengthField = 4%nat
    /\ Forall isByte lengthField
    /\ readUInt32BE lengthField = Some 5
    /\ forall ChatMessageSource env apiKey version modelEnum messages,
         Buffer_from
           (chatRequest ChatMessageSource env apiKey version modelEnum
                        messages)
         = [8; 1; 26; 1; 85] ->
         buildChatRequest ChatMessageSource env apiKey version modelEnum
                          messages
         = inr (0 :: lengthField ++ [8; 1; 26; 1; 85]).
Proof.
  apply (request_frame_layout [8; 1; 26; 1; 85]).
  vm_compute. reflexivity.
Defined.

(** The request array for the messages [{system, "S"}, {user, "U"}],
    read back field by field. *)
Lemma system_and_user_payload
    (ChatMessageSource : ChatMessageSourceT) (env : Env)
    (apiKey version : jsstring) (modelEnum : Z) :
  0 <= USER ChatMessageSource -> 0 <= modelEnum ->
  exists fields entry,
    decodeFields
      (Buffer_from
         (chatRequest ChatMessageSource env apiKey version modelEnum
            [ {| role := system; content := lit "S" |};
              {| role := user; content := lit "U" |} ]))
    = Some fields
    /\ fieldsNumbered 3 fields = [Bytes (Buffer_from_utf8 (lit "S"))]
    /\ fieldsNumbered 2 fields = [Bytes entry]
    /\ decodeFields entry
       = Some [(1, Varint (USER ChatMessageSource));
               (3, Bytes (Buffer_from_utf8 (lit "U")))].
Proof.
  intros Huser Hmodel.
  exists [(1, Bytes (Buffer_from (encodeMetadata env apiKey version)));
          (2, Bytes (encodeVarintField 1 (USER ChatMessageSource)
                       ++ encodeMessage 3 (Buffer_from_utf8 (lit "U"))));
          (3, Bytes (Buffer_from_utf8 (lit "S")));
          (4, Varint modelEnum)].
  eexists. split; [| split; [reflexivity | split; [reflexivity |]]].
  - rewrite chatRequest_shape.
    change (systemPromptAfter _ []) with (lit "S").
    change (truthy (lit "S")) with true.
    cbn [filter isSystem role negb flat_map].
    rewrite app_nil_r.
    change (encodeString 3 (lit "S"))
      with (encodeMessage 3 (Buffer_from_utf8 (lit "S"))).
    unfold chatEntry, encodeFormattedChatMessage.
    cbn [role content roleToSource truthy].
    change (encodeString 3 (lit "U"))
      with (encodeMessage 3 (Buffer_from_utf8 (lit "U"))).
    rewrite !Buffer_from_app, !Buffer_from_encodeMessage by lia.
    rewrite Buffer_from_app, !Buffer_from_encodeMessage by lia.
    rewrite !Buffer_from_encodeVarintField by lia.
    change (Buffer_from (Buffer_from_utf8 (lit "U")))
      with (Buffer_from_utf8 (lit "U")).
    change (Buffer_from (Buffer_from_utf8 (lit "S")))
      with (Buffer_from_utf8 (lit "S")).
    rewrite !decodeFields_encodeMessage by lia.
    rewrite <- (app_nil_r (encodeVarintField 4 modelEnum)).
    rewrite decodeFields_encodeVarintField by lia.
    reflexivity.
  - rewrite decodeFields_encodeVarintField by lia.
    rewrite <- (app_nil_r (encodeMessage 3 _)).
    rewrite decodeFields_encodeMessage by lia.
    reflexivity.
Qed.

(** The frame [buildChatRequest] returns for a request array that fits
    a JavaScript array: five bytes, then the array as bytes. *)
Lemma buildChatRequest_returns
    (ChatMessageSource : ChatMessageSourceT) (env : Env)
    (apiKey version : jsstring) (modelEnum : Z)
    (messages : list ChatMessage) :
  len (Buffer_from (chatRequest ChatMessageSource env apiKey version
                                modelEnum messages)) < 2 ^ 32 ->
  exists frame,
    buildChatRequest ChatMessageSource env apiKey version modelEnum messages
    = inr frame
    /\ skipn 5 frame
       = Buffer_from (chatRequest ChatMessageSource env apiKey version
                                  modelEnum messages).
Proof.
  intros Hlen. unfold buildChatRequest, grpcFrame.
  destruct (writeUInt32BE_in_range _ (conj (len_nonneg _) Hlen))
    as (lf & Hw & _ & Hr).
  rewrite Hw. eexists. split; [reflexivity |].
  unfold readUInt32BE in Hr.
  destruct lf as [| ? [| ? [| ? [| ? [| ? ?]]]]]; try discriminate.
  reflexivity.
Qed.

(** C3.  For the messages [{system, "S"}, {user, "U"}], [buildChatRequest]
    returns a frame whose payload, the bytes behind the five of the frame
    header, reads as four fields.  Exactly one is numbered 3 (the system
    prompt override) and its content is "S"; exactly one is numbered 2 (a
    chat entry), and it reads as the role of a user followed by the
    content "U".  (The request array holds fewer than 2^32 entries, as
    every JavaScript array does.) *)
Theorem system_and_user_message_fields
    (ChatMessageSource : ChatMessageSourceT) (env : Env)
    (apiKey version : jsstring) (modelEnum : Z) :
  0 <= USER ChatMessageSource -> 0 <= modelEnum ->
  len (Buffer_from
         (chatRequest ChatMessageSource env apiKey version modelEnum
            [ {| role := system; content := lit "S" |};
              {| role := user; content := lit "U" |} ])) < 2 ^ 32 ->
  exists frame fields entry,
    buildChatRequest ChatMessageSource env apiKey version modelEnum
      [ {| role := system; content := lit "S" |};
        {| role := user; content := lit "U" |} ]
    = inr frame
    /\ decodeFields (skipn 5 frame) = Some fields
    /\ fieldsNumbered 3 fields = [Bytes (Buffer_from_utf8 (lit "S"))]
    /\ fieldsNumbered 2 fields = [Bytes entry]
    /\ decodeFields entry
       = Some [(1, Varint (USER ChatMessageSource));
               (3, Bytes (Buffer_from_utf8 (lit "U")))].
Proof.
  intros Huser Hmodel Hlen.
  destruct (system_and_user_payload ChatMessageSource env apiKey version
              modelEnum Huser Hmodel)
    as (fields & entry & Hread & H3 & H2 & Hentry).
  destruct (buildChatRequest_returns _ _ _ _ _ _ Hlen)
    as (frame & Hframe & Hpayload).
  exists frame, fields, entry.
  split; [exact Hframe |]. rewrite Hpayload. auto.
Qed.

Lemma system_and_user_message_fields_witness :
  exists frame fields entry,
    buildChatRequest
      {| USER := 1; ASSISTANT := 2; SYSTEM := 3; TOOL := 4 |}
      {| Date_now := 1700000000000;
         randomUUID := lit "123e4567-e89b-42d3-a456-426614174000" |}
      (lit "sk-ws-01") (lit "1.48.2") 109
      [ {| role := system; content := lit "S" |};
        {| role := user; content := lit "U" |} ]
    = inr frame
    /\ decodeFields (skipn 5 frame) = Some fields
    /\ fieldsNumbered 3 fields = [Bytes (Buffer_from_utf8 (lit "S"))]
    /\ fieldsNumbered 2 fields = [Bytes entry]
    /\ decodeFields entry
       = Some [(1, Varint 1); (3, Bytes (Buffer_from_utf8 (lit "U")))].
Proof.
  apply (system_and_user_message_fields
           {| USER := 1; ASSISTANT := 2; SYSTEM := 3; TOOL := 4 |}
           {| Date_now := 1700000000000;
              randomUUID := lit "123e4567-e89b-42d3-a456-426614174000" |}
           (lit "sk-ws-01") (lit "1.48.2") 109);
    [simpl; lia | lia | vm_compute; reflexivity].
Defined.

(** C10.  When every system message of the list has the empty string as
    content, the request holds no field 3 and its chat entries are those
    of the other messages, in order: the system message leaves no trace
    in the request. *)
Theorem empty_system_message_dropped
    (ChatMessageSource : ChatMessageSourceT) (env : Env)
    (apiKey version : jsstring) (modelEnum : Z)
    (messages : list ChatMessage) :
  0 <= modelEnum ->
  (forall m, In m messages -> role m = system -> content m = []) ->
  exists fields,
    decodeFields
      (Buffer_from
         (chatRequest ChatMessageSource env apiKey version modelEnum
                      messages))
    = Some fields
    /\ fieldsNumbered 3 fields = []
    /\ fieldsNumbered 2 fields
       = map (fun m => Bytes (Buffer_from (chatEntry ChatMessageSource m)))
             (filter (fun m => negb (isSystem m)) messages)
    /\ chatRequest ChatMessageSource env apiKey version modelEnum messages
       = chatRequest ChatMessageSource env apiKey version modelEnum
           (filter (fun m => negb (isSystem m)) messages).
Proof.
  intros Hmodel Hempty.
  set (others := filter (fun m => negb (isSystem m)) messages).
  exists ((1, Bytes (Buffer_from (encodeMetadata env apiKey version)))
            :: map (fun m =>
                      (2, Bytes (Buffer_from (chatEntry ChatMessageSource m))))
                   others
            ++ [(4, Varint modelEnum)]).
  split; [| split; [| split]].
  - rewrite chatRequest_shape, (systemPromptAfter_empty _ Hempty).
    cbn [truthy app]. fold others.
    rewrite Buffer_from_app, Buffer_from_encodeMessage by lia.
    rewrite decodeFields_encodeMessage by lia.
    rewrite Buffer_from_app, decodeFields_chatEntries.
    rewrite Buffer_from_encodeVarintField by lia.
    rewrite <- (app_nil_r (encodeVarintField 4 modelEnum)).
    rewrite decodeFields_encodeVarintField by lia.
    reflexivity.
  - unfold fieldsNumbered. cbn [filter fst Z.eqb Pos.eqb].
    rewrite filter_app. cbn [filter fst Z.eqb Pos.eqb app].
    rewrite app_nil_r.
    induction others as [| m ms IH]; [reflexivity | exact IH].
  - unfold fieldsNumbered. cbn [filter fst Z.eqb Pos.eqb].
    rewrite filter_app. cbn [filter fst Z.eqb Pos.eqb app].
    rewrite app_nil_r.
    induction others as [| m ms IH]; [reflexivity |].
    cbn [map filter fst Z.eqb Pos.eqb snd]. f_equal. exact IH.
  - rewrite !chatRequest_shape.
    assert (Hothers : forall m, In m others -> role m = system ->
                                content m = []).
    { intros m Hin. apply Hempty. apply filter_In in Hin. tauto. }
    rewrite (systemPromptAfter_empty _ Hempty),
            (systemPromptAfter_empty _ Hothers).
    fold others. unfold others at 2. rewrite filter_twice. reflexivity.
Qed.

Lemma empty_system_message_dropped_witness :
  exists fields,
    decodeFields
      (Buffer_from
         (chatRequest
            {| USER := 1; ASSISTANT := 2; SYSTEM := 3; TOOL := 4 |}
            {| Date_now := 1700000000000;
               randomUUID := lit "123e4567-e89b-42d3-a456-426614174000" |}
            (lit "sk-ws-01") (lit "1.48.2") 109
            [ {| role := system; content := [] |};
              {| role := user; content := lit "U" |} ]))
    = Some fields
    /\ fieldsNumbered 3 fields = []
    /\ fieldsNumbered 2 fields
       = map (fun m =>
                Bytes (Buffer_from
                         (chatEntry
                            {| USER := 1; ASSISTANT := 2; SYSTEM := 3;
                               TOOL := 4 |} m)))
             (filter (fun m => negb (isSystem m))
                [ {| role := system; content := [] |};
                  {| role := user; content := lit "U" |} ])
    /\ chatRequest
         {| USER := 1; ASSISTANT := 2; SYSTEM := 3; TOOL := 4 |}
         {| Date_now := 1700000000000;
            randomUUID := lit "123e4567-e89b-42d3-a456-426614174000" |}
         (lit "sk-ws-01") (lit "1.48.2") 109
         [ {| role := system; content := [] |};
           {| role := user; content := lit "U" |} ]
       = chatRequest
           {| USER := 1; ASSISTANT := 2; SYSTEM := 3; TOOL := 4 |}
           {| Date_now := 1700000000000;
              randomUUID := lit "123e4567-e89b-42d3-a456-426614174000" |}
           (lit "sk-ws-01") (lit "1.48.2") 109
           (filter (fun m => negb (isSystem m))
              [ {| role := system; content := [] |};
                {| role := user; content := lit "U" |} ]).
Proof.
  apply (empty_system_message_dropped
           {| USER := 1; ASSISTANT := 2; SYSTEM := 3; TOOL := 4 |}
           {| Date_now := 1700000000000;
              randomUUID := lit "123e4567-e89b-42d3-a456-426614174000" |}
           (lit "sk-ws-01") (lit "1.48.2") 109
           [ {| role := system; content := [] |};
             {| role := user; content := lit "U" |} ]).
  - lia.
  - intros m [<- | [<- | []]]; simpl; [reflexivity | discriminate].
Defined.

(* ====================================================================== *)
(** * Properties of [streamChat] *)
(* ====================================================================== *)

Section PushFacts.
Import Push.

Lemma run_app (s : State) (os1 os2 : list occurrence) :
  run s (os1 ++ os2)
  = match run s os1 with
    | inr s' => run s' os2
    | inl e => inl e
    end.
Proof.
  revert s. induction os1 as [| o os1 IH]; intros s; [reflexivity |].
  cbn [app run]. destruct (step s o); [reflexivity | apply IH].
Qed.

(** A settled promise stays as it is. *)
Lemma step_keeps_settled (s s' : State) (o : occurrence) :
  settled s <> Pending -> step s o = inr s' -> settled s' = settled s.
Proof.
  intros Hs.
  assert (Hres : forall v, resolve v (settled s) = settled s)
    by (intros v; destruct (settled s); [contradiction | reflexivity ..]).
  assert (Hrej : forall e, reject e (settled s) = settled s)
    by (intros e; destruct (settled s); [contradiction | reflexivity ..]).
  destruct o as [[msg | | chunk | status message | | msg] |];
    cbn [step].
  - intros [= <-]. cbn. apply Hrej.
  - intros [= <-]. reflexivity.
  - destruct (requestOpen s); [| intros [= <-]; reflexivity].
    destruct (truthy _); intros [= <-]; reflexivity.
  - destruct (requestOpen s && statusNotZero status);
      [| intros [= <-]; reflexivity].
    destruct (grpcError status message); [discriminate |].
    intros [= <-]. cbn. apply Hrej.
  - destruct (requestOpen s); intros [= <-]; [cbn; apply Hres | reflexivity].
  - destruct (requestOpen s); intros [= <-]; [cbn; apply Hrej | reflexivity].
  - destruct (timer s); intros [= <-]; [cbn; apply Hres | reflexivity].
Qed.

Lemma run_keeps_settled (os : list occurrence) :
  forall s s', settled s <> Pending -> run s os = inr s' ->
               settled s' = settled s.
Proof.
  induction os as [| o os IH]; intros s s' Hs; cbn [run].
  - intros [= <-]. reflexivity.
  - destruct (step s o) as [| s1] eqn:E; [discriminate |].
    intros Hrun. pose proof (step_keeps_settled _ _ _ Hs E) as H1.
    rewrite <- H1. apply IH; [rewrite H1; exact Hs | exact Hrun].
Qed.

(** The 'data' listener on a run of chunks: the fragments are appended
    to [chunks] and handed to [onChunk], nothing else changes. *)
Lemma run_data (cs : list Buffer) :
  forall s, requestOpen s = true ->
    run s (map Emit (map ReqData cs))
    = inr {| body := body s;
             chunks := chunks s ++ fragments cs;
             settled := settled s;
             calls := calls s ++ map onChunk (fragments cs);
             closes := closes s;
             written := written s;
             timer := timer s |}.
Proof.
  induction cs as [| c cs IH]; intros s Hopen.
  - cbn. rewrite !app_nil_r. destruct s; reflexivity.
  - cbn [map run step]. rewrite Hopen. unfold fragments. cbn [map filter].
    destruct (truthy (extractTextFromChunk c)) eqn:Et.
    + rewrite IH by exact Hopen. cbn. unfold fragments.
      rewrite <- !app_assoc. reflexivity.
    + rewrite IH by exact Hopen. reflexivity.
Qed.

Lemma chunkCalls_onChunk (ts : list jsstring) :
  chunkCalls (map onChunk ts) = ts.
Proof.
  unfold chunkCalls. induction ts as [| t ts IH]; [reflexivity |].
  cbn [map flat_map app]. rewrite IH. reflexivity.
Qed.

Lemma chunkCalls_app (a b : list call) :
  chunkCalls (a ++ b) = chunkCalls a ++ chunkCalls b.
Proof. unfold chunkCalls. apply flat_map_app. Qed.

Lemma completeCalls_onChunk (ts : list jsstring) :
  completeCalls (map onChunk ts) = [].
Proof.
  unfold completeCalls. induction ts as [| t ts IH]; [reflexivity |].
  cbn [map flat_map app]. exact IH.
Qed.

Lemma completeCalls_app (a b : list call) :
  completeCalls (a ++ b) = completeCalls a ++ completeCalls b.
Proof. unfold completeCalls. apply flat_map_app. Qed.

(** The timer of [streamChat]: two minutes after the call, when the
    transport has delivered chunks but neither trailers nor an end nor an
    error, the connection is closed, [onComplete] gets the text gathered
    so far and the promise resolves with it. *)
Lemma streamChat_timeout_resolves (frame : Buffer) (cs : list Buffer) :
  timer (start frame) = Some 120000
  /\ exists s,
       run (start frame)
           (map Emit (ClientConnect :: map ReqData cs) ++ [TimerFires])
       = inr s
       /\ settled s = Resolved (join (fragments cs))
       /\ completeCalls (calls s) = [join (fragments cs)]
       /\ closes s = 1%nat.
Proof.
  split; [reflexivity |].
  rewrite run_app. cbn [map run step]. rewrite run_data by reflexivity.
  cbn. eexists. split; [reflexivity |]. cbn.
  rewrite completeCalls_app, completeCalls_onChunk. auto.
Qed.

(** The timer is never cleared: when the stream has ended before it
    fires, [onComplete] is called a second time. *)
Lemma timer_after_end_repeats_onComplete (frame : Buffer) :
  exists s,
    run (start frame) (helloWorld ++ [TimerFires]) = inr s
    /\ completeCalls (calls s) = [lit "Helloworld"; lit "Helloworld"].
Proof. eexists. split; vm_compute; reflexivity. Qed.

(** A trailer message that is not valid percent-encoding makes
    [decodeURIComponent] throw inside the 'trailers' listener: the
    exception is not caught and the promise is not settled by it. *)
Lemma malformed_trailer_message_throws (frame : Buffer) :
  run (start frame)
      (map Emit [ClientConnect;
                 ReqTrailers (Some (lit "13")) (Some (lit "100%"))])
  = inl URIError.
Proof. reflexivity. Qed.

End PushFacts.

(** C1 as stated fails: for the chunks "Hel", "lo", " world", trailer
    status 0 and the end of the stream, the promise of [streamChat] does
    not resolve with "Hello world" and [onComplete] is not called with
    it. *)
Lemma hello_world_is_not_passed_through :
  ~ exists s,
      Push.run (Push.start []) Push.helloWorld = inr s
      /\ Push.settled s = Push.Resolved (lit "Hello world")
      /\ Push.completeCalls (Push.calls s) = [lit "Hello world"].
Proof.
  intros (s & Hrun & Hres & _).
  vm_compute in Hrun. injection Hrun as <-.
  vm_compute in Hres. discriminate Hres.
Qed.

(** C1, amended.  For the chunks "Hel", "lo", " world", trailer status 0
    and the end of the stream, the promise of [streamChat] resolves with
    "Helloworld": the concatenation, in order, of the texts the decoder
    extracts, and the decoder trims each chunk.  When the stream ends,
    [onComplete] has been called once, with that string, after the three
    calls of [onChunk]. *)
Theorem hello_world_resolves_with_trimmed_chunks (frame : Buffer) :
  exists s,
    Push.run (Push.start frame) Push.helloWorld = inr s
    /\ Push.settled s = Push.Resolved (lit "Helloworld")
    /\ Push.calls s
       = [Push.onChunk (lit "Hel"); Push.onChunk (lit "lo");
          Push.onChunk (lit "world"); Push.onComplete (lit "Helloworld")]
    /\ lit "Helloworld"
       = join (map extractTextFromChunk
                   [Buffer_from_utf8 (lit "Hel"); Buffer_from_utf8 (lit "lo");
                    Buffer_from_utf8 (lit " world")]).
Proof.
  eexists. split; [vm_compute; reflexivity |].
  repeat split; vm_compute; reflexivity.
Qed.

(* ====================================================================== *)
(** * Properties of [streamChatGenerator] *)
(* ====================================================================== *)

Section LoopFacts.
Import Pull.

(** The three ways a turn of the loop goes. *)
Lemma loop_yield (g : State) (t : jsstring) (q : list jsstring) :
  chunkQueue g = t :: q ->
  loop g
  = ({| chunkQueue := q; done := done g; error_ := error_ g;
        resolveWait := false; woken := false; finished := false;
        closes := closes g; written := written g |}, Yield t).
Proof.
  intros Hq. unfold loop. rewrite Hq.
  replace (0 <? len (t :: q)) with true
    by (symmetry; apply Z.ltb_lt; unfold len; cbn [length]; lia).
  rewrite orb_true_r. reflexivity.
Qed.

Lemma loop_await (g : State) :
  chunkQueue g = [] -> done g = false ->
  loop g
  = ({| chunkQueue := []; done := false; error_ := error_ g;
        resolveWait := true; woken := false; finished := false;
        closes := closes g; written := written g |}, Await).
Proof. intros Hq Hd. unfold loop. rewrite Hq, Hd. reflexivity. Qed.

Lemma loop_end (g : State) :
  chunkQueue g = [] -> done g = true ->
  loop g
  = ({| chunkQueue := []; done := true; error_ := error_ g;
        resolveWait := false; woken := false; finished := true;
        closes := closes g; written := written g |},
     match error_ g with Some e => Throw e | None => Return end).
Proof. intros Hq Hd. unfold loop. rewrite Hq, Hd. reflexivity. Qed.

End LoopFacts.

(** One turn of the loop, by cases on the queue and on [done]: the goal
    is split into the body ending (with and without an error), the body
    waiting, and the body yielding. *)
Ltac turn g :=
  let t := fresh "t" in
  let q := fresh "q" in
  let Eq := fresh "Eq" in
  let Ed := fresh "Ed" in
  let Ee := fresh "Ee" in
  destruct (Pull.chunkQueue g) as [| t q] eqn:Eq;
  [ destruct (Pull.done g) eqn:Ed;
    [ rewrite (loop_end g Eq Ed); destruct (Pull.error_ g) eqn:Ee
    | rewrite (loop_await g Eq Ed) ]
  | rewrite (loop_yield g t q Eq) ];
  cbv beta iota.

Section PullFacts.
Import Pull.

Lemma pull_run_app (s : State) (es1 es2 : list event) :
  run s (es1 ++ es2)
  = match run s es1 with
    | inr s' => run s' es2
    | inl e => inl e
    end.
Proof.
  revert s. induction es1 as [| e es1 IH]; intros s; [reflexivity |].
  cbn [app run]. destruct (step s e); [reflexivity | apply IH].
Qed.

Lemma play_app (acts1 acts2 : list action) :
  forall ss,
    play ss (acts1 ++ acts2)
    = match play ss acts1 with
      | inr ss' => play ss' acts2
      | inl e => inl e
      end.
Proof.
  induction acts1 as [| a acts1 IH]; intros ss; [reflexivity |].
  cbn [app play]. destruct (act ss a); [reflexivity | apply IH].
Qed.

Lemma drive_S (n : nat) (g : State) (before : list outcome) :
  drive (S n) g before
  = match loop g with
    | (g', Yield text) => drive n g' (before ++ [Yield text])
    | (g', Await) => {| gen := g'; pending := S n; outcomes := before |}
    | (g', o) =>
        {| gen := g'; pending := 0;
           outcomes := before ++ o :: repeat Return n |}
    end.
Proof. reflexivity. Qed.

(** The body stops for one of two reasons: no call is left to work
    for, or it waits; so the session it leaves is coherent. *)
Lemma drive_coherent (n : nat) :
  forall g before,
    (n = 0%nat -> resolveWait g = false) -> coherent (drive n g before).
Proof.
  induction n as [| n IH]; intros g before H0.
  - unfold coherent. cbn. apply H0. reflexivity.
  - rewrite drive_S. turn g.
    + reflexivity.
    + reflexivity.
    + unfold coherent. cbn. repeat split. discriminate.
    + apply IH. intros _. reflexivity.
Qed.

Lemma step_resolveWait (g g' : State) (e : event) :
  step g e = inr g' -> resolveWait g' = resolveWait g.
Proof.
  destruct e as [msg | | chunk | status message | | msg]; cbn [step].
  - intros [= <-]. reflexivity.
  - intros [= <-]. reflexivity.
  - destruct (truthy _); intros [= <-]; reflexivity.
  - destruct (statusNotZero status); [| intros [= <-]; reflexivity].
    destruct (grpcError status message); [discriminate |].
    intros [= <-]. reflexivity.
  - intros [= <-]. reflexivity.
  - intros [= <-]. reflexivity.
Qed.

(** No listener ends the generator. *)
Lemma step_finished (g g' : State) (e : event) :
  step g e = inr g' -> finished g' = finished g.
Proof.
  destruct e as [msg | | chunk | status message | | msg]; cbn [step].
  - intros [= <-]. reflexivity.
  - intros [= <-]. reflexivity.
  - destruct (truthy _); intros [= <-]; reflexivity.
  - destruct (statusNotZero status); [| intros [= <-]; reflexivity].
    destruct (grpcError status message); [discriminate |].
    intros [= <-]. reflexivity.
  - intros [= <-]. reflexivity.
  - intros [= <-]. reflexivity.
Qed.

(** Every listener that sets [done] calls [resolveWait]. *)
Lemma step_woken (g g' : State) (e : event) :
  resolveWait g = true ->
  (done g = true -> woken g = true) ->
  step g e = inr g' ->
  done g' = true -> woken g' = true.
Proof.
  intros Hw Hk.
  destruct e as [msg | | chunk | status message | | msg]; cbn [step].
  - intros [= <-] _. cbn. rewrite Hw. reflexivity.
  - intros [= <-]. exact Hk.
  - destruct (truthy _); intros [= <-]; [| exact Hk].
    intros _. cbn. rewrite Hw. reflexivity.
  - destruct (statusNotZero status); [| intros [= <-]; exact Hk].
    destruct (grpcError status message); [discriminate |].
    intros [= <-]. exact Hk.
  - intros [= <-] _. cbn. rewrite Hw. reflexivity.
  - intros [= <-] _. cbn. rewrite Hw. reflexivity.
Qed.

Lemma act_coherent (ss ss' : Session) (a : action) :
  coherent ss -> act ss a = inr ss' -> coherent ss'.
Proof.
  intros Hc. destruct a as [e | |]; cbn [act].
  - destruct (step (gen ss) e) as [| g] eqn:Es; [discriminate |].
    intros [= <-]. unfold coherent in *. cbn.
    rewrite (step_resolveWait _ _ _ Es), (step_finished _ _ _ Es).
    destruct (pending ss); [exact Hc |].
    destruct Hc as (Hw & Hf & Hk).
    split; [exact Hw |]. split; [exact Hf |].
    exact (step_woken _ _ _ Hw Hk Es).
  - destruct (finished (gen ss)); [intros [= <-]; exact Hc |].
    destruct (pending ss) as [| n] eqn:Ep; intros [= <-].
    + apply (drive_coherent 1). discriminate.
    + unfold coherent in *. rewrite Ep in Hc. exact Hc.
  - destruct (resolveWait (gen ss) && woken (gen ss));
      intros [= <-]; [| exact Hc].
    apply drive_coherent. intros Hp. unfold coherent in Hc.
    rewrite Hp in Hc. exact Hc.
Qed.

Lemma play_coherent (acts : list action) :
  forall ss ss', coherent ss -> play ss acts = inr ss' -> coherent ss'.
Proof.
  induction acts as [| a acts IH]; intros ss ss' Hc; cbn [play].
  - intros [= <-]. exact Hc.
  - destruct (act ss a) as [| ss1] eqn:Ea; [discriminate |].
    apply IH. exact (act_coherent _ _ _ Hc Ea).
Qed.

(** Calls of [next()] on a finished generator. *)
Lemma play_finished (k : nat) :
  forall ss,
    finished (gen ss) = true ->
    play ss (repeat CallNext k)
    = inr {| gen := gen ss; pending := pending ss;
             outcomes := outcomes ss ++ repeat Return k |}.
Proof.
  induction k as [| k IH]; intros ss Hf; cbn [repeat play act].
  - rewrite app_nil_r. destruct ss; reflexivity.
  - rewrite Hf, IH by exact Hf. cbn. rewrite <- app_assoc. reflexivity.
Qed.

(** Calls of [next()], one after the other, on a generator whose stream
    is over: the queue, in order, then the end of the body. *)
Lemma calls_after_the_end (q : list jsstring) :
  forall g before k,
    chunkQueue g = q -> done g = true -> finished g = false ->
    exists g',
      play {| gen := g; pending := 0; outcomes := before |}
           (repeat CallNext (S (length q) + k))
      = inr {| gen := g'; pending := 0;
               outcomes := before ++ map Yield q
                           ++ match error_ g with
                              | Some e => Throw e
                              | None => Return
                              end :: repeat Return k |}
      /\ finished g' = true.
Proof.
  induction q as [| t q IH]; intros g before k Hq Hd Hf.
  - change (repeat CallNext (S (length (@nil jsstring)) + k))
      with (CallNext :: repeat CallNext k).
    cbn [play act gen pending outcomes]. rewrite Hf, drive_S.
    rewrite (loop_end g Hq Hd).
    destruct (error_ g); cbv beta iota;
      (rewrite play_finished by reflexivity);
      cbn [gen pending outcomes repeat map app];
      eexists; (split; [rewrite <- app_assoc; reflexivity | reflexivity]).
  - change (repeat CallNext (S (length (t :: q)) + k))
      with (CallNext :: repeat CallNext (S (length q) + k)).
    cbn [play act gen pending outcomes]. rewrite Hf, drive_S.
    rewrite (loop_yield g t q Hq). cbv beta iota. cbn [drive].
    match goal with
    | |- context [play {| gen := ?g1; pending := 0; outcomes := ?b1 |} _] =>
        destruct (IH g1 b1 k eq_refl Hd eq_refl) as (g' & Hplay & Hfin)
    end.
    exists g'. split; [| exact Hfin].
    rewrite Hplay. cbn [map app error_]. rewrite <- app_assoc. reflexivity.
Qed.

(** The body resumed for [n] calls when the stream is over, with enough
    in the queue for all of them. *)
Lemma drive_done_short (n : nat) :
  forall g before,
    done g = true -> finished g = false ->
    (n <= length (chunkQueue g))%nat ->
    exists g',
      drive n g before
      = {| gen := g'; pending := 0;
           outcomes := before ++ map Yield (firstn n (chunkQueue g)) |}
      /\ chunkQueue g' = skipn n (chunkQueue g)
      /\ done g' = true /\ finished g' = false /\ error_ g' = error_ g.
Proof.
  induction n as [| n IH]; intros g before Hd Hf Hn.
  - exists g. cbn. rewrite app_nil_r. auto.
  - destruct (chunkQueue g) as [| t q] eqn:Eq; [cbn in Hn; lia |].
    rewrite drive_S, (loop_yield g t q Eq). cbv beta iota.
    match goal with
    | |- context [drive n ?g1 ?b1] =>
        destruct (IH g1 b1 Hd eq_refl) as (g' & Hdrive & H1 & H2 & H3 & H4);
        [cbn in Hn |- *; lia |]
    end.
    exists g'. rewrite Hdrive. cbn in *.
    rewrite <- app_assoc. auto.
Qed.

(** The same with more calls than fragments: the body ends. *)
Lemma drive_done_long (n : nat) :
  forall g before,
    done g = true ->
    (length (chunkQueue g) < n)%nat ->
    exists g',
      drive n g before
      = {| gen := g'; pending := 0;
           outcomes := before ++ map Yield (chunkQueue g)
                       ++ match error_ g with
                          | Some e => Throw e
                          | None => Return
                          end
                          :: repeat Return (n - length (chunkQueue g) - 1) |}
      /\ finished g' = true.
Proof.
  induction n as [| n IH]; intros g before Hd Hn; [lia |].
  rewrite drive_S.
  destruct (chunkQueue g) as [| t q] eqn:Eq.
  - rewrite (loop_end g Eq Hd).
    destruct (error_ g); cbv beta iota; cbn [length Nat.sub map app];
      rewrite Nat.sub_0_r; eexists; split; reflexivity.
  - rewrite (loop_yield g t q Eq). cbv beta iota.
    match goal with
    | |- context [drive n ?g1 ?b1] =>
        destruct (IH g1 b1 Hd) as (g' & Hdrive & Hfin);
        [cbn in Hn |- *; lia |]
    end.
    exists g'. rewrite Hdrive. cbn [chunkQueue error_ length Nat.sub map app].
    rewrite <- app_assoc. auto.
Qed.

(** When the body ends in a run, that run has yielded the whole queue
    first, and the stream was over. *)
Lemma drive_finishes (n : nat) :
  forall g before,
    finished g = false ->
    finished (gen (drive n g before)) = true ->
    done g = true
    /\ exists k,
         outcomes (drive n g before)
         = before ++ map Yield (chunkQueue g)
           ++ match error_ g with
              | Some e => Throw e
              | None => Return
              end :: repeat Return k.
Proof.
  induction n as [| n IH]; intros g before Hf; [cbn; congruence |].
  rewrite drive_S. turn g.
  - intros _. split; [reflexivity |]. exists n. reflexivity.
  - intros _. split; [reflexivity |]. exists n. reflexivity.
  - cbn. discriminate.
  - intros Hfin. pose proof Hfin as Hrun.
    apply IH in Hrun; [| reflexivity]. destruct Hrun as (Hd & k & Ho).
    split; [exact Hd |]. exists k. rewrite Ho. cbn.
    rewrite <- app_assoc. reflexivity.
Qed.

(** The consumer that goes on to the end, from any coherent session
    whose stream is over. *)
Lemma drain_outcomes (ss : Session) :
  coherent ss -> done (gen ss) = true -> finished (gen ss) = false ->
  exists ss',
    play ss (drain ss) = inr ss'
    /\ finished (gen ss') = true
    /\ outcomes ss'
       = outcomes ss ++ map Yield (chunkQueue (gen ss))
         ++ match error_ (gen ss) with
            | Some e => Throw e
            | None => Return
            end :: repeat Return (pending ss).
Proof.
  destruct ss as [g p out]. unfold drain, coherent.
  cbn [gen pending outcomes]. intros Hc Hd Hf.
  change (play {| gen := g; pending := p; outcomes := out |}
               (Resume :: repeat CallNext (S (length (chunkQueue g)))))
    with (match act {| gen := g; pending := p; outcomes := out |} Resume with
          | inr ss' => play ss' (repeat CallNext (S (length (chunkQueue g))))
          | inl x => inl x
          end).
  cbn [act gen pending outcomes].
  destruct p as [| p].
  - rewrite Hc. cbn [andb].
    destruct (calls_after_the_end (chunkQueue g) g out 0 eq_refl Hd Hf)
      as (g' & Hplay & Hfin).
    rewrite Nat.add_0_r in Hplay. rewrite Hplay.
    eexists. split; [reflexivity |]. split; [exact Hfin | reflexivity].
  - destruct Hc as (Hw & _ & Hk). rewrite Hw, (Hk Hd). cbn [andb].
    destruct (Nat.le_gt_cases (S p) (length (chunkQueue g))) as [Hle | Hgt].
    + destruct (drive_done_short (S p) g out Hd Hf Hle)
        as (g1 & Hdrive & Hq1 & Hd1 & Hf1 & He1).
      rewrite Hdrive.
      destruct (calls_after_the_end (chunkQueue g1) g1
                  (out ++ map Yield (firstn (S p) (chunkQueue g)))
                  (S p) eq_refl Hd1 Hf1)
        as (g' & Hplay & Hfin).
      replace (S (length (chunkQueue g1)) + S p)%nat
        with (S (length (chunkQueue g))) in Hplay
        by (rewrite Hq1, length_skipn; lia).
      rewrite Hplay. eexists. split; [reflexivity |].
      split; [exact Hfin |]. cbn [outcomes].
      rewrite He1, Hq1.
      rewrite <- (firstn_skipn (S p) (chunkQueue g)) at 3.
      rewrite map_app, <- !app_assoc. reflexivity.
    + destruct (drive_done_long (S p) g out Hd Hgt) as (g1 & Hdrive & Hf1).
      rewrite Hdrive, play_finished by exact Hf1.
      eexists. split; [reflexivity |]. split; [exact Hf1 |].
      cbn [outcomes gen pending].
      rewrite <- !app_assoc. cbn [app]. do 3 f_equal.
      rewrite <- repeat_app. f_equal. lia.
Qed.

End PullFacts.

Section TerminalError.
Import Pull.

Lemma step_error (g g' : State) (e : event) :
  step g e = inr g' ->
  error_ g' = match failureOf e with Some x => Some x | None => error_ g end.
Proof.
  destruct e as [msg | | chunk | status message | | msg];
    cbn [step failureOf].
  - intros [= <-]. reflexivity.
  - intros [= <-]. reflexivity.
  - destruct (truthy _); intros [= <-]; reflexivity.
  - destruct (statusNotZero status); [| intros [= <-]; reflexivity].
    destruct (grpcError status message); [discriminate |].
    intros [= <-]. reflexivity.
  - intros [= <-]. reflexivity.
  - intros [= <-]. reflexivity.
Qed.

(** The body reads [error], it never writes it. *)
Lemma drive_error (n : nat) :
  forall g before, error_ (gen (drive n g before)) = error_ g.
Proof.
  induction n as [| n IH]; intros g before; [reflexivity |].
  rewrite drive_S. turn g; try reflexivity; try (symmetry; assumption).
  rewrite IH. reflexivity.
Qed.

Lemma act_error (ss ss' : Session) (a : action) :
  act ss a = inr ss' ->
  error_ (gen ss')
  = match a with
    | Happen e =>
        match failureOf e with
        | Some x => Some x
        | None => error_ (gen ss)
        end
    | _ => error_ (gen ss)
    end.
Proof.
  destruct a as [e | |]; cbn [act].
  - destruct (step (gen ss) e) as [| g] eqn:Es; [discriminate |].
    apply step_error in Es. intros [= <-]. exact Es.
  - destruct (finished (gen ss)); [intros [= <-]; reflexivity |].
    destruct (pending ss); intros [= <-];
      [apply (drive_error 1) | reflexivity].
  - destruct (resolveWait (gen ss) && woken (gen ss)); intros [= <-];
      [apply drive_error | reflexivity].
Qed.

(** [error] holds the error of the latest failing event. *)
Lemma play_error (acts : list action) :
  forall ss ss',
    play ss acts = inr ss' ->
    error_ (gen ss')
    = match lastFailure acts with
      | Some e => Some e
      | None => error_ (gen ss)
      end.
Proof.
  induction acts as [| a acts IH]; intros ss ss'; cbn [play lastFailure].
  - intros [= <-]. reflexivity.
  - destruct (act ss a) as [| ss1] eqn:Ea; [discriminate |].
    intros Hplay. rewrite (IH _ _ Hplay).
    destruct (lastFailure acts); [reflexivity |].
    rewrite (act_error _ _ _ Ea).
    destruct a as [e | |]; [destruct (failureOf e) | |]; reflexivity.
Qed.

(** As long as the stream is not over the body yields or waits. *)
Lemma drive_goes_on (n : nat) :
  forall g before,
    done g = false -> finished g = false ->
    forallb (fun o => negb (settles o)) before = true ->
    done (gen (drive n g before)) = false
    /\ finished (gen (drive n g before)) = false
    /\ closes (gen (drive n g before)) = closes g
    /\ forallb (fun o => negb (settles o)) (outcomes (drive n g before))
       = true.
Proof.
  induction n as [| n IH]; intros g before Hd Hf Ho; [cbn; auto |].
  rewrite drive_S. turn g; try congruence.
  - cbn. auto.
  - destruct (IH {| chunkQueue := q; done := done g; error_ := error_ g;
                    resolveWait := false; woken := false; finished := false;
                    closes := closes g; written := written g |}
                 (before ++ [Yield t]) Hd eq_refl) as (H1 & H2 & H3 & H4).
    { rewrite forallb_app, Ho. reflexivity. }
    auto.
Qed.

(** Without an end or an error of the transport the generator goes on
    for ever: no listener sets [done], so every turn of the loop yields
    or waits. *)
Lemma act_goes_on (ss ss' : Session) (a : action) :
  endsStream a = false -> act ss a = inr ss' ->
  done (gen ss) = false -> finished (gen ss) = false ->
  forallb (fun o => negb (settles o)) (outcomes ss) = true ->
  done (gen ss') = false /\ finished (gen ss') = false
  /\ closes (gen ss') = closes (gen ss)
  /\ forallb (fun o => negb (settles o)) (outcomes ss') = true.
Proof.
  intros Hends Hact Hd Hf Ho.
  destruct a as [e | |]; cbn [act] in Hact.
  - destruct (step (gen ss) e) as [| g] eqn:Es; [discriminate |].
    injection Hact as <-. cbn [gen outcomes].
    destruct e as [msg | | chunk | status message | | msg];
      try discriminate Hends; cbn [step] in Es.
    + injection Es as <-. auto.
    + destruct (truthy _); injection Es as <-; cbn; auto.
    + destruct (statusNotZero status); [| injection Es as <-; auto].
      destruct (grpcError status message); [discriminate |].
      injection Es as <-. cbn. auto.
  - rewrite Hf in Hact.
    destruct (pending ss); injection Hact as <-;
      [apply (drive_goes_on 1); assumption | cbn; auto].
  - destruct (resolveWait (gen ss) && woken (gen ss)); injection Hact as <-;
      [apply drive_goes_on; assumption | auto].
Qed.

Lemma play_goes_on (acts : list action) :
  forall ss ss',
    forallb (fun a => negb (endsStream a)) acts = true ->
    play ss acts = inr ss' ->
    done (gen ss) = false -> finished (gen ss) = false ->
    forallb (fun o => negb (settles o)) (outcomes ss) = true ->
    done (gen ss') = false /\ finished (gen ss') = false
    /\ closes (gen ss') = closes (gen ss)
    /\ forallb (fun o => negb (settles o)) (outcomes ss') = true.
Proof.
  induction acts as [| a acts IH]; intros ss ss' Hacts; cbn [play].
  - intros [= <-]. auto.
  - cbn [forallb] in Hacts. apply andb_true_iff in Hacts.
    destruct Hacts as [Ha Hrest]. apply negb_true_iff in Ha.
    destruct (act ss a) as [| ss1] eqn:Eact; [discriminate |].
    intros Hplay Hd Hf Ho.
    destruct (act_goes_on _ _ _ Ha Eact Hd Hf Ho) as (Hd1 & Hf1 & Hc1 & Ho1).
    rewrite <- Hc1. apply (IH _ _ Hrest Hplay); assumption.
Qed.

(** The action in which the generator ends: a call of [next()] or the
    continuation of the [await], never a listener. *)
Lemma act_finishes (ss ss' : Session) (a : action) :
  act ss a = inr ss' ->
  finished (gen ss) = false -> finished (gen ss') = true ->
  done (gen ss) = true
  /\ exists k,
       outcomes ss'
       = outcomes ss ++ map Yield (chunkQueue (gen ss))
         ++ match error_ (gen ss) with
            | Some e => Throw e
            | None => Return
            end :: repeat Return k.
Proof.
  intros Hact Hf Hfin. destruct a as [e | |]; cbn [act] in Hact.
  - destruct (step (gen ss) e) as [| g] eqn:Es; [discriminate |].
    injection Hact as <-. cbn in Hfin.
    rewrite (step_finished _ _ _ Es) in Hfin. congruence.
  - rewrite Hf in Hact.
    destruct (pending ss); injection Hact as <-;
      [apply (drive_finishes 1); assumption | cbn in Hfin; congruence].
  - destruct (resolveWait (gen ss) && woken (gen ss)); injection Hact as <-;
      [apply drive_finishes; assumption | congruence].
Qed.

Lemma jsstring_eqb_eq (a b : jsstring) : jsstring_eqb a b = true <-> a = b.
Proof.
  unfold jsstring_eqb. destruct (list_eq_dec Z.eq_dec a b); split;
    intros; congruence.
Qed.

Lemma statusNotZero_other (status : jsstring) :
  status <> lit "0" -> statusNotZero (Some status) = true.
Proof.
  intros Hs. unfold statusNotZero. apply negb_true_iff.
  destruct (jsstring_eqb status (lit "0")) eqn:E; [| reflexivity].
  apply jsstring_eqb_eq in E. contradiction.
Qed.

(** The error built for a non-zero status names the status and the
    decoded message. *)
Lemma grpcError_text (status message decoded : jsstring) :
  decodeURIComponent message = inr decoded ->
  exists text,
    grpcError (Some status) (Some message)
    = inr (WindsurfError text STREAM_ERROR None)
    /\ Contains status text /\ Contains decoded text.
Proof.
  intros Hd. unfold grpcError. destruct message as [| c m].
  - injection Hd as <-. eexists. split; [reflexivity |]. split.
    + exists (lit "gRPC error "), (lit ": " ++ lit "Unknown error").
      reflexivity.
    + eexists _, []. cbn [app]. rewrite app_nil_r. reflexivity.
  - rewrite Hd. eexists. split; [reflexivity |]. split.
    + exists (lit "gRPC error "), (lit ": " ++ decoded). reflexivity.
    + exists (lit "gRPC error " ++ status ++ lit ": "), [].
      rewrite app_nil_r, <- !app_assoc. reflexivity.
Qed.

End TerminalError.

(** C8.  When the model name is not in the lookup table, both entry
    points fail with [ModelNotFound] before the request is encoded and
    before [http2.connect] is called: the call makes no network action. *)
Theorem unknown_model_fails_before_any_io
    (table : list (jsstring * Z))
    (ChatMessageSource : ChatMessageSourceT) (env : Env)
    (credentials : WindsurfCredentials) (options : StreamChatOptions) :
  (forall code, ~ In (model options, code) table) ->
  Push.streamChat table ChatMessageSource env credentials options
  = ([], inl (ModelNotFound (model options)))
  /\ Pull.streamChatGenerator table ChatMessageSource env credentials options
     = ([], inl (ModelNotFound (model options))).
Proof.
  intros Habsent.
  assert (Hlookup : modelNameToEnum table (model options)
                    = inl (ModelNotFound (model options))).
  { unfold modelNameToEnum.
    destruct (find _ table) as [[name code] |] eqn:Efind; [| reflexivity].
    apply find_some in Efind. destruct Efind as [Hin Heq].
    apply jsstring_eqb_eq in Heq. cbn in Heq. subst name.
    exfalso. exact (Habsent code Hin). }
  unfold Push.streamChat, Pull.streamChatGenerator.
  rewrite Hlookup. split; reflexivity.
Qed.

Lemma unknown_model_fails_before_any_io_witness :
  Push.streamChat
    [(lit "gpt-4o", 109); (lit "claude-3.5-sonnet", 166)]
    {| USER := 1; ASSISTANT := 2; SYSTEM := 3; TOOL := 4 |}
    {| Date_now := 1700000000000;
       randomUUID := lit "123e4567-e89b-42d3-a456-426614174000" |}
    {| csrfToken := lit "token"; port := 42100;
       apiKey := lit "sk-ws-01"; version := lit "1.48.2" |}
    {| model := lit "no-such-model";
       messages := [ {| role := user; content := lit "U" |} ] |}
  = ([], inl (ModelNotFound (lit "no-such-model")))
  /\ Pull.streamChatGenerator
       [(lit "gpt-4o", 109); (lit "claude-3.5-sonnet", 166)]
       {| USER := 1; ASSISTANT := 2; SYSTEM := 3; TOOL := 4 |}
       {| Date_now := 1700000000000;
          randomUUID := lit "123e4567-e89b-42d3-a456-426614174000" |}
       {| csrfToken := lit "token"; port := 42100;
          apiKey := lit "sk-ws-01"; version := lit "1.48.2" |}
       {| model := lit "no-such-model";
          messages := [ {| role := user; content := lit "U" |} ] |}
     = ([], inl (ModelNotFound (lit "no-such-model"))).
Proof.
  apply (unknown_model_fails_before_any_io
           [(lit "gpt-4o", 109); (lit "claude-3.5-sonnet", 166)]
           {| USER := 1; ASSISTANT := 2; SYSTEM := 3; TOOL := 4 |}
           {| Date_now := 1700000000000;
              randomUUID := lit "123e4567-e89b-42d3-a456-426614174000" |}
           {| csrfToken := lit "token"; port := 42100;
              apiKey := lit "sk-ws-01"; version := lit "1.48.2" |}
           {| model := lit "no-such-model";
              messages := [ {| role := user; content := lit "U" |} ] |}).
  intros code Hin. vm_compute in Hin.
  destruct Hin as [H | [H | []]]; discriminate H.
Defined.

(** C9.  In every interleaving of transport events, calls of [next()]
    and resumptions of the body, as long as the generator has not ended:
    once the stream is over, a consumer that goes on to the end receives
    the fragments still in the queue, in order, and then the terminal
    error is thrown (that of the latest connection failure, request error
    or non-zero trailer status) if there was one, and otherwise the
    sequence ends; the calls that were pending, if any, find the sequence
    ended.  And whichever action ends the generator, a call of [next()]
    or the continuation of the [await], the stream was over and that
    action has yielded the whole queue before the error or the end. *)
Theorem exhaustion_raises_the_terminal_error
    (frame : Buffer) (acts : list Pull.action) (ss : Pull.Session) :
  Pull.play (Pull.session frame) acts = inr ss ->
  Pull.finished (Pull.gen ss) = false ->
  (Pull.done (Pull.gen ss) = true ->
   exists ss',
     Pull.play ss (Pull.drain ss) = inr ss'
     /\ Pull.finished (Pull.gen ss') = true
     /\ Pull.outcomes ss'
        = Pull.outcomes ss
          ++ map Pull.Yield (Pull.chunkQueue (Pull.gen ss))
          ++ match Pull.lastFailure acts with
             | Some e => Pull.Throw e
             | None => Pull.Return
             end :: repeat Pull.Return (Pull.pending ss))
  /\ (forall a ss',
        Pull.act ss a = inr ss' ->
        Pull.finished (Pull.gen ss') = true ->
        Pull.done (Pull.gen ss) = true
        /\ exists k,
             Pull.outcomes ss'
             = Pull.outcomes ss
               ++ map Pull.Yield (Pull.chunkQueue (Pull.gen ss))
               ++ match Pull.lastFailure acts with
                  | Some e => Pull.Throw e
                  | None => Pull.Return
                  end :: repeat Pull.Return k).
Proof.
  intros Hplay Hfin.
  pose proof (play_coherent acts _ _
                (eq_refl : Pull.coherent (Pull.session frame)) Hplay) as Hc.
  pose proof (play_error acts _ _ Hplay) as He. cbn in He.
  assert (Hend : match Pull.error_ (Pull.gen ss) with
                 | Some e => Pull.Throw e
                 | None => Pull.Return
                 end
                 = match Pull.lastFailure acts with
                   | Some e => Pull.Throw e
                   | None => Pull.Return
                   end)
    by (rewrite He; destruct (Pull.lastFailure acts); reflexivity).
  rewrite <- Hend. split.
  - intros Hdone. exact (drain_outcomes ss Hc Hdone Hfin).
  - intros a ss' Hact Hfin'. exact (act_finishes _ _ _ Hact Hfin Hfin').
Qed.

Lemma exhaustion_raises_the_terminal_error_witness :
  exists ss,
    Pull.play (Pull.session [])
      [Pull.CallNext;
       Pull.Happen (ReqData (Buffer_from_utf8 (lit "Hel")));
       Pull.Happen (ReqError (lit "socket hang up"));
       Pull.Happen (ClientError (lit "ECONNREFUSED"))]
    = inr ss
    /\ Pull.pending ss = 1%nat
    /\ Pull.finished (Pull.gen ss) = false
    /\ Pull.done (Pull.gen ss) = true
    /\ exists ss',
         Pull.play ss (Pull.drain ss) = inr ss'
         /\ Pull.outcomes ss'
            = [Pull.Yield (lit "Hel");
               Pull.Throw
                 (WindsurfError (lit "Connection failed: ECONNREFUSED")
                                CONNECTION_FAILED
                                (Some (lit "ECONNREFUSED")));
               Pull.Return].
Proof.
  eexists. split; [vm_compute; reflexivity |].
  split; [reflexivity |]. split; [reflexivity |]. split; [reflexivity |].
  destruct (exhaustion_raises_the_terminal_error
              []
              [Pull.CallNext;
               Pull.Happen (ReqData (Buffer_from_utf8 (lit "Hel")));
               Pull.Happen (ReqError (lit "socket hang up"));
               Pull.Happen (ClientError (lit "ECONNREFUSED"))]
              _ eq_refl eq_refl) as [Hdrain _].
  destruct (Hdrain eq_refl) as (ss' & Hplay & _ & Hout).
  exists ss'. split; [exact Hplay | exact Hout].
Defined.

(** C2 on the generator.  [streamChatGenerator] sets no timer.  Whatever
    the transport delivers and however often the consumer calls
    [next()], as long as the transport delivers neither an end nor an
    error the stream is never marked as over, the connection is never
    closed and no call of [next()] settles with the end of the sequence:
    after the fragments received the consumer waits for ever. *)
Theorem generator_never_times_out
    (frame : Buffer) (acts : list Pull.action) (ss : Pull.Session) :
  forallb (fun a => negb (Pull.endsStream a)) acts = true ->
  Pull.play (Pull.session frame) acts = inr ss ->
  Pull.done (Pull.gen ss) = false
  /\ Pull.finished (Pull.gen ss) = false
  /\ Pull.closes (Pull.gen ss) = 0%nat
  /\ forallb (fun o => negb (Pull.settles o)) (Pull.outcomes ss) = true.
Proof.
  intros Hacts Hplay.
  enough (Hgen : forall acts ss0,
             forallb (fun a => negb (Pull.endsStream a)) acts = true ->
             Pull.play ss0 acts = inr ss ->
             Pull.done (Pull.gen ss0) = false ->
             Pull.finished (Pull.gen ss0) = false ->
             forallb (fun o => negb (Pull.settles o)) (Pull.outcomes ss0)
             = true ->
             Pull.done (Pull.gen ss) = false
             /\ Pull.finished (Pull.gen ss) = false
             /\ Pull.closes (Pull.gen ss) = Pull.closes (Pull.gen ss0)
             /\ forallb (fun o => negb (Pull.settles o)) (Pull.outcomes ss)
                = true).
  { apply (Hgen acts (Pull.session frame) Hacts Hplay); reflexivity. }
  clear. intros acts.
  induction acts as [| a acts IH]; intros ss0 Hacts; cbn [Pull.play].
  - intros [= <-]. auto.
  - cbn [forallb] in Hacts. apply andb_true_iff in Hacts.
    destruct Hacts as [Ha Hrest]. apply negb_true_iff in Ha.
    destruct (Pull.act ss0 a) as [| ss1] eqn:Eact; [discriminate |].
    intros Hplay Hd Hf Ho.
    destruct (act_goes_on _ _ _ Ha Eact Hd Hf Ho) as (Hd1 & Hf1 & Hc1 & Ho1).
    rewrite <- Hc1. apply IH; assumption.
Qed.

Lemma generator_never_times_out_witness :
  exists ss,
    Pull.play (Pull.session [])
      [Pull.CallNext;
       Pull.Happen (ReqData (Buffer_from_utf8 (lit "Hel")));
       Pull.Resume;
       Pull.CallNext]
    = inr ss
    /\ Pull.outcomes ss = [Pull.Yield (lit "Hel")]
    /\ Pull.waiting ss = true
    /\ Pull.done (Pull.gen ss) = false
    /\ Pull.finished (Pull.gen ss) = false
    /\ Pull.closes (Pull.gen ss) = 0%nat
    /\ forallb (fun o => negb (Pull.settles o)) (Pull.outcomes ss) = true.
Proof.
  eexists. split; [vm_compute; reflexivity |].
  split; [reflexivity |]. split; [reflexivity |].
  exact (generator_never_times_out
           []
           [Pull.CallNext;
            Pull.Happen (ReqData (Buffer_from_utf8 (lit "Hel")));
            Pull.Resume;
            Pull.CallNext]
           _ eq_refl eq_refl).
Defined.

(* ====================================================================== *)
(** * Further properties of the wire encoder *)
(* ====================================================================== *)

(** X1.  What [encodeVarint] writes for a value that is not negative
    reads back, through [Buffer.from] and whatever bytes follow, as that
    value, and the bytes that follow are left over. *)
Theorem varint_roundtrip (v : Z) (rest : Buffer) :
  0 <= v ->
  decodeVarint (Buffer_from (encodeVarint v) ++ rest) = Some (v, rest).
Proof.
  intros Hv.
  rewrite (Buffer_from_bytes _ (encodeVarint_bytes v Hv)).
  apply decodeVarint_encodeVarint. exact Hv.
Qed.

Lemma varint_roundtrip_witness :
  decodeVarint (Buffer_from (encodeVarint 1700000000000) ++ [26; 1; 85])
  = Some (1700000000000, [26; 1; 85]).
Proof.
  apply (varint_roundtrip 1700000000000 [26; 1; 85]). lia.
Defined.

(** X2.  For a value that is not negative [encodeVarint] writes a varint
    in its minimal form: every byte but the last carries the continuation
    bit, the last does not, and the number of bytes n is the least with
    v < 128^n (so no group of zeros is written at the end). *)
Theorem varint_is_minimal (v : Z) :
  0 <= v ->
  Observe.varintShaped (encodeVarint v)
  /\ v < 128 ^ len (encodeVarint v)
  /\ (1 < len (encodeVarint v) -> 128 ^ (len (encodeVarint v) - 1) <= v).
Proof.
  funelim (encodeVarint v); intros Hv.
  - assert (Hshift : Z.shiftr v 7 = v / 128)
      by (rewrite Z.shiftr_div_pow2 by lia; reflexivity).
    assert (Hq : 1 <= v / 128)
      by (apply Z.div_le_lower_bound; lia).
    destruct H as ((body & last & Hbs & Hbody & Hlast) & Hup & Hlow);
      [rewrite Hshift; lia |].
    rewrite Hshift in *.
    set (n := len (encodeVarint (v / 128))) in *.
    assert (Hn : 1 <= n).
    { subst n. unfold len. rewrite Hbs, length_app. cbn [length]. lia. }
    assert (Hlen : len (Z.lor (Z.land v 127) 128 :: encodeVarint (v / 128))
                   = n + 1)
      by (subst n; unfold len; cbn [length]; lia).
    rewrite Hlen.
    pose proof (Z.div_mod v 128 ltac:(lia)) as Hdm.
    pose proof (Z.mod_pos_bound v 128 ltac:(lia)) as Hmod.
    split; [| split].
    + exists (Z.lor (Z.land v 127) 128 :: body), last.
      split; [rewrite Hbs; reflexivity |]. split; [| exact Hlast].
      constructor; [| exact Hbody].
      change 127 with 0x7f. change 128 with 0x80 at 1 3.
      rewrite continuation_byte. lia.
    + rewrite Z.pow_add_r by lia. change (128 ^ 1) with 128. lia.
    + intros _. replace (n + 1 - 1) with n by lia.
      destruct (Z.eq_dec n 1) as [-> | Hne].
      * change (128 ^ 1) with 128. lia.
      * specialize (Hlow ltac:(lia)).
        replace n with ((n - 1) + 1) by lia.
        rewrite Z.pow_add_r by lia. change (128 ^ 1) with 128. lia.
  - rewrite Number_of_BigInt_exact by lia. split; [| split].
    + exists [], v. repeat split; [constructor | lia | lia].
    + change (len [v]) with 1. change (128 ^ 1) with 128. lia.
    + change (len [v]) with 1. lia.
Qed.


Lemma varint_is_minimal_witness :
  Observe.varintShaped (encodeVarint 300)
  /\ 300 < 128 ^ len (encodeVarint 300)
  /\ (1 < len (encodeVarint 300) -> 128 ^ (len (encodeVarint 300) - 1) <= 300).
Proof. apply (varint_is_minimal 300). lia. Defined.

(** X3.  A negative value never enters the loop of [encodeVarint]: one
    array entry is pushed, [Number(v)], which is [v] itself down to
    [- 2 ^ 53] and the nearest double below that, and [Buffer.from]
    truncates it to one byte.  What is sent does not read back as the
    value (protobuf writes a negative varint on ten bytes). *)
Theorem negative_varint_is_one_truncated_byte (v : Z) :
  v < 0 ->
  encodeVarint v = [Number_of_BigInt v]
  /\ Buffer_from (encodeVarint v) = [Number_of_BigInt v mod 256]
  /\ (- 2 ^ 53 <= v -> Number_of_BigInt v = v)
  /\ forall rest, decodeVarint (Buffer_from (encodeVarint v)) <> Some (v, rest).
Proof.
  intros Hv. rewrite encodeVarint_stops by lia.
  split; [reflexivity |]. split; [reflexivity |]. split.
  - intros Hlow. destruct (Z.eq_dec v (- 2 ^ 53)) as [-> | Hne];
      [reflexivity | apply Number_of_BigInt_exact; lia].
  - intros rest. cbn [Buffer_from map decodeVarint]. unfold ToUint8.
    pose proof (Z.mod_pos_bound (Number_of_BigInt v) 256 ltac:(lia)) as Hm.
    destruct (Z.testbit (Number_of_BigInt v mod 256) 7); [discriminate |].
    intros [= Heq _]. lia.
Qed.

Lemma negative_varint_is_one_truncated_byte_witness :
  (encodeVarint (-1) = [-1]
   /\ Buffer_from (encodeVarint (-1)) = [255])
  /\ (encodeVarint (- (2 ^ 53 + 1)) = [- 2 ^ 53]
      /\ Buffer_from (encodeVarint (- (2 ^ 53 + 1))) = [0]
      /\ forall rest,
           decodeVarint (Buffer_from (encodeVarint (- (2 ^ 53 + 1))))
           <> Some (- (2 ^ 53 + 1), rest)).
Proof.
  split.
  - destruct (negative_varint_is_one_truncated_byte (-1) ltac:(lia))
      as (H1 & H2 & _).
    split; [exact H1 | exact H2].
  - destruct (negative_varint_is_one_truncated_byte (- (2 ^ 53 + 1))
                ltac:(lia)) as (H1 & H2 & _ & H4).
    split; [exact H1 |]. split; [exact H2 | exact H4].
Defined.

(** X4.  For the field numbers 1 to 15 each of the three field encoders
    writes one field that reads back as written: [encodeString] as the
    bytes of the string, [encodeMessage] as the nested bytes,
    [encodeVarintField] as the value when it is not negative. *)
Theorem field_encoders_roundtrip
    (f : Z) (str : jsstring) (data : list Z) (v : Z) :
  1 <= f <= 15 -> 0 <= v ->
  decodeFields (Buffer_from (encodeString f str))
  = Some [(f, Bytes (Observe.utf8Bytes str))]
  /\ decodeFields (Buffer_from (encodeMessage f data))
     = Some [(f, Bytes (Buffer_from data))]
  /\ decodeFields (Buffer_from (encodeVarintField f v))
     = Some [(f, Varint v)].
Proof.
  intros Hf Hv.
  change (encodeString f str) with (encodeMessage f (Buffer_from_utf8 str)).
  rewrite !Buffer_from_encodeMessage by exact Hf.
  rewrite Buffer_from_encodeVarintField by assumption.
  rewrite <- (app_nil_r (encodeMessage f (Buffer_from (Buffer_from_utf8 str)))).
  rewrite <- (app_nil_r (encodeMessage f (Buffer_from data))).
  rewrite <- (app_nil_r (encodeVarintField f v)).
  rewrite !decodeFields_encodeMessage by exact Hf.
  rewrite decodeFields_encodeVarintField by assumption.
  repeat split.
Qed.

Lemma field_encoders_roundtrip_witness :
  decodeFields (Buffer_from (encodeString 10 (lit "session")))
  = Some [(10, Bytes (Observe.utf8Bytes (lit "session")))]
  /\ decodeFields (Buffer_from (encodeMessage 10 [8; 1]))
     = Some [(10, Bytes (Buffer_from [8; 1]))]
  /\ decodeFields (Buffer_from (encodeVarintField 10 1700000000000))
     = Some [(10, Varint 1700000000000)].
Proof.
  apply (field_encoders_roundtrip 10 (lit "session") [8; 1] 1700000000000);
    lia.
Defined.

(* ====================================================================== *)
(** * Further properties of the request builder *)
(* ====================================================================== *)

Section ReadingBack.

Lemma encodeString_as_message (f : Z) (s : jsstring) :
  encodeString f s = encodeMessage f (Buffer_from_utf8 s).
Proof. reflexivity. Qed.

Lemma decodeFields_nil : decodeFields [] = Some [].
Proof. reflexivity. Qed.

Lemma decodeFields_encodeMessage_last (f : Z) (data : Buffer) :
  1 <= f <= 15 ->
  decodeFields (encodeMessage f data) = Some [(f, Bytes data)].
Proof.
  intros Hf. rewrite <- (app_nil_r (encodeMessage f data)).
  rewrite decodeFields_encodeMessage by exact Hf. reflexivity.
Qed.

Lemma decodeFields_encodeVarintField_last (f v : Z) :
  1 <= f <= 15 -> 0 <= v ->
  decodeFields (encodeVarintField f v) = Some [(f, Varint v)].
Proof.
  intros Hf Hv. rewrite <- (app_nil_r (encodeVarintField f v)).
  rewrite decodeFields_encodeVarintField by assumption. reflexivity.
Qed.

Lemma Buffer_from_encodeString (f : Z) (s : jsstring) :
  1 <= f <= 15 ->
  Buffer_from (encodeString f s) = encodeMessage f (Observe.utf8Bytes s).
Proof.
  intros Hf. rewrite encodeString_as_message.
  apply Buffer_from_encodeMessage. exact Hf.
Qed.

Lemma fieldsNumbered_app (n : Z) (a b : list field) :
  fieldsNumbered n (a ++ b) = fieldsNumbered n a ++ fieldsNumbered n b.
Proof. unfold fieldsNumbered. rewrite filter_app, map_app. reflexivity. Qed.

Lemma fieldsNumbered_entries {A} (n : Z) (payloadOf : A -> Buffer)
    (l : list A) :
  fieldsNumbered n (map (fun x => (2, Bytes (payloadOf x))) l)
  = if n =? 2 then map (fun x => Bytes (payloadOf x)) l else [].
Proof.
  unfold fieldsNumbered.
  induction l as [| x l IH]; cbn [map filter fst].
  - destruct (n =? 2); reflexivity.
  - rewrite (Z.eqb_sym 2 n). destruct (n =? 2) eqn:E; cbn [map snd].
    + rewrite IH. reflexivity.
    + exact IH.
Qed.

Lemma systemPromptAfter_last (before after : list ChatMessage)
    (m : ChatMessage) (sp : jsstring) :
  role m = system ->
  (forall x, In x after -> role x <> system) ->
  systemPromptAfter (before ++ m :: after) sp = content m.
Proof.
  intros Hm Hafter. unfold systemPromptAfter.
  rewrite fold_left_app. cbn [fold_left]. unfold isSystem at 2.
  rewrite Hm.
  generalize (content m) as sp'. clear - Hafter.
  induction after as [| x after IH]; intros sp'; [reflexivity |].
  cbn [fold_left]. unfold isSystem at 2.
  destruct (role x) eqn:Ex;
    try (apply IH; intros y Hy; apply Hafter; right; exact Hy).
  exfalso. apply (Hafter x (or_introl eq_refl)). exact Ex.
Qed.

End ReadingBack.

Ltac to_wire :=
  repeat first
    [ rewrite Buffer_from_app
    | rewrite Buffer_from_encodeString by lia
    | rewrite Buffer_from_encodeMessage by lia
    | rewrite Buffer_from_encodeVarintField by lia ].

Ltac read_back :=
  repeat first
    [ rewrite decodeFields_encodeMessage by lia
    | rewrite decodeFields_encodeVarintField by lia
    | rewrite decodeFields_encodeMessage_last by lia
    | rewrite decodeFields_encodeVarintField_last by lia
    | rewrite decodeFields_nil ].

(** X5.  The metadata message of a request reads back as its eight
    fields, in this order: 1 the client name "windsurf-next", 2 the
    version, 3 the API key, 4 the locale "en", 7 the version again, 9 the
    request id (the clock in milliseconds), 10 the session id, 12
    "windsurf".  The clock must not be negative. *)
Theorem metadata_reads_back (env : Env) (apiKey version : jsstring) :
  0 <= Date_now env ->
  decodeFields (Buffer_from (encodeMetadata env apiKey version))
  = Some [(1, Bytes (Observe.utf8Bytes (lit "windsurf-next")));
          (2, Bytes (Observe.utf8Bytes version));
          (3, Bytes (Observe.utf8Bytes apiKey));
          (4, Bytes (Observe.utf8Bytes (lit "en")));
          (7, Bytes (Observe.utf8Bytes version));
          (9, Varint (Date_now env));
          (10, Bytes (Observe.utf8Bytes (randomUUID env)));
          (12, Bytes (Observe.utf8Bytes (lit "windsurf")))].
Proof.
  intros Hnow. unfold encodeMetadata. to_wire. read_back. reflexivity.
Qed.

Lemma metadata_reads_back_witness :
  decodeFields
    (Buffer_from
       (encodeMetadata
          {| Date_now := 1700000000000;
             randomUUID := lit "123e4567-e89b-42d3-a456-426614174000" |}
          (lit "sk-ws-01") (lit "1.48.2")))
  = Some [(1, Bytes (Observe.utf8Bytes (lit "windsurf-next")));
          (2, Bytes (Observe.utf8Bytes (lit "1.48.2")));
          (3, Bytes (Observe.utf8Bytes (lit "sk-ws-01")));
          (4, Bytes (Observe.utf8Bytes (lit "en")));
          (7, Bytes (Observe.utf8Bytes (lit "1.48.2")));
          (9, Varint 1700000000000);
          (10, Bytes (Observe.utf8Bytes
                        (lit "123e4567-e89b-42d3-a456-426614174000")));
          (12, Bytes (Observe.utf8Bytes (lit "windsurf")))].
Proof.
  apply (metadata_reads_back
           {| Date_now := 1700000000000;
              randomUUID := lit "123e4567-e89b-42d3-a456-426614174000" |}
           (lit "sk-ws-01") (lit "1.48.2")).
  simpl. lia.
Defined.

(** X6.  A formatted chat message reads back as the role, then the
    header only when it is not empty, then the content (written even
    when empty), then the footer only when it is not empty. *)
Theorem formatted_message_reads_back
    (role : Z) (content header footer : jsstring) :
  0 <= role ->
  decodeFields
    (Buffer_from (encodeFormattedChatMessage role content header footer))
  = Some ((1, Varint role)
            :: (if truthy header
                then [(2, Bytes (Observe.utf8Bytes header))] else [])
            ++ (3, Bytes (Observe.utf8Bytes content))
            :: (if truthy footer
                then [(4, Bytes (Observe.utf8Bytes footer))] else [])).
Proof.
  intros Hrole. unfold encodeFormattedChatMessage.
  destruct (truthy header), (truthy footer);
    rewrite <- ?app_assoc; to_wire; read_back; reflexivity.
Qed.

Lemma formatted_message_reads_back_witness :
  decodeFields
    (Buffer_from (encodeFormattedChatMessage 1 [] (lit "note") []))
  = Some ((1, Varint 1)
            :: (if truthy (lit "note")
                then [(2, Bytes (Observe.utf8Bytes (lit "note")))] else [])
            ++ (3, Bytes (Observe.utf8Bytes []))
            :: (if truthy []
                then [(4, Bytes (Observe.utf8Bytes []))] else [])).
Proof. apply (formatted_message_reads_back 1 [] (lit "note") []). lia. Defined.

Lemma chatRequest_fields
    (ChatMessageSource : ChatMessageSourceT) (env : Env)
    (apiKey version : jsstring) (modelEnum : Z)
    (messages : list ChatMessage) :
  0 <= modelEnum ->
  decodeFields
    (Buffer_from
       (chatRequest ChatMessageSource env apiKey version modelEnum messages))
  = Some ((1, Bytes (Buffer_from (encodeMetadata env apiKey version)))
            :: map (fun m =>
                      (2, Bytes (Buffer_from (chatEntry ChatMessageSource m))))
                   (filter (fun m => negb (isSystem m)) messages)
            ++ (if truthy (systemPromptAfter messages [])
                then [(3, Bytes (Observe.utf8Bytes
                                   (systemPromptAfter messages [])))]
                else [])
            ++ [(4, Varint modelEnum)]).
Proof.
  intros Hmodel. rewrite chatRequest_shape.
  rewrite Buffer_from_app, Buffer_from_encodeMessage by lia.
  rewrite decodeFields_encodeMessage by lia.
  rewrite Buffer_from_app, decodeFields_chatEntries.
  destruct (truthy (systemPromptAfter messages [])); to_wire;
    cbn [Buffer_from map app]; read_back; reflexivity.
Qed.

(** X7.  Whatever the messages, the request reads back as the metadata
    (field 1), then one chat entry (field 2) for every message that is
    not a system message, in the order of the input, then the system
    prompt override (field 3) when the system prompt is not empty, then
    the model (field 4).  The system prompt thus comes after all chat
    entries, wherever the system message stood in the list. *)
Theorem request_reads_back
    (ChatMessageSource : ChatMessageSourceT) (env : Env)
    (apiKey version : jsstring) (modelEnum : Z)
    (messages : list ChatMessage) :
  0 <= modelEnum ->
  decodeFields
    (Buffer_from
       (chatRequest ChatMessageSource env apiKey version modelEnum messages))
  = Some ((1, Bytes (Buffer_from (encodeMetadata env apiKey version)))
            :: map (fun m =>
                      (2, Bytes (Buffer_from (chatEntry ChatMessageSource m))))
                   (filter (fun m => negb (isSystem m)) messages)
            ++ (if truthy (systemPromptAfter messages [])
                then [(3, Bytes (Observe.utf8Bytes
                                   (systemPromptAfter messages [])))]
                else [])
            ++ [(4, Varint modelEnum)]).
Proof. apply chatRequest_fields. Qed.

Lemma request_reads_back_witness :
  decodeFields
    (Buffer_from
       (chatRequest
          {| USER := 1; ASSISTANT := 2; SYSTEM := 3; TOOL := 4 |}
          {| Date_now := 1700000000000;
             randomUUID := lit "123e4567-e89b-42d3-a456-426614174000" |}
          (lit "sk-ws-01") (lit "1.48.2") 109
          [ {| role := user; content := lit "one" |};
            {| role := system; content := lit "S" |};
            {| role := assistant; content := lit "two" |} ]))
  = Some ((1, Bytes (Buffer_from
                       (encodeMetadata
                          {| Date_now := 1700000000000;
                             randomUUID :=
                               lit "123e4567-e89b-42d3-a456-426614174000" |}
                          (lit "sk-ws-01") (lit "1.48.2"))))
            :: map (fun m =>
                      (2, Bytes (Buffer_from
                                   (chatEntry
                                      {| USER := 1; ASSISTANT := 2;
                                         SYSTEM := 3; TOOL := 4 |} m))))
                   (filter (fun m => negb (isSystem m))
                      [ {| role := user; content := lit "one" |};
                        {| role := system; content := lit "S" |};
                        {| role := assistant; content := lit "two" |} ])
            ++ (if truthy (systemPromptAfter
                             [ {| role := user; content := lit "one" |};
                               {| role := system; content := lit "S" |};
                               {| role := assistant; content := lit "two" |} ]
                             [])
                then [(3, Bytes (Observe.utf8Bytes
                                   (systemPromptAfter
                                      [ {| role := user;
                                           content := lit "one" |};
                                        {| role := system;
                                           content := lit "S" |};
                                        {| role := assistant;
                                           content := lit "two" |} ]
                                      [])))]
                else [])
            ++ [(4, Varint 109)]).
Proof.
  apply (request_reads_back
           {| USER := 1; ASSISTANT := 2; SYSTEM := 3; TOOL := 4 |}
           {| Date_now := 1700000000000;
              randomUUID := lit "123e4567-e89b-42d3-a456-426614174000" |}
           (lit "sk-ws-01") (lit "1.48.2") 109
           [ {| role := user; content := lit "one" |};
             {| role := system; content := lit "S" |};
             {| role := assistant; content := lit "two" |} ]).
  lia.
Defined.

(** X8.  With several system messages the last one wins: the request
    carries the content of the last system message of the list as its
    only field 3, or no field 3 when that content is empty; the system
    messages before it leave no trace. *)
Theorem last_system_message_wins
    (ChatMessageSource : ChatMessageSourceT) (env : Env)
    (apiKey version : jsstring) (modelEnum : Z)
    (before after : list ChatMessage) (m : ChatMessage) :
  0 <= modelEnum ->
  role m = system ->
  (forall x, In x after -> role x <> system) ->
  exists fields,
    decodeFields
      (Buffer_from
         (chatRequest ChatMessageSource env apiKey version modelEnum
                      (before ++ m :: after)))
    = Some fields
    /\ fieldsNumbered 3 fields
       = if truthy (content m)
         then [Bytes (Observe.utf8Bytes (content m))] else [].
Proof.
  intros Hmodel Hm Hafter. eexists. split.
  - apply chatRequest_fields. exact Hmodel.
  - rewrite (systemPromptAfter_last before after m [] Hm Hafter).
    change (?x :: ?l ++ ?r) with ([x] ++ l ++ r).
    rewrite !fieldsNumbered_app, fieldsNumbered_entries.
    destruct (truthy (content m)); reflexivity.
Qed.

Lemma last_system_message_wins_witness :
  exists fields,
    decodeFields
      (Buffer_from
         (chatRequest
            {| USER := 1; ASSISTANT := 2; SYSTEM := 3; TOOL := 4 |}
            {| Date_now := 1700000000000;
               randomUUID := lit "123e4567-e89b-42d3-a456-426614174000" |}
            (lit "sk-ws-01") (lit "1.48.2") 109
            ([ {| role := system; content := lit "first" |} ]
               ++ {| role := system; content := lit "second" |}
               :: [ {| role := user; content := lit "U" |} ])))
    = Some fields
    /\ fieldsNumbered 3 fields
       = if truthy (lit "second")
         then [Bytes (Observe.utf8Bytes (lit "second"))] else [].
Proof.
  apply (last_system_message_wins
           {| USER := 1; ASSISTANT := 2; SYSTEM := 3; TOOL := 4 |}
           {| Date_now := 1700000000000;
              randomUUID := lit "123e4567-e89b-42d3-a456-426614174000" |}
           (lit "sk-ws-01") (lit "1.48.2") 109
           [ {| role := system; content := lit "first" |} ]
           [ {| role := user; content := lit "U" |} ]
           {| role := system; content := lit "second" |}).
  - lia.
  - reflexivity.
  - intros x [<- | []]. simpl. discriminate.
Defined.

(* ====================================================================== *)
(** * Properties of the chunk decoder *)
(* ====================================================================== *)

Section DecoderFacts.
Import Regex.

Lemma Forall_dropWhile (P : Z -> Prop) (c : cls) (s : jsstring) :
  Forall P s -> Forall P (dropWhile c s).
Proof.
  induction 1 as [| x s Hx Hs IH]; cbn [dropWhile]; [constructor |].
  destruct (c x); [exact IH | constructor; assumption].
Qed.

Lemma Forall_trim (P : Z -> Prop) (s : jsstring) :
  Forall P s -> Forall P (trim s).
Proof.
  intros Hs. unfold trim.
  apply Forall_rev, Forall_dropWhile, Forall_rev, Forall_dropWhile, Hs.
Qed.

Lemma Forall_firstn (P : Z -> Prop) (n : nat) (s : jsstring) :
  Forall P s -> Forall P (firstn n s).
Proof.
  intros Hs. rewrite <- (firstn_skipn n s) in Hs.
  apply Forall_app in Hs. apply Hs.
Qed.

Lemma Forall_skipn (P : Z -> Prop) (n : nat) (s : jsstring) :
  Forall P s -> Forall P (skipn n s).
Proof.
  intros Hs. rewrite <- (firstn_skipn n s) in Hs.
  apply Forall_app in Hs. apply Hs.
Qed.

(** A successful greedy choice is one of the attempts, between [lo] and
    the number it started from. *)
Lemma backtrack_some {R} (attempt : nat -> option R) (lo : nat) :
  forall n r, backtrack attempt lo n = Some r ->
              exists k, (lo <= k <= n)%nat /\ attempt k = Some r.
Proof.
  induction n as [| n IH]; intros r; cbn [backtrack].
  - destruct (0 <? lo)%nat eqn:E; [discriminate |].
    apply Nat.ltb_ge in E.
    destruct (attempt 0%nat) eqn:Ea; [| discriminate].
    intros [= <-]. exists 0%nat. split; [lia | exact Ea].
  - destruct (S n <? lo)%nat eqn:E; [discriminate |].
    apply Nat.ltb_ge in E.
    destruct (attempt (S n)) eqn:Ea.
    + intros [= <-]. exists (S n). split; [lia | exact Ea].
    + intros Hb. destruct (IH _ Hb) as (k & Hk & Hak).
      exists k. split; [lia | exact Hak].
Qed.

Lemma firstn_runLength (c : cls) (s : jsstring) (k : nat) :
  (k <= runLength c s)%nat -> Forall (fun x => c x = true) (firstn k s).
Proof.
  revert k. induction s as [| x s IH]; intros k Hk.
  - rewrite firstn_nil. constructor.
  - destruct k as [| k]; [constructor |].
    cbn [runLength] in Hk. cbn [firstn].
    destruct (c x) eqn:Ex; [| lia].
    constructor; [exact Ex | apply IH; lia].
Qed.

(** What a match leaves: captures and rest are made of characters of the
    text, and every capture lies inside the class of its group. *)
Lemma matchHere_parts (P : Z -> Prop) (p : list item) :
  forall s caps rest,
    Forall P s -> matchHere p s = Some (caps, rest) ->
    Forall (Forall P) caps /\ Forall P rest
    /\ Forall2 (fun c cap => Forall (fun x => c x = true) cap)
               (Observe.captureClasses p) caps.
Proof.
  induction p as [| i p IH]; intros s caps rest Hs; cbn [matchHere].
  - intros [= <- <-]. repeat split; [constructor | exact Hs | constructor].
  - destruct i as [c lo hi capture |].
    + intros Hb. apply backtrack_some in Hb.
      destruct Hb as (k & Hk & Hatt).
      destruct (matchHere p (skipn k s)) as [[caps' rest'] |] eqn:Em;
        [| discriminate].
      injection Hatt as <- <-.
      destruct (IH _ _ _ (Forall_skipn P k s Hs) Em) as (Hc & Hr & Hcls).
      assert (Hrun : (k <= runLength c s)%nat)
        by (destruct hi; lia).
      split; [| split; [exact Hr |]].
      * destruct capture; cbn [app]; [constructor |]; try exact Hc.
        apply Forall_firstn. exact Hs.
      * unfold Observe.captureClasses. cbn [flat_map].
        destruct capture; cbn [app]; [constructor |]; try exact Hcls.
        apply firstn_runLength. exact Hrun.
    + destruct s; [| discriminate]. intros Hm.
      destruct (IH _ _ _ Hs Hm) as (Hc & Hr & Hcls).
      repeat split; assumption.
Qed.

Lemma exec_parts (P : Z -> Prop) (p : list item) :
  forall s caps,
    Forall P s -> exec p s = Some caps ->
    Forall (Forall P) caps
    /\ Forall2 (fun c cap => Forall (fun x => c x = true) cap)
               (Observe.captureClasses p) caps.
Proof.
  induction s as [| x s IH]; intros caps Hs; cbn [exec].
  - destruct (matchHere p []) as [[caps' rest] |] eqn:Em; [| discriminate].
    intros [= <-].
    destruct (matchHere_parts P p _ _ _ Hs Em) as (Hc & _ & Hcls). auto.
  - destruct (matchHere p (x :: s)) as [[caps' rest] |] eqn:Em.
    + intros [= <-].
      destruct (matchHere_parts P p _ _ _ Hs Em) as (Hc & _ & Hcls). auto.
    + apply IH. inversion Hs; assumption.
Qed.

Lemma splitLoop_parts (P : Z -> Prop) (p : list item) :
  forall s piece skip,
    Forall P piece -> Forall P s ->
    Forall (Forall P) (splitLoop p piece skip s).
Proof.
  induction s as [| c s IH]; intros piece skip Hpiece Hs; cbn [splitLoop].
  - constructor; [exact Hpiece | constructor].
  - inversion Hs as [| ? ? Hc Hs']; subst.
    destruct skip as [| k]; [| apply IH; assumption].
    destruct (matchHere p (c :: s)) as [[caps rest] |] eqn:Em.
    + destruct (matchHere_parts P p _ _ _ Hs Em) as (Hcaps & _ & _).
      destruct (length (c :: s) - length rest)%nat.
      * destruct piece as [| y piece'].
        -- apply IH; [constructor; [exact Hc | constructor] | exact Hs'].
        -- constructor; [exact Hpiece |]. apply Forall_app. split;
             [exact Hcaps |].
           apply IH; [constructor; [exact Hc | constructor] | exact Hs'].
      * constructor; [exact Hpiece |]. apply Forall_app. split;
          [exact Hcaps |].
        apply IH; [constructor | exact Hs'].
    + apply IH; [| exact Hs'].
      apply Forall_app. split; [exact Hpiece |].
      constructor; [exact Hc | constructor].
Qed.

Lemma split_parts (P : Z -> Prop) (p : list item) (s : jsstring) :
  Forall P s -> Forall (Forall P) (split p s).
Proof.
  intros Hs. unfold split. destruct s as [| c s].
  - destruct (matchHere p []); repeat constructor.
  - apply splitLoop_parts; [constructor | exact Hs].
Qed.

Lemma removeAtStart_parts (P : Z -> Prop) (p : list item) (s : jsstring) :
  Forall P s -> Forall P (removeAtStart p s).
Proof.
  intros Hs. unfold removeAtStart.
  destruct (matchHere p s) as [[caps rest] |] eqn:Em; [| exact Hs].
  destruct (matchHere_parts P p _ _ _ Hs Em) as (_ & Hr & _). exact Hr.
Qed.

(** The three ways [extractTextFromChunk] returns. *)
Lemma extract_cases (chunk : Buffer) :
  (exists textMatch,
      exec asteriskMarker (Observe.readable chunk) = Some textMatch
      /\ extractTextFromChunk chunk = trim (nth 0 textMatch []))
  \/ (exec asteriskMarker (Observe.readable chunk) = None
      /\ extractTextFromChunk chunk
         = firstMeaningful (split spaces2 (Observe.readable chunk))).
Proof.
  unfold extractTextFromChunk. fold (Observe.readable chunk).
  destruct (exec asteriskMarker (Observe.readable chunk)) as [tm |].
  - left. exists tm. split; reflexivity.
  - right. split; reflexivity.
Qed.

Lemma firstMeaningful_cases (parts : list jsstring) :
  firstMeaningful parts = []
  \/ exists part, In part parts
       /\ firstMeaningful parts = trim (removeAtStart leadingNoise part).
Proof.
  induction parts as [| part parts IH]; [left; reflexivity |].
  cbn [firstMeaningful].
  destruct ((0 <? len part) && negb (includes 45 part)
            && negb (matchesAtStart hexToken part)).
  - destruct (0 <? len (trim (removeAtStart leadingNoise part))).
    + right. exists part. split; [left; reflexivity | reflexivity].
    + destruct IH as [IH | (q & Hq & IH)]; [left; exact IH |].
      right. exists q. split; [right; exact Hq | exact IH].
  - destruct IH as [IH | (q & Hq & IH)]; [left; exact IH |].
    right. exists q. split; [right; exact Hq | exact IH].
Qed.

Lemma readable_printable (chunk : Buffer) :
  Forall (fun c => Observe.printable c = true) (Observe.readable chunk).
Proof.
  unfold Observe.readable. apply Forall_trim.
  unfold replaceEach. apply Forall_forall. intros x Hx.
  apply in_map_iff in Hx. destruct Hx as (y & <- & _).
  unfold Observe.printable.
  destruct (nonPrintable y) eqn:Ey; [reflexivity |].
  rewrite Ey. reflexivity.
Qed.

End DecoderFacts.

(** X9.  Whatever the bytes of the chunk, the text
    [extractTextFromChunk] returns holds only printable ASCII characters
    (0x20 to 0x7E) and newlines. *)
Theorem extracted_text_is_printable (chunk : Buffer) :
  Forall (fun c => (0x20 <= c <= 0x7E) \/ c = 10)
         (extractTextFromChunk chunk).
Proof.
  assert (Hp : Forall (fun c => Observe.printable c = true)
                      (extractTextFromChunk chunk)).
  { pose proof (readable_printable chunk) as Hr.
    destruct (extract_cases chunk) as [(tm & Hexec & ->) | (_ & ->)].
    - apply Forall_trim.
      destruct (exec_parts _ _ _ _ Hr Hexec) as (Hcaps & _).
      destruct tm as [| g tm]; [constructor |].
      inversion Hcaps; assumption.
    - pose proof (split_parts _ spaces2 _ Hr) as Hparts.
      destruct (firstMeaningful_cases
                  (Regex.split spaces2 (Observe.readable chunk)))
        as [-> | (part & Hin & ->)]; [constructor |].
      apply Forall_trim, removeAtStart_parts.
      rewrite Forall_forall in Hparts. apply Hparts. exact Hin. }
  eapply Forall_impl; [| exact Hp].
  intros c Hc. unfold Observe.printable, nonPrintable, Regex.negate,
    Regex.union, Regex.between, Regex.char in Hc.
  rewrite negb_involutive in Hc. apply orb_true_iff in Hc.
  destruct Hc as [Hc | Hc].
  - apply andb_true_iff in Hc. destruct Hc as [H1 H2].
    apply Z.leb_le in H1, H2. left. lia.
  - apply Z.eqb_eq in Hc. right. exact Hc.
Qed.

Section TrimFacts.
Import Regex.

Lemma dropWhile_startsOutside (c : cls) (s : jsstring) :
  Observe.startsOutside c (dropWhile c s).
Proof.
  induction s as [| x s IH]; cbn [dropWhile]; [exact I |].
  destruct (c x) eqn:Ex; [exact IH | exact Ex].
Qed.

Lemma dropWhile_fixed (c : cls) (s : jsstring) :
  Observe.startsOutside c s -> dropWhile c s = s.
Proof.
  destruct s as [| x s]; [reflexivity |].
  cbn [Observe.startsOutside dropWhile]. intros ->. reflexivity.
Qed.

Lemma dropWhile_suffix (c : cls) (s : jsstring) :
  exists dropped, s = dropped ++ dropWhile c s.
Proof.
  induction s as [| x s (d & IH)]; [exists []; reflexivity |].
  cbn [dropWhile]. destruct (c x).
  - exists (x :: d). cbn [app]. f_equal. exact IH.
  - exists []. reflexivity.
Qed.

Lemma trim_trim (s : jsstring) : trim (trim s) = trim s.
Proof.
  unfold trim.
  set (a := dropWhile space s).
  set (b := dropWhile space (rev a)).
  assert (Ha : Observe.startsOutside space a) by apply dropWhile_startsOutside.
  assert (Hb : Observe.startsOutside space b) by apply dropWhile_startsOutside.
  assert (Hrevb : Observe.startsOutside space (rev b)).
  { destruct (dropWhile_suffix space (rev a)) as (d & Hd). fold b in Hd.
    assert (Hrev : a = rev b ++ rev d)
      by (rewrite <- rev_app_distr, <- Hd, rev_involutive; reflexivity).
    destruct (rev b) as [| x t]; [exact I |].
    rewrite Hrev in Ha. exact Ha. }
  rewrite (dropWhile_fixed space (rev b) Hrevb), rev_involutive.
  rewrite (dropWhile_fixed space b Hb). reflexivity.
Qed.

Lemma trim_all_space (s : jsstring) :
  Forall (fun c => space c = true) s -> trim s = [].
Proof.
  intros Hs. unfold trim.
  assert (Hd : dropWhile space s = []).
  { induction Hs as [| x s Hx _ IH]; [reflexivity |].
    cbn [dropWhile]. rewrite Hx. exact IH. }
  rewrite Hd. reflexivity.
Qed.

Lemma toString_utf8_ascii (bs : Buffer) :
  Forall (fun b => b <= 0x7F) bs -> toString_utf8 bs = bs.
Proof.
  unfold toString_utf8.
  induction 1 as [| b bs Hb _ IH]; [reflexivity |].
  cbn [utf8_decode]. unfold utf8_lead.
  replace (b <=? 0x7F) with true by (symmetry; apply Z.leb_le; exact Hb).
  cbn [app]. f_equal. exact IH.
Qed.

End TrimFacts.

(** X10.  The text [extractTextFromChunk] returns never starts or ends
    with white space: trimming it again changes nothing. *)
Theorem extracted_text_is_trimmed (chunk : Buffer) :
  Regex.trim (extractTextFromChunk chunk) = extractTextFromChunk chunk.
Proof.
  destruct (extract_cases chunk) as [(tm & _ & ->) | (_ & ->)].
  - apply trim_trim.
  - destruct (firstMeaningful_cases
                (Regex.split spaces2 (Observe.readable chunk)))
      as [-> | (part & _ & ->)]; [reflexivity | apply trim_trim].
Qed.

(** X11.  A chunk made only of control bytes and spaces (bytes up to
    0x20, or 0x7F) has no text: [extractTextFromChunk] returns the empty
    string, and neither [streamChat] (no [onChunk] call, nothing added to
    [chunks]) nor the generator (nothing queued, nobody woken) changes
    state on it. *)
Theorem blank_chunk_is_ignored (chunk : Buffer) :
  Forall (fun b => 0 <= b <= 0x20 \/ b = 0x7F) chunk ->
  extractTextFromChunk chunk = []
  /\ (forall s, Push.step s (Push.Emit (ReqData chunk)) = inr s)
  /\ (forall g, Pull.step g (ReqData chunk) = inr g).
Proof.
  intros Hchunk.
  assert (Hempty : extractTextFromChunk chunk = []).
  { assert (Hr : Observe.readable chunk = []).
    { unfold Observe.readable. apply trim_all_space.
      rewrite toString_utf8_ascii
        by (eapply Forall_impl; [| exact Hchunk]; cbn; intros; lia).
      unfold Regex.replaceEach. apply Forall_forall. intros x Hx.
      apply in_map_iff in Hx. destruct Hx as (b & <- & Hb).
      rewrite Forall_forall in Hchunk. specialize (Hchunk b Hb).
      destruct (nonPrintable b) eqn:Eb; [reflexivity |].
      unfold nonPrintable, Regex.negate, Regex.union, Regex.between,
        Regex.char in Eb.
      apply negb_false_iff, orb_true_iff in Eb.
      destruct Eb as [Eb | Eb].
      - apply andb_true_iff in Eb. destruct Eb as [E1 E2].
        apply Z.leb_le in E1, E2.
        assert (b = 32) as -> by lia. reflexivity.
      - apply Z.eqb_eq in Eb. subst b. reflexivity. }
    unfold extractTextFromChunk. fold (Observe.readable chunk).
    rewrite Hr. reflexivity. }
  split; [exact Hempty |]. split.
  - intros s. cbn [Push.step]. rewrite Hempty. cbn [truthy].
    destruct (Push.requestOpen s); reflexivity.
  - intros g. cbn [Pull.step]. rewrite Hempty. reflexivity.
Qed.

Lemma blank_chunk_is_ignored_witness :
  extractTextFromChunk [0; 0; 0; 0; 5; 10; 32; 127] = []
  /\ (forall s,
        Push.step s (Push.Emit (ReqData [0; 0; 0; 0; 5; 10; 32; 127])) = inr s)
  /\ (forall g, Pull.step g (ReqData [0; 0; 0; 0; 5; 10; 32; 127]) = inr g).
Proof.
  apply (blank_chunk_is_ignored [0; 0; 0; 0; 5; 10; 32; 127]).
  repeat constructor; lia.
Defined.

(** X12.  When the readable text of a chunk has an asterisk that the
    marker pattern matches, the text returned never holds the digit 0:
    the capture [[^0]+] stops at the first 0 behind the asterisk, and
    what follows is lost. *)
Theorem asterisk_text_is_cut_at_zero (chunk : Buffer) :
  Regex.exec asteriskMarker (Observe.readable chunk) <> None ->
  ~ In 48 (extractTextFromChunk chunk).
Proof.
  intros Hmatch.
  destruct (extract_cases chunk) as [(tm & Hexec & ->) | (Hnone & _)];
    [| contradiction].
  assert (Htrue : Forall (fun _ : Z => True) (Observe.readable chunk))
    by (apply Forall_forall; intros; exact I).
  destruct (exec_parts _ _ _ _ Htrue Hexec) as (_ & Hcls).
  change (Observe.captureClasses asteriskMarker)
    with [Regex.negate (Regex.char 48)] in Hcls.
  inversion Hcls as [| c g cs gs Hg Hrest]; subst.
  inversion Hrest; subst. cbn [nth].
  assert (Ht : Forall (fun x => Regex.negate (Regex.char 48) x = true)
                      (Regex.trim g))
    by (apply Forall_trim; exact Hg).
  intros Hin. rewrite Forall_forall in Ht. specialize (Ht 48 Hin).
  discriminate Ht.
Qed.

Lemma asterisk_text_is_cut_at_zero_witness :
  extractTextFromChunk (Buffer_from_utf8 (lit "total * 100 items")) = lit "1"
  /\ ~ In 48 (extractTextFromChunk
                (Buffer_from_utf8 (lit "total * 100 items"))).
Proof.
  split; [reflexivity |].
  apply (asterisk_text_is_cut_at_zero
           (Buffer_from_utf8 (lit "total * 100 items"))).
  vm_compute. discriminate.
Defined.

(* ====================================================================== *)
(** * Further properties of [streamChat] *)
(* ====================================================================== *)

Section PushLog.
Import Push.

Lemma fragments_app (a b : list Buffer) :
  fragments (a ++ b) = fragments a ++ fragments b.
Proof. unfold fragments. rewrite map_app, filter_app. reflexivity. Qed.

Lemma consistentLog_snoc (cs : list call) :
  forall (seen : list jsstring) (c : call),
    Observe.consistentLog seen cs ->
    match c with
    | onChunk t => truthy t = true
    | onComplete t => t = join (seen ++ chunkCalls cs)
    | onError _ => True
    end ->
    Observe.consistentLog seen (cs ++ [c]).
Proof.
  induction cs as [| d cs IH]; intros seen c Hcs Hc.
  - cbn [app Observe.consistentLog]. unfold chunkCalls in Hc.
    cbn [flat_map] in Hc. rewrite ?app_nil_r in Hc.
    destruct c; auto.
  - cbn [app]. destruct d as [t | t | e]; cbn [Observe.consistentLog] in *.
    + destruct Hcs as [Ht Hcs]. split; [exact Ht |].
      apply IH; [exact Hcs |].
      destruct c; auto. rewrite <- app_assoc. exact Hc.
    + destruct Hcs as [Ht Hcs]. split; [exact Ht |].
      apply IH; [exact Hcs |]. destruct c; auto.
    + apply IH; [exact Hcs |]. destruct c; auto.
Qed.

Lemma step_logInvariant (s s' : State) (o : occurrence) :
  Observe.logInvariant s -> step s o = inr s' -> Observe.logInvariant s'.
Proof.
  intros (Hlog & Hchunks & Hres).
  assert (Hfail : forall e x,
             Observe.logInvariant
               (settle (reject e) (invoke (onError x) s))).
  { intros e x. repeat split; cbn.
    - apply consistentLog_snoc; [exact Hlog | exact I].
    - rewrite chunkCalls_app. cbn. rewrite app_nil_r. exact Hchunks.
    - intros v Hv. apply in_or_app. left. apply Hres.
      destruct (settled s); cbn in Hv; congruence. }
  assert (Hdone : forall n t,
             Observe.logInvariant
               (settle (resolve (join (chunks s)))
                  (invoke (onComplete (join (chunks s)))
                     {| body := body s; chunks := chunks s;
                        settled := settled s; calls := calls s;
                        closes := n; written := written s;
                        timer := t |}))).
  { intros n t. repeat split; cbn.
    - apply consistentLog_snoc; [exact Hlog |]. cbn. rewrite Hchunks.
      reflexivity.
    - rewrite chunkCalls_app. cbn. rewrite app_nil_r. exact Hchunks.
    - intros v Hv. apply in_or_app.
      destruct (settled s) eqn:Es; cbn in Hv.
      + right. injection Hv as <-. left. reflexivity.
      + left. apply Hres. exact Hv.
      + discriminate. }
  destruct o as [[msg | | chunk | status message | | msg] |]; cbn [step].
  - intros [= <-]. apply Hfail.
  - intros [= <-]. repeat split; assumption.
  - destruct (requestOpen s); [| intros [= <-]; repeat split; assumption].
    destruct (truthy (extractTextFromChunk chunk)) eqn:Et;
      [| intros [= <-]; repeat split; assumption].
    intros [= <-]. repeat split; cbn.
    + apply consistentLog_snoc; [exact Hlog | exact Et].
    + rewrite chunkCalls_app. cbn. rewrite Hchunks. reflexivity.
    + intros v Hv. apply in_or_app. left. apply Hres. exact Hv.
  - destruct (requestOpen s && statusNotZero status);
      [| intros [= <-]; repeat split; assumption].
    destruct (grpcError status message); [discriminate |].
    intros [= <-]. apply Hfail.
  - destruct (requestOpen s); [| intros [= <-]; repeat split; assumption].
    intros [= <-]. apply Hdone.
  - destruct (requestOpen s); [| intros [= <-]; repeat split; assumption].
    intros [= <-].
    apply (Hfail (WindsurfError (lit "Request failed: " ++ msg)
                                STREAM_ERROR (Some msg))
                 (TransportError msg)).
  - destruct (timer s); [| intros [= <-]; repeat split; assumption].
    intros [= <-]. apply Hdone.
Qed.

Lemma run_logInvariant (os : list occurrence) :
  forall s s', Observe.logInvariant s -> run s os = inr s' -> Observe.logInvariant s'.
Proof.
  induction os as [| o os IH]; intros s s' Hs; cbn [run].
  - intros [= <-]. exact Hs.
  - destruct (step s o) as [| s1] eqn:E; [discriminate |].
    apply IH. exact (step_logInvariant _ _ _ Hs E).
Qed.

(** Before 'connect' no request exists, so nothing the stream would emit
    is heard. *)
Lemma step_without_request (s : State) (o : occurrence) :
  written s = [] -> Observe.opensRequest o = false ->
  exists s',
    step s o = inr s' /\ written s' = []
    /\ chunkCalls (calls s') = chunkCalls (calls s)
    /\ (settled s <> Pending -> settled s' = settled s).
Proof.
  intros Hw Ho.
  assert (Hopen : requestOpen s = false) by (unfold requestOpen; rewrite Hw; reflexivity).
  destruct o as [[msg | | chunk | status message | | msg] |];
    try discriminate Ho; cbn [step]; rewrite ?Hopen; cbn [andb].
  - eexists. split; [reflexivity |]. cbn. repeat split; [exact Hw | |].
    + rewrite chunkCalls_app. cbn. apply app_nil_r.
    + intros Hs. destruct (settled s); [contradiction | reflexivity ..].
  - exists s. auto.
  - exists s. auto.
  - exists s. auto.
  - exists s. auto.
  - destruct (timer s); [| exists s; auto].
    eexists. split; [reflexivity |]. cbn. repeat split; [exact Hw | |].
    + rewrite chunkCalls_app. cbn. apply app_nil_r.
    + intros Hs. destruct (settled s); [contradiction | reflexivity ..].
Qed.

End PushLog.

(** X13.  The timer of [streamChat] is set to 120000 ms.  When it fires
    while the call is still pending (the transport has connected and
    delivered chunks, or has not even connected), the connection is
    closed, [onComplete] gets the text gathered so far and the promise
    resolves with it: a timeout is not an error of [streamChat]. *)
Theorem timeout_resolves_with_the_text_so_far
    (frame : Buffer) (chunks : list Buffer) :
  Push.timer (Push.start frame) = Some 120000
  /\ (exists s,
        Push.run (Push.start frame)
          (map Push.Emit (ClientConnect :: map ReqData chunks)
             ++ [Push.TimerFires])
        = inr s
        /\ Push.settled s = Push.Resolved (join (Push.fragments chunks))
        /\ Push.completeCalls (Push.calls s) = [join (Push.fragments chunks)]
        /\ Push.closes s = 1%nat /\ Push.timer s = None)
  /\ (exists s,
        Push.run (Push.start frame) [Push.TimerFires] = inr s
        /\ Push.settled s = Push.Resolved []
        /\ Push.calls s = [Push.onComplete []]
        /\ Push.closes s = 1%nat /\ Push.written s = []).
Proof.
  split; [reflexivity |]. split.
  - rewrite run_app. cbn [map Push.run Push.step].
    rewrite run_data by reflexivity.
    cbn. eexists. split; [reflexivity |]. cbn.
    rewrite completeCalls_app, completeCalls_onChunk. auto.
  - eexists. split; [reflexivity |]. cbn. auto.
Qed.

(** X14.  The timer is never cleared.  When the stream has ended normally
    (chunks, trailers with status 0, 'end') and the timer fires
    afterwards, [client.close()] is called a second time and [onComplete]
    is called a second time with the same text; the promise keeps its
    value. *)
Theorem timer_calls_onComplete_again
    (frame : Buffer) (chunks : list Buffer) (message : option jsstring) :
  exists s,
    Push.run (Push.start frame)
      (map Push.Emit
         (ClientConnect :: map ReqData chunks
            ++ [ReqTrailers (Some (lit "0")) message; ReqEnd])
         ++ [Push.TimerFires])
    = inr s
    /\ Push.settled s = Push.Resolved (join (Push.fragments chunks))
    /\ Push.completeCalls (Push.calls s)
       = [join (Push.fragments chunks); join (Push.fragments chunks)]
    /\ Push.closes s = 2%nat.
Proof.
  rewrite run_app. cbn [map]. rewrite map_app. cbn [map Push.run Push.step].
  rewrite run_app, run_data by reflexivity.
  cbn. eexists. split; [reflexivity |]. cbn.
  rewrite <- !app_assoc, completeCalls_app, completeCalls_onChunk. auto.
Qed.

(** X15.  After trailers with a status other than "0" the 'end' of the
    stream still runs its listener: [onError] has been called with the
    stream error, and then [onComplete] is called with the text gathered,
    on a promise that stays rejected. *)
Theorem failed_stream_still_calls_onComplete
    (frame : Buffer) (chunks : list Buffer)
    (status message decoded : jsstring) :
  status <> lit "0" ->
  decodeURIComponent message = inr decoded ->
  exists s err,
    Push.run (Push.start frame)
      (map Push.Emit
         (ClientConnect :: map ReqData chunks
            ++ [ReqTrailers (Some status) (Some message); ReqEnd]))
    = inr s
    /\ grpcError (Some status) (Some message) = inr err
    /\ Push.settled s = Push.Rejected err
    /\ Push.calls s
       = map Push.onChunk (Push.fragments chunks)
           ++ [Push.onError err;
               Push.onComplete (join (Push.fragments chunks))]
    /\ Push.closes s = 1%nat.
Proof.
  intros Hstatus Hdecoded.
  destruct (grpcError_text status message decoded Hdecoded)
    as (text & Herr & _).
  pose proof (statusNotZero_other status Hstatus) as Hnz.
  cbn [map]. rewrite map_app. cbn [map Push.run Push.step].
  rewrite run_app, run_data by reflexivity.
  cbn [Push.run Push.step Push.requestOpen Push.written Push.sendRequest
       Push.start app andb].
  rewrite Hnz, Herr. cbn.
  eexists. eexists. split; [reflexivity |]. cbn.
  rewrite <- !app_assoc. auto.
Qed.

Lemma failed_stream_still_calls_onComplete_witness :
  exists s err,
    Push.run (Push.start [])
      (map Push.Emit
         (ClientConnect
            :: map ReqData [Buffer_from_utf8 (lit "partial answer")]
            ++ [ReqTrailers (Some (lit "13")) (Some (lit "boom")); ReqEnd]))
    = inr s
    /\ grpcError (Some (lit "13")) (Some (lit "boom")) = inr err
    /\ Push.settled s = Push.Rejected err
    /\ Push.calls s
       = map Push.onChunk
             (Push.fragments [Buffer_from_utf8 (lit "partial answer")])
           ++ [Push.onError err;
               Push.onComplete
                 (join (Push.fragments
                          [Buffer_from_utf8 (lit "partial answer")]))]
    /\ Push.closes s = 1%nat.
Proof.
  apply (failed_stream_still_calls_onComplete
           [] [Buffer_from_utf8 (lit "partial answer")]
           (lit "13") (lit "boom") (lit "boom")).
  - vm_compute. discriminate.
  - vm_compute. reflexivity.
Defined.

(** X16.  Whatever the transport and the timer do, in whatever order:
    [onChunk] is never called with an empty text, every call of
    [onComplete] gets the concatenation of the texts handed to [onChunk]
    before it, [chunks] holds exactly the texts handed to [onChunk], and a
    promise resolves only with a value that was handed to [onComplete]. *)
Theorem callbacks_are_consistent
    (frame : Buffer) (os : list Push.occurrence) (s : Push.State) :
  Push.run (Push.start frame) os = inr s ->
  Observe.consistentLog [] (Push.calls s)
  /\ Push.chunks s = Push.chunkCalls (Push.calls s)
  /\ forall v, Push.settled s = Push.Resolved v ->
               In (Push.onComplete v) (Push.calls s).
Proof.
  intros Hrun.
  apply (run_logInvariant os (Push.start frame) s); [| exact Hrun].
  split; [exact I |]. split; [reflexivity |].
  intros v Hv. discriminate Hv.
Qed.

Lemma callbacks_are_consistent_witness :
  exists s,
    Push.run (Push.start []) Push.helloWorld = inr s
    /\ Observe.consistentLog [] (Push.calls s)
    /\ Push.chunks s = Push.chunkCalls (Push.calls s)
    /\ forall v, Push.settled s = Push.Resolved v ->
                 In (Push.onComplete v) (Push.calls s).
Proof.
  eexists. split; [vm_compute; reflexivity |].
  exact (callbacks_are_consistent [] Push.helloWorld _ eq_refl).
Defined.

(** X17.  When the connection fails before 'connect', the promise is
    rejected with a [WindsurfError] of code [CONNECTION_FAILED] that
    carries the cause, and whatever happens afterwards short of a
    'connect' (stream events, further errors, the timer) no request is
    written, no chunk reaches [onChunk] and the promise stays rejected. *)
Theorem connection_failure_delivers_nothing
    (frame : Buffer) (msg : jsstring) (later : list Push.occurrence) :
  forallb (fun o => negb (Observe.opensRequest o)) later = true ->
  exists s,
    Push.run (Push.start frame) (Push.Emit (ClientError msg) :: later)
    = inr s
    /\ Push.settled s
       = Push.Rejected (WindsurfError (lit "Connection failed: " ++ msg)
                                      CONNECTION_FAILED (Some msg))
    /\ Push.chunkCalls (Push.calls s) = []
    /\ Push.written s = [].
Proof.
  intros Hlater. cbn [Push.run Push.step].
  set (s0 := Push.settle _ _).
  assert (H0 : Push.written s0 = [] /\ Push.chunkCalls (Push.calls s0) = []
               /\ Push.settled s0
                  = Push.Rejected
                      (WindsurfError (lit "Connection failed: " ++ msg)
                                     CONNECTION_FAILED (Some msg)))
    by (repeat split).
  clearbody s0. revert s0 H0.
  induction later as [| o later IH]; intros s0 (Hw & Hc & Hs).
  - exists s0. cbn. auto.
  - cbn [forallb] in Hlater. apply andb_true_iff in Hlater.
    destruct Hlater as [Ho Hrest]. apply negb_true_iff in Ho.
    destruct (step_without_request s0 o Hw Ho) as (s1 & Hstep & Hw1 & Hc1 & Hs1).
    cbn [Push.run]. rewrite Hstep. apply (IH Hrest).
    repeat split; [exact Hw1 | congruence |].
    rewrite Hs1; [exact Hs | rewrite Hs; discriminate].
Qed.

Lemma connection_failure_delivers_nothing_witness :
  exists s,
    Push.run (Push.start [])
      (Push.Emit (ClientError (lit "ECONNREFUSED"))
         :: [Push.Emit (ReqData (Buffer_from_utf8 (lit "late")));
             Push.TimerFires])
    = inr s
    /\ Push.settled s
       = Push.Rejected
           (WindsurfError (lit "Connection failed: " ++ lit "ECONNREFUSED")
                          CONNECTION_FAILED (Some (lit "ECONNREFUSED")))
    /\ Push.chunkCalls (Push.calls s) = []
    /\ Push.written s = [].
Proof.
  apply (connection_failure_delivers_nothing
           [] (lit "ECONNREFUSED")
           [Push.Emit (ReqData (Buffer_from_utf8 (lit "late")));
            Push.TimerFires]).
  reflexivity.
Defined.

(* ====================================================================== *)
(** * Further properties of [streamChatGenerator] *)
(* ====================================================================== *)

Section PullOrder.
Import Pull.

Lemma yielded_app (a b : list outcome) :
  Observe.yielded (a ++ b) = Observe.yielded a ++ Observe.yielded b.
Proof. unfold Observe.yielded. apply flat_map_app. Qed.

Lemma yielded_ended (k : nat) : Observe.yielded (repeat Return k) = [].
Proof. induction k as [| k IH]; [reflexivity | exact IH]. Qed.

(** A run of the body moves fragments from the head of the queue to the
    consumer, in order. *)
Lemma drive_keeps_order (n : nat) :
  forall g before,
    Observe.yielded (outcomes (drive n g before))
      ++ chunkQueue (gen (drive n g before))
    = Observe.yielded before ++ chunkQueue g.
Proof.
  induction n as [| n IH]; intros g before; [reflexivity |].
  rewrite drive_S. turn g.
  - cbn [outcomes gen chunkQueue]. rewrite yielded_app. cbn.
    rewrite yielded_ended, !app_nil_r. reflexivity.
  - cbn [outcomes gen chunkQueue]. rewrite yielded_app. cbn.
    rewrite yielded_ended, !app_nil_r. reflexivity.
  - reflexivity.
  - rewrite IH, yielded_app. cbn. rewrite <- app_assoc. reflexivity.
Qed.

Lemma step_queue (g g' : State) (e : event) :
  step g e = inr g' ->
  chunkQueue g'
  = chunkQueue g
      ++ Push.fragments (Observe.delivered [Happen e]).
Proof.
  destruct e as [msg | | chunk | status message | | msg];
    cbn [step Observe.delivered flat_map app];
    unfold Push.fragments; cbn [map filter].
  - intros [= <-]. cbn. rewrite app_nil_r. reflexivity.
  - intros [= <-]. rewrite app_nil_r. reflexivity.
  - destruct (truthy (extractTextFromChunk chunk)); intros [= <-]; cbn;
      rewrite ?app_nil_r; reflexivity.
  - destruct (statusNotZero status);
      [| intros [= <-]; rewrite app_nil_r; reflexivity].
    destruct (grpcError status message); [discriminate |].
    intros [= <-]. cbn. rewrite app_nil_r. reflexivity.
  - intros [= <-]. cbn. rewrite app_nil_r. reflexivity.
  - intros [= <-]. cbn. rewrite app_nil_r. reflexivity.
Qed.

Lemma act_keeps_order (ss ss' : Session) (a : action) :
  act ss a = inr ss' ->
  Observe.yielded (outcomes ss') ++ chunkQueue (gen ss')
  = (Observe.yielded (outcomes ss) ++ chunkQueue (gen ss))
      ++ Push.fragments (Observe.delivered [a]).
Proof.
  destruct a as [e | |]; cbn [act].
  - destruct (step (gen ss) e) as [| g] eqn:Es; [discriminate |].
    apply step_queue in Es. intros [= <-]. cbn [gen outcomes].
    rewrite Es, app_assoc. reflexivity.
  - change (Push.fragments (Observe.delivered [CallNext]))
      with (@nil jsstring).
    rewrite app_nil_r.
    destruct (finished (gen ss)).
    + intros [= <-]. cbn. rewrite yielded_app. cbn.
      rewrite app_nil_r. reflexivity.
    + destruct (pending ss); intros [= <-];
        [apply (drive_keeps_order 1) | reflexivity].
  - change (Push.fragments (Observe.delivered [Resume]))
      with (@nil jsstring).
    rewrite app_nil_r.
    destruct (resolveWait (gen ss) && woken (gen ss)); intros [= <-];
      [apply drive_keeps_order | reflexivity].
Qed.

Lemma play_keeps_order (acts : list action) :
  forall ss ss',
    play ss acts = inr ss' ->
    Observe.yielded (outcomes ss') ++ chunkQueue (gen ss')
    = (Observe.yielded (outcomes ss) ++ chunkQueue (gen ss))
        ++ Push.fragments (Observe.delivered acts).
Proof.
  induction acts as [| a acts IH]; intros ss ss'; cbn [play].
  - intros [= <-]. cbn. rewrite app_nil_r. reflexivity.
  - destruct (act ss a) as [| ss1] eqn:Ea; [discriminate |].
    intros Hplay. rewrite (IH _ _ Hplay), (act_keeps_order _ _ _ Ea).
    change (a :: acts) with ([a] ++ acts).
    unfold Observe.delivered at 3. rewrite flat_map_app.
    fold (Observe.delivered [a]). fold (Observe.delivered acts).
    rewrite fragments_app, app_assoc. reflexivity.
Qed.

End PullOrder.

(** X18.  The generator loses, repeats and reorders nothing: in every
    interleaving of transport events and calls of [next()], the fragments
    the consumer has received followed by those still in the queue are
    exactly the fragments of the chunks delivered so far, in the order of
    their arrival. *)
Theorem generator_yields_in_arrival_order
    (frame : Buffer) (acts : list Pull.action) (ss : Pull.Session) :
  Pull.play (Pull.session frame) acts = inr ss ->
  Observe.yielded (Pull.outcomes ss) ++ Pull.chunkQueue (Pull.gen ss)
  = Push.fragments (Observe.delivered acts).
Proof.
  intros Hplay. rewrite (play_keeps_order acts _ _ Hplay). reflexivity.
Qed.

Lemma generator_yields_in_arrival_order_witness :
  exists ss,
    Pull.play (Pull.session [])
      [Pull.CallNext;
       Pull.CallNext;
       Pull.Happen (ReqData (Buffer_from_utf8 (lit "Hel")));
       Pull.Happen (ReqData (Buffer_from_utf8 (lit "lo")));
       Pull.Resume;
       Pull.Happen (ReqData (Buffer_from_utf8 (lit " world")))]
    = inr ss
    /\ Pull.outcomes ss = [Pull.Yield (lit "Hel"); Pull.Yield (lit "lo")]
    /\ Pull.chunkQueue (Pull.gen ss) = [lit "world"]
    /\ Observe.yielded (Pull.outcomes ss) ++ Pull.chunkQueue (Pull.gen ss)
       = Push.fragments
           (Observe.delivered
              [Pull.CallNext;
               Pull.CallNext;
               Pull.Happen (ReqData (Buffer_from_utf8 (lit "Hel")));
               Pull.Happen (ReqData (Buffer_from_utf8 (lit "lo")));
               Pull.Resume;
               Pull.Happen (ReqData (Buffer_from_utf8 (lit " world")))]).
Proof.
  eexists. split; [vm_compute; reflexivity |].
  split; [reflexivity |]. split; [reflexivity |].
  exact (generator_yields_in_arrival_order
           []
           [Pull.CallNext;
            Pull.CallNext;
            Pull.Happen (ReqData (Buffer_from_utf8 (lit "Hel")));
            Pull.Happen (ReqData (Buffer_from_utf8 (lit "lo")));
            Pull.Resume;
            Pull.Happen (ReqData (Buffer_from_utf8 (lit " world")))]
           _ eq_refl).
Defined.

Section PullAccounts.
Import Pull.

Lemma drive_closes (n : nat) :
  forall g before, closes (gen (drive n g before)) = closes g.
Proof.
  induction n as [| n IH]; intros g before; [reflexivity |].
  rewrite drive_S. turn g; try reflexivity.
  rewrite IH. reflexivity.
Qed.

Lemma act_closes (ss ss' : Session) (a : action) :
  act ss a = inr ss' ->
  closes (gen ss')
  = (closes (gen ss) + if Observe.closesClient a then 1 else 0)%nat.
Proof.
  destruct a as [e | |]; cbn [act].
  - destruct (step (gen ss) e) as [| g] eqn:Es; [discriminate |].
    intros [= <-]. cbn [gen].
    destruct e as [msg | | chunk | status message | | msg];
      cbn [step] in Es; cbn [Observe.closesClient].
    + injection Es as <-. cbn. lia.
    + injection Es as <-. lia.
    + destruct (truthy _); injection Es as <-; cbn; lia.
    + destruct (statusNotZero status); [| injection Es as <-; lia].
      destruct (grpcError status message); [discriminate |].
      injection Es as <-. cbn. lia.
    + injection Es as <-. cbn. lia.
    + injection Es as <-. cbn. lia.
  - cbn [Observe.closesClient]. rewrite Nat.add_0_r.
    destruct (finished (gen ss)); [intros [= <-]; reflexivity |].
    destruct (pending ss); intros [= <-];
      [apply (drive_closes 1) | reflexivity].
  - cbn [Observe.closesClient]. rewrite Nat.add_0_r.
    destruct (resolveWait (gen ss) && woken (gen ss)); intros [= <-];
      [apply drive_closes | reflexivity].
Qed.

Lemma play_closes (acts : list action) :
  forall ss ss',
    play ss acts = inr ss' ->
    closes (gen ss')
    = (closes (gen ss) + length (filter Observe.closesClient acts))%nat.
Proof.
  induction acts as [| a acts IH]; intros ss ss'; cbn [play filter].
  - intros [= <-]. cbn. lia.
  - destruct (act ss a) as [| ss1] eqn:Ea; [discriminate |].
    intros Hplay. rewrite (IH _ _ Hplay), (act_closes _ _ _ Ea).
    destruct (Observe.closesClient a); cbn [length]; lia.
Qed.

Lemma pull_run_queue (es : list event) :
  forall g g',
    run g es = inr g' ->
    chunkQueue g' = chunkQueue g ++ Push.fragments (Observe.chunksOf es).
Proof.
  induction es as [| e es IH]; intros g g'; cbn [run].
  - intros [= <-]. cbn. rewrite app_nil_r. reflexivity.
  - destruct (step g e) as [| g1] eqn:Es; [discriminate |].
    intros Hrun. rewrite (IH _ _ Hrun), (step_queue _ _ _ Es).
    rewrite <- app_assoc. f_equal.
    change (e :: es) with ([e] ++ es).
    unfold Observe.chunksOf at 2. rewrite flat_map_app.
    fold (Observe.chunksOf es). rewrite fragments_app.
    f_equal; destruct e; reflexivity.
Qed.

Lemma push_run_chunks (es : list event) :
  forall s s',
    Push.requestOpen s = true ->
    Push.run s (map Push.Emit es) = inr s' ->
    Push.chunks s' = Push.chunks s ++ Push.fragments (Observe.chunksOf es).
Proof.
  induction es as [| e es IH]; intros s s' Hopen; cbn [map Push.run].
  - intros [= <-]. cbn. rewrite app_nil_r. reflexivity.
  - destruct (Push.step s (Push.Emit e)) as [| s1] eqn:Es; [discriminate |].
    intros Hrun.
    assert (H1 : Push.requestOpen s1 = true
                 /\ Push.chunks s1
                    = Push.chunks s ++ Push.fragments (Observe.chunksOf [e])).
    { unfold Push.fragments.
      destruct e as [msg | | chunk | status message | | msg];
        cbn [Push.step] in Es; rewrite ?Hopen in Es;
        cbn [Observe.chunksOf flat_map app map filter andb] in *.
      - injection Es as <-. cbn. rewrite app_nil_r. auto.
      - injection Es as <-. cbn. rewrite app_nil_r. split; [| reflexivity].
        unfold Push.requestOpen. cbn. destruct (Push.written s); reflexivity.
      - destruct (truthy (extractTextFromChunk chunk));
          injection Es as <-; cbn; rewrite ?app_nil_r; auto.
      - destruct (statusNotZero status);
          [| injection Es as <-; rewrite app_nil_r; auto].
        destruct (grpcError status message); [discriminate |].
        injection Es as <-. cbn. rewrite app_nil_r. auto.
      - injection Es as <-. cbn. rewrite app_nil_r. auto.
      - injection Es as <-. cbn. rewrite app_nil_r. auto. }
    destruct H1 as [Hopen1 Hchunks1].
    rewrite (IH _ _ Hopen1 Hrun), Hchunks1, <- app_assoc. f_equal.
    change (e :: es) with ([e] ++ es).
    unfold Observe.chunksOf at 3. rewrite flat_map_app.
    fold (Observe.chunksOf es). fold (Observe.chunksOf [e]).
    rewrite fragments_app. reflexivity.
Qed.

End PullAccounts.

(** X19.  The generator calls [client.close()] in two listeners only,
    'end' and 'error' of the stream: in every interleaving the number of
    calls is the number of these events.  An error of the connection, or
    a consumer that stops calling [next()], leaves the connection open. *)
Theorem generator_closes_only_on_stream_end
    (frame : Buffer) (acts : list Pull.action) (ss : Pull.Session) :
  Pull.play (Pull.session frame) acts = inr ss ->
  Pull.closes (Pull.gen ss) = length (filter Observe.closesClient acts).
Proof.
  intros Hplay. rewrite (play_closes acts _ _ Hplay). reflexivity.
Qed.

Lemma generator_closes_only_on_stream_end_witness :
  exists ss,
    Pull.play (Pull.session [])
      [Pull.CallNext;
       Pull.Happen (ReqData (Buffer_from_utf8 (lit "Hel")));
       Pull.Resume;
       Pull.Happen (ClientError (lit "ECONNRESET"));
       Pull.CallNext; Pull.CallNext]
    = inr ss
    /\ Pull.outcomes ss
       = [Pull.Yield (lit "Hel");
          Pull.Throw (WindsurfError (lit "Connection failed: ECONNRESET")
                                    CONNECTION_FAILED
                                    (Some (lit "ECONNRESET")));
          Pull.Return]
    /\ Pull.closes (Pull.gen ss) = 0%nat.
Proof.
  eexists. split; [vm_compute; reflexivity |]. split; [reflexivity |].
  exact (generator_closes_only_on_stream_end
           []
           [Pull.CallNext;
            Pull.Happen (ReqData (Buffer_from_utf8 (lit "Hel")));
            Pull.Resume;
            Pull.Happen (ClientError (lit "ECONNRESET"));
            Pull.CallNext; Pull.CallNext]
           _ eq_refl).
Defined.

(** X20.  The two interfaces extract the same text: for the same events
    of the transport (after 'connect' in push mode), [chunks] of
    [streamChat] and the queue of a generator nobody has read from hold
    the same fragments, those of the chunks delivered, in order. *)
Theorem push_and_pull_gather_the_same_fragments
    (frame : Buffer) (es : list event) (s : Push.State) (g : Pull.State) :
  Push.run (Push.start frame) (map Push.Emit (ClientConnect :: es)) = inr s ->
  Pull.run (Pull.start frame) es = inr g ->
  Push.chunks s = Push.fragments (Observe.chunksOf es)
  /\ Pull.chunkQueue g = Push.fragments (Observe.chunksOf es).
Proof.
  intros Hpush Hpull. split.
  - cbn [map Push.run Push.step] in Hpush.
    rewrite (push_run_chunks es (Push.sendRequest (Push.start frame)) s
               eq_refl Hpush).
    reflexivity.
  - rewrite (pull_run_queue es _ _ Hpull). reflexivity.
Qed.

Lemma push_and_pull_gather_the_same_fragments_witness :
  exists s g,
    Push.run (Push.start [])
      (map Push.Emit
         (ClientConnect
            :: [ReqData (Buffer_from_utf8 (lit "Hel"));
                ReqData [0; 0; 0; 0; 5];
                ReqData (Buffer_from_utf8 (lit "lo")); ReqEnd]))
    = inr s
    /\ Pull.run (Pull.start [])
         [ReqData (Buffer_from_utf8 (lit "Hel"));
          ReqData [0; 0; 0; 0; 5];
          ReqData (Buffer_from_utf8 (lit "lo")); ReqEnd]
       = inr g
    /\ Push.chunks s = [lit "Hel"; lit "lo"]
    /\ Pull.chunkQueue g = [lit "Hel"; lit "lo"].
Proof.
  eexists. eexists.
  split; [vm_compute; reflexivity |]. split; [vm_compute; reflexivity |].
  exact (push_and_pull_gather_the_same_fragments
           []
           [ReqData (Buffer_from_utf8 (lit "Hel"));
            ReqData [0; 0; 0; 0; 5];
            ReqData (Buffer_from_utf8 (lit "lo")); ReqEnd]
           _ _ eq_refl eq_refl).
Defined.

(* ====================================================================== *)
(** * Trailers with a status other than 0 *)
(* ====================================================================== *)

Section TrailerFacts.

(** The text of the error for a non-zero status. *)
Lemma grpcError_exact (status message decoded : jsstring) :
  decodeURIComponent message = inr decoded ->
  grpcError (Some status) (Some message)
  = inr (WindsurfError
           (lit "gRPC error " ++ status ++ lit ": "
              ++ (if truthy message then decoded else lit "Unknown error"))
           STREAM_ERROR None).
Proof.
  intros Hd. unfold grpcError. destruct message as [| c m]; [reflexivity |].
  rewrite Hd. reflexivity.
Qed.

(** The consumer's side never throws in a listener. *)
Lemma play_ofConsumer (acts : list Pull.action) :
  forall ss,
    forallb Pull.ofConsumer acts = true ->
    exists ss', Pull.play ss acts = inr ss'.
Proof.
  induction acts as [| a acts IH]; intros ss Hacts; [eexists; reflexivity |].
  cbn [forallb] in Hacts. apply andb_true_iff in Hacts.
  destruct Hacts as [Ha Hrest].
  assert (Hact : exists ss1, Pull.act ss a = inr ss1).
  { destruct a as [e | |]; [discriminate Ha | |]; cbn [Pull.act].
    - destruct (Pull.finished (Pull.gen ss)); [eexists; reflexivity |].
      destruct (Pull.pending ss); eexists; reflexivity.
    - destruct (Pull.resolveWait (Pull.gen ss) && Pull.woken (Pull.gen ss));
        eexists; reflexivity. }
  destruct Hact as (ss1 & Hact). cbn [Pull.play]. rewrite Hact.
  apply IH. exact Hrest.
Qed.

Lemma ofConsumer_facts (acts : list Pull.action) :
  forallb Pull.ofConsumer acts = true ->
  forallb (fun a => negb (Pull.endsStream a)) acts = true
  /\ Pull.lastFailure acts = None
  /\ Observe.delivered acts = [].
Proof.
  induction acts as [| a acts IH]; intros Hacts; [auto |].
  cbn [forallb] in Hacts. apply andb_true_iff in Hacts.
  destruct Hacts as [Ha Hrest].
  destruct (IH Hrest) as (H1 & H2 & H3).
  destruct a as [e | |]; [discriminate Ha | |];
    cbn [forallb Pull.endsStream negb andb Pull.lastFailure];
    rewrite H1, H2; auto.
Qed.

Lemma lastFailure_app (a b : list Pull.action) :
  Pull.lastFailure (a ++ b)
  = match Pull.lastFailure b with
    | Some e => Some e
    | None => Pull.lastFailure a
    end.
Proof.
  induction a as [| x a IH]; cbn [app Pull.lastFailure].
  - destruct (Pull.lastFailure b); reflexivity.
  - rewrite IH. destruct (Pull.lastFailure b); reflexivity.
Qed.

Lemma delivered_app (a b : list Pull.action) :
  Observe.delivered (a ++ b) = Observe.delivered a ++ Observe.delivered b.
Proof. unfold Observe.delivered. apply flat_map_app. Qed.

Lemma yielded_fragments (q : list jsstring) :
  Observe.yielded (map Pull.Yield q) = q
  /\ forallb (fun o => negb (Pull.settles o)) (map Pull.Yield q) = true.
Proof.
  induction q as [| t q [IH1 IH2]]; [auto |].
  cbn. unfold Observe.yielded in IH1. rewrite IH1, IH2. auto.
Qed.

(** Chunks and a non-zero trailer in any interleaving with the
    consumer, then the end of the stream: the consumer that goes on to
    the end has received the fragments of all the chunks, and the first
    call that does not yield throws the error of the trailer. *)
Lemma generator_fails_on_nonzero_trailer
    (frame : Buffer) (status message decoded : jsstring)
    (pre post : list Pull.action) (ss : Pull.Session) :
  status <> lit "0" ->
  decodeURIComponent message = inr decoded ->
  Pull.play (Pull.session frame) pre = inr ss ->
  forallb (fun a => negb (Pull.endsStream a)) pre = true ->
  forallb Pull.ofConsumer post = true ->
  exists ss1 ss2 before,
    Pull.play ss
      (Pull.Happen (ReqTrailers (Some status) (Some message))
         :: post ++ [Pull.Happen ReqEnd])
    = inr ss1
    /\ Pull.play ss1 (Pull.drain ss1) = inr ss2
    /\ Observe.yielded (Pull.outcomes ss2)
       = Push.fragments (Observe.delivered pre)
    /\ Pull.outcomes ss2
       = before
         ++ Pull.Throw
              (WindsurfError
                 (lit "gRPC error " ++ status ++ lit ": "
                    ++ (if truthy message then decoded
                        else lit "Unknown error"))
                 STREAM_ERROR None)
         :: repeat Pull.Return (Pull.pending ss1)
    /\ forallb (fun o => negb (Pull.settles o)) before = true.
Proof.
  intros Hstatus Hdecoded Hpre Hquiet Hpost.
  pose proof (grpcError_exact status message decoded Hdecoded) as Herr.
  pose proof (statusNotZero_other status Hstatus) as Hnz.
  set (err := WindsurfError _ STREAM_ERROR None) in *.
  destruct (ofConsumer_facts post Hpost) as (Hpost1 & Hpost2 & Hpost3).
  (* the trailer *)
  set (trailers := Pull.Happen (ReqTrailers (Some status) (Some message))).
  assert (Htrail : Pull.act ss trailers
                   = inr {| Pull.gen := Pull.setError err (Pull.gen ss);
                            Pull.pending := Pull.pending ss;
                            Pull.outcomes := Pull.outcomes ss |}).
  { subst trailers. cbn [Pull.act Pull.step]. rewrite Hnz, Herr. reflexivity. }
  destruct (play_ofConsumer post
              {| Pull.gen := Pull.setError err (Pull.gen ss);
                 Pull.pending := Pull.pending ss;
                 Pull.outcomes := Pull.outcomes ss |} Hpost)
    as (ssp & Hplayp).
  set (ss1 := {| Pull.gen := Pull.wake (Pull.close (Pull.setDone (Pull.gen ssp)));
                 Pull.pending := Pull.pending ssp;
                 Pull.outcomes := Pull.outcomes ssp |}).
  assert (Hrest : Pull.play ss (trailers :: post ++ [Pull.Happen ReqEnd])
                  = inr ss1).
  { cbn [Pull.play]. rewrite Htrail, play_app, Hplayp. reflexivity. }
  assert (Hall : Pull.play (Pull.session frame)
                   (pre ++ trailers :: post ++ [Pull.Happen ReqEnd])
                 = inr ss1)
    by (rewrite play_app, Hpre; exact Hrest).
  (* the state when the stream ends *)
  destruct (play_goes_on pre _ _ Hquiet Hpre eq_refl eq_refl eq_refl)
    as (Hd0 & Hf0 & _ & Ho0).
  destruct (play_goes_on post _ _ Hpost1 Hplayp Hd0 Hf0 Ho0)
    as (Hdp & Hfp & _ & Hop).
  pose proof (play_error post _ _ Hplayp) as Hep.
  rewrite Hpost2 in Hep. cbn in Hep.
  pose proof (play_coherent _ _ _
                (eq_refl : Pull.coherent (Pull.session frame)) Hall) as Hc.
  destruct (drain_outcomes ss1 Hc eq_refl Hfp) as (ss2 & Hdrain & _ & Hout).
  change (Pull.error_ (Pull.gen ss1)) with (Pull.error_ (Pull.gen ssp)) in Hout.
  rewrite Hep in Hout.
  destruct (yielded_fragments (Pull.chunkQueue (Pull.gen ss1))) as [Hy Hn].
  exists ss1, ss2,
    (Pull.outcomes ss1 ++ map Pull.Yield (Pull.chunkQueue (Pull.gen ss1))).
  split; [exact Hrest |]. split; [exact Hdrain |]. split; [| split].
  - rewrite Hout, !yielded_app, Hy. cbn [Observe.yielded flat_map].
    rewrite yielded_ended, app_nil_r.
    rewrite (play_keeps_order _ _ _ Hall). cbn [app].
    rewrite delivered_app.
    change (trailers :: post ++ [Pull.Happen ReqEnd])
      with ([trailers] ++ post ++ [Pull.Happen ReqEnd]).
    rewrite !delivered_app, Hpost3. cbn. rewrite app_nil_r. reflexivity.
  - rewrite Hout, <- app_assoc. reflexivity.
  - rewrite forallb_app, Hn. change (Pull.outcomes ss1) with (Pull.outcomes ssp).
    rewrite Hop. reflexivity.
Qed.

(** A call of [streamChat] that is pending, with its request open, when
    the non-zero trailer arrives. *)
Lemma promise_rejected_on_nonzero_trailer
    (frame : Buffer) (status message decoded : jsstring)
    (os : list Push.occurrence) (s : Push.State) :
  status <> lit "0" ->
  decodeURIComponent message = inr decoded ->
  Push.run (Push.start frame) os = inr s ->
  Push.settled s = Push.Pending ->
  Push.requestOpen s = true ->
  exists s',
    Push.step s (Push.Emit (ReqTrailers (Some status) (Some message)))
    = inr s'
    /\ Push.settled s'
       = Push.Rejected
           (WindsurfError
              (lit "gRPC error " ++ status ++ lit ": "
                 ++ (if truthy message then decoded
                     else lit "Unknown error"))
              STREAM_ERROR None)
    /\ Push.calls s'
       = Push.calls s
         ++ [Push.onError
               (WindsurfError
                  (lit "gRPC error " ++ status ++ lit ": "
                     ++ (if truthy message then decoded
                         else lit "Unknown error"))
                  STREAM_ERROR None)]
    /\ (forall es,
          os = map Push.Emit (ClientConnect :: es) ->
          Push.chunkCalls (Push.calls s')
          = Push.fragments (Observe.chunksOf es))
    /\ forall later s'',
         Push.run s' later = inr s'' ->
         Push.settled s''
         = Push.Rejected
             (WindsurfError
                (lit "gRPC error " ++ status ++ lit ": "
                   ++ (if truthy message then decoded
                       else lit "Unknown error"))
                STREAM_ERROR None).
Proof.
  intros Hstatus Hdecoded Hrun Hpending Hopen.
  pose proof (grpcError_exact status message decoded Hdecoded) as Herr.
  pose proof (statusNotZero_other status Hstatus) as Hnz.
  set (err := WindsurfError _ STREAM_ERROR None) in *.
  exists (Push.settle (Push.reject err) (Push.invoke (Push.onError err) s)).
  split; [cbn [Push.step]; rewrite Hopen, Hnz, Herr; reflexivity |].
  split; [cbn; rewrite Hpending; reflexivity |].
  split; [reflexivity |]. split.
  - intros es Hos. subst os. cbn [map Push.run Push.step] in Hrun.
    cbn [Push.calls Push.settle Push.invoke].
    rewrite chunkCalls_app. cbn [Push.chunkCalls flat_map app].
    rewrite app_nil_r.
    assert (Hlog : Observe.logInvariant s).
    { apply (run_logInvariant (map Push.Emit es)
               (Push.sendRequest (Push.start frame)) s); [| exact Hrun].
      split; [exact I |]. split; [reflexivity |].
      intros v Hv. discriminate Hv. }
    destruct Hlog as (_ & Hchunks & _). rewrite <- Hchunks.
    rewrite (push_run_chunks es (Push.sendRequest (Push.start frame)) s
               eq_refl Hrun).
    reflexivity.
  - intros later s'' Hlater.
    apply run_keeps_settled in Hlater;
      [rewrite Hlater; cbn; rewrite Hpending; reflexivity |].
    cbn. rewrite Hpending. discriminate.
Qed.

End TrailerFacts.

(** C4 as stated fails for a call that is no longer pending: when the
    two-minute timer has fired before the trailers arrive, the promise of
    [streamChat] has resolved with the text gathered and the non-zero
    status does not make the call fail. *)
Lemma trailer_after_timeout_does_not_fail :
  exists s,
    Push.run (Push.start [])
      [Push.Emit ClientConnect;
       Push.Emit (ReqData (Buffer_from_utf8 (lit "partial answer")));
       Push.TimerFires;
       Push.Emit (ReqTrailers (Some (lit "13")) (Some (lit "boom")))]
    = inr s
    /\ Push.settled s = Push.Resolved (lit "partial answer")
    /\ forall e, Push.settled s <> Push.Rejected e.
Proof.
  eexists. split; [vm_compute; reflexivity |].
  split; [reflexivity |]. intros e. discriminate.
Qed.

(** C4, amended.  The trailers carry a status other than "0" and a
    message that [decodeURIComponent] accepts; the error is the
    [WindsurfError] of code [STREAM_ERROR] with the message
    "gRPC error <status>: <decoded message>" ("Unknown error" for an
    empty message), which contains the status and the decoded message.

    Push mode: for every call of [streamChat] that is still pending, with
    its request open, when the trailers arrive, the promise is rejected
    with that error and stays rejected whatever follows; [onError] is
    called with it, and the fragments of the chunks delivered before have
    all been handed to [onChunk].

    Pull mode: for chunks and the trailers in any interleaving with the
    calls of [next()] and the continuations of the body, followed by the
    end of the stream, a consumer that goes on to the end has received
    the fragments of all the chunks, and the first call that does not
    yield a fragment throws that error.

    For instance, after the chunk "partial answer", status 13 with the
    message "boom%21" rejects the promise with "gRPC error 13: boom!",
    and a consumer of the generator gets "partial answer" and then that
    error. *)
Theorem pending_call_fails_on_nonzero_trailer
    (frame : Buffer) (status message decoded : jsstring)
    (os : list Push.occurrence) (s : Push.State)
    (pre post : list Pull.action) (ss : Pull.Session) :
  status <> lit "0" ->
  decodeURIComponent message = inr decoded ->
  Push.run (Push.start frame) os = inr s ->
  Push.settled s = Push.Pending ->
  Push.requestOpen s = true ->
  Pull.play (Pull.session frame) pre = inr ss ->
  forallb (fun a => negb (Pull.endsStream a)) pre = true ->
  forallb Pull.ofConsumer post = true ->
  exists text,
    text = lit "gRPC error " ++ status ++ lit ": "
             ++ (if truthy message then decoded else lit "Unknown error")
    /\ Contains status text /\ Contains decoded text
    /\ (exists s',
          Push.step s (Push.Emit (ReqTrailers (Some status) (Some message)))
          = inr s'
          /\ Push.settled s'
             = Push.Rejected (WindsurfError text STREAM_ERROR None)
          /\ Push.calls s'
             = Push.calls s
               ++ [Push.onError (WindsurfError text STREAM_ERROR None)]
          /\ (forall es,
                os = map Push.Emit (ClientConnect :: es) ->
                Push.chunkCalls (Push.calls s')
                = Push.fragments (Observe.chunksOf es))
          /\ forall later s'',
               Push.run s' later = inr s'' ->
               Push.settled s''
               = Push.Rejected (WindsurfError text STREAM_ERROR None))
    /\ (exists ss1 ss2 before,
          Pull.play ss
            (Pull.Happen (ReqTrailers (Some status) (Some message))
               :: post ++ [Pull.Happen ReqEnd])
          = inr ss1
          /\ Pull.play ss1 (Pull.drain ss1) = inr ss2
          /\ Observe.yielded (Pull.outcomes ss2)
             = Push.fragments (Observe.delivered pre)
          /\ Pull.outcomes ss2
             = before
               ++ Pull.Throw (WindsurfError text STREAM_ERROR None)
               :: repeat Pull.Return (Pull.pending ss1)
          /\ forallb (fun o => negb (Pull.settles o)) before = true)
    /\ (exists s0,
          Push.run (Push.start frame)
            (map Push.Emit
               [ClientConnect;
                ReqData (Buffer_from_utf8 (lit "partial answer"));
                ReqTrailers (Some (lit "13")) (Some (lit "boom%21"))])
          = inr s0
          /\ Push.settled s0
             = Push.Rejected
                 (WindsurfError (lit "gRPC error 13: boom!")
                                STREAM_ERROR None)
          /\ Push.calls s0
             = [Push.onChunk (lit "partial answer");
                Push.onError
                  (WindsurfError (lit "gRPC error 13: boom!")
                                 STREAM_ERROR None)])
    /\ (exists ss0,
          Pull.play (Pull.session frame)
            [Pull.CallNext;
             Pull.Happen (ReqData (Buffer_from_utf8 (lit "partial answer")));
             Pull.Resume;
             Pull.CallNext;
             Pull.Happen
               (ReqTrailers (Some (lit "13")) (Some (lit "boom%21")));
             Pull.Happen ReqEnd;
             Pull.Resume]
          = inr ss0
          /\ Pull.outcomes ss0
             = [Pull.Yield (lit "partial answer");
                Pull.Throw
                  (WindsurfError (lit "gRPC error 13: boom!")
                                 STREAM_ERROR None)]).
Proof.
  intros Hstatus Hdecoded Hrun Hpending Hopen Hplay Hquiet Hpost.
  eexists. split; [reflexivity |].
  destruct (grpcError_text status message decoded Hdecoded)
    as (text & Herr & Hcs & Hcd).
  rewrite (grpcError_exact status message decoded Hdecoded) in Herr.
  injection Herr as <-.
  split; [exact Hcs |]. split; [exact Hcd |]. split; [| split; [| split]].
  - exact (promise_rejected_on_nonzero_trailer
             frame status message decoded os s
             Hstatus Hdecoded Hrun Hpending Hopen).
  - exact (generator_fails_on_nonzero_trailer
             frame status message decoded pre post ss
             Hstatus Hdecoded Hplay Hquiet Hpost).
  - eexists. split; [vm_compute; reflexivity |].
    split; vm_compute; reflexivity.
  - eexists. split; vm_compute; reflexivity.
Qed.

Lemma pending_call_fails_on_nonzero_trailer_witness :
  exists s s' ss ss1 ss2,
    Push.run (Push.start [])
      (map Push.Emit
         [ClientConnect;
          ReqData (Buffer_from_utf8 (lit "partial answer"))])
    = inr s
    /\ Push.step s (Push.Emit (ReqTrailers (Some (lit "13"))
                                           (Some (lit "boom%21"))))
       = inr s'
    /\ Push.settled s'
       = Push.Rejected
           (WindsurfError (lit "gRPC error 13: boom!") STREAM_ERROR None)
    /\ Push.chunkCalls (Push.calls s') = [lit "partial answer"]
    /\ Pull.play (Pull.session [])
         [Pull.CallNext;
          Pull.Happen (ReqData (Buffer_from_utf8 (lit "partial answer")))]
       = inr ss
    /\ Pull.play ss
         (Pull.Happen (ReqTrailers (Some (lit "13")) (Some (lit "boom%21")))
            :: [Pull.Resume; Pull.CallNext] ++ [Pull.Happen ReqEnd])
       = inr ss1
    /\ Pull.play ss1 (Pull.drain ss1) = inr ss2
    /\ Observe.yielded (Pull.outcomes ss2) = [lit "partial answer"]
    /\ exists before,
         Pull.outcomes ss2
         = before
           ++ Pull.Throw
                (WindsurfError (lit "gRPC error 13: boom!")
                               STREAM_ERROR None)
           :: repeat Pull.Return (Pull.pending ss1).
Proof.
  destruct (pending_call_fails_on_nonzero_trailer
              [] (lit "13") (lit "boom%21") (lit "boom!")
              (map Push.Emit
                 [ClientConnect;
                  ReqData (Buffer_from_utf8 (lit "partial answer"))])
              _
              [Pull.CallNext;
               Pull.Happen
                 (ReqData (Buffer_from_utf8 (lit "partial answer")))]
              [Pull.Resume; Pull.CallNext]
              _
              ltac:(vm_compute; discriminate)
              ltac:(vm_compute; reflexivity)
              eq_refl eq_refl eq_refl eq_refl eq_refl eq_refl)
    as (text & Htext & _ & _
        & (s' & Hstep & Hsettled & _ & Hchunks & _)
        & (ss1 & ss2 & before & Hplay1 & Hplay2 & Hyielded & Hout & _)
        & _ & _).
  subst text.
  eexists. exists s'. eexists. exists ss1, ss2.
  split; [reflexivity |]. split; [exact Hstep |].
  split; [exact Hsettled |].
  split; [exact (Hchunks _ eq_refl) |].
  split; [reflexivity |]. split; [exact Hplay1 |].
  split; [exact Hplay2 |]. split; [exact Hyielded |].
  exists before. exact Hout.
Defined.


(* ====================================================================== *)
(** * Properties of the test script *)
(* ====================================================================== *)

(** X21.  The timestamp the script writes for a clock that is not
    negative reads back as whole seconds and, when they are not zero,
    nanoseconds: a multiple of a million below 10^9, and together they
    give the clock back to the millisecond.  On a whole second the nanos
    field is absent. *)
Theorem timestamp_reads_back (now : Z) :
  0 <= now ->
  exists seconds nanos,
    decodeFields (Buffer_from (Script.encodeTimestamp now))
    = Some ((1, Varint seconds)
              :: (if 0 <? nanos then [(2, Varint nanos)] else []))
    /\ 0 <= nanos < 1000000000
    /\ nanos mod 1000000 = 0
    /\ seconds * 1000 + nanos / 1000000 = now.
Proof.
  intros Hnow.
  exists (now / 1000), (now mod 1000 * 1000000).
  pose proof (Z.mod_pos_bound now 1000 ltac:(lia)) as Hm.
  pose proof (Z.div_mod now 1000 ltac:(lia)) as Hdm.
  assert (Hs : 0 <= now / 1000) by (apply Z.div_pos; lia).
  split; [| split; [lia | split]].
  - unfold Script.encodeTimestamp.
    rewrite Z.rem_mod_nonneg by lia.
    destruct (0 <? now mod 1000 * 1000000); to_wire; read_back; reflexivity.
  - apply Z.mod_mul. lia.
  - rewrite Z.div_mul by lia. lia.
Qed.

Lemma timestamp_reads_back_witness :
  exists seconds nanos,
    decodeFields (Buffer_from (Script.encodeTimestamp 1700000000123))
    = Some ((1, Varint seconds)
              :: (if 0 <? nanos then [(2, Varint nanos)] else []))
    /\ 0 <= nanos < 1000000000
    /\ nanos mod 1000000 = 0
    /\ seconds * 1000 + nanos / 1000000 = 1700000000123.
Proof. apply (timestamp_reads_back 1700000000123). lia. Defined.

(** X22.  The chat message of the script reads back as its five fields:
    1 the message id, 2 the source 1 (user), 3 the timestamp, 4 the
    conversation id, 5 the intent; the intent unwraps, field 1 inside
    field 1, to the text.  The payload the script sends reads back as
    the metadata, that one chat message and the model, with no system
    prompt field. *)
Theorem script_chat_message_reads_back
    (now : Z) (text messageId conversationId : jsstring)
    (metadata : list Z) (chatModel : Z) :
  0 <= chatModel ->
  decodeFields
    (Buffer_from (Script.encodeChatMessage now text messageId conversationId))
  = Some [(1, Bytes (Observe.utf8Bytes messageId));
          (2, Varint 1);
          (3, Bytes (Buffer_from (Script.encodeTimestamp now)));
          (4, Bytes (Observe.utf8Bytes conversationId));
          (5, Bytes (encodeMessage 1
                       (encodeMessage 1 (Observe.utf8Bytes text))))]
  /\ decodeFields (encodeMessage 1 (encodeMessage 1 (Observe.utf8Bytes text)))
     = Some [(1, Bytes (encodeMessage 1 (Observe.utf8Bytes text)))]
  /\ decodeFields (encodeMessage 1 (Observe.utf8Bytes text))
     = Some [(1, Bytes (Observe.utf8Bytes text))]
  /\ decodeFields
       (Script.payload metadata
          (Script.encodeChatMessage now text messageId conversationId)
          chatModel)
     = Some [(1, Bytes (Buffer_from metadata));
             (2, Bytes (Buffer_from
                          (Script.encodeChatMessage
                             now text messageId conversationId)));
             (4, Varint chatModel)].
Proof.
  intros Hmodel. repeat split.
  - unfold Script.encodeChatMessage, Script.encodeChatMessageIntent,
      Script.encodeIntentGeneric.
    rewrite <- !app_assoc. to_wire. read_back. reflexivity.
  - read_back. reflexivity.
  - read_back. reflexivity.
  - unfold Script.payload. to_wire. read_back. reflexivity.
Qed.

Lemma script_chat_message_reads_back_witness :
  decodeFields
    (Script.payload
       (Script.encodeMetadata (lit "sk-ws-01") (lit "1.48.2"))
       (Script.encodeChatMessage 1700000000123
          (lit "Say hello in exactly 5 words.")
          (lit "0f8fad5b-d9cb-469f-a165-70867728950e")
          (lit "7c9e6679-7425-40de-944b-e07fc1f90ae7"))
       109)
  = Some [(1, Bytes (Buffer_from
                       (Script.encodeMetadata (lit "sk-ws-01")
                                              (lit "1.48.2"))));
          (2, Bytes (Buffer_from
                       (Script.encodeChatMessage 1700000000123
                          (lit "Say hello in exactly 5 words.")
                          (lit "0f8fad5b-d9cb-469f-a165-70867728950e")
                          (lit "7c9e6679-7425-40de-944b-e07fc1f90ae7"))));
          (4, Varint 109)].
Proof.
  apply (script_chat_message_reads_back
           1700000000123 (lit "Say hello in exactly 5 words.")
           (lit "0f8fad5b-d9cb-469f-a165-70867728950e")
           (lit "7c9e6679-7425-40de-944b-e07fc1f90ae7")
           (Script.encodeMetadata (lit "sk-ws-01") (lit "1.48.2")) 109).
  lia.
Defined.

(* ====================================================================== *)
(** * Properties of the credential discovery *)
(* ====================================================================== *)

Section PatternFacts.
Import Regex.

(** A repeated class takes between [lo] and its longest run of
    characters, and the rest of the pattern matches what follows. *)
Lemma matchHere_rep (c : cls) (lo : nat) (hi : option nat) (capture : bool)
    (p : list item) (s : jsstring) (caps : list jsstring) (rest : jsstring) :
  matchHere (Rep c lo hi capture :: p) s = Some (caps, rest) ->
  exists k caps',
    (lo <= k <= runLength c s)%nat
    /\ (match hi with Some h => (k <= h)%nat | None => True end)
    /\ matchHere p (skipn k s) = Some (caps', rest)
    /\ caps = (if capture then [firstn k s] else []) ++ caps'.
Proof.
  cbn [matchHere]. intros Hb. apply backtrack_some in Hb.
  destruct Hb as (k & Hk & Hatt).
  destruct (matchHere p (skipn k s)) as [[caps' rest'] |] eqn:Em;
    [| discriminate].
  injection Hatt as <- <-.
  exists k, caps'.
  repeat split; try reflexivity; try assumption; destruct hi; lia.
Qed.

Lemma runLength_positive (c : cls) (s : jsstring) :
  (1 <= runLength c s)%nat -> exists x s', s = x :: s' /\ c x = true.
Proof.
  destruct s as [| x s']; cbn [runLength]; [lia |].
  destruct (c x) eqn:Ex; [| lia]. intros _. exists x, s'. auto.
Qed.

Lemma matchHere_literal (l : jsstring) (p : list item) :
  forall s r,
    matchHere (Auth.literal l ++ p) s = Some r ->
    exists s', s = l ++ s' /\ matchHere p s' = Some r.
Proof.
  induction l as [| c l IH]; intros s [caps rest] Hm.
  - exists s. split; [reflexivity | exact Hm].
  - cbn [Auth.literal map app] in Hm. unfold one at 1 in Hm.
    apply matchHere_rep in Hm.
    destruct Hm as (k & caps' & Hk & Hhi & Hm & ->).
    assert (k = 1%nat) as -> by lia.
    destruct (runLength_positive _ _ (proj2 Hk)) as (x & s' & -> & Hx).
    apply Z.eqb_eq in Hx. subst x. cbn [skipn] in Hm.
    destruct (IH _ _ Hm) as (s'' & -> & Hp).
    exists s''. split; [reflexivity | exact Hp].
Qed.

Lemma exec_found (p : list item) :
  forall s caps,
    exec p s = Some caps ->
    exists before from rest,
      s = before ++ from /\ matchHere p from = Some (caps, rest).
Proof.
  induction s as [| x s IH]; intros caps; cbn [exec].
  - destruct (matchHere p []) as [[caps' rest] |] eqn:Em; [| discriminate].
    intros [= <-]. exists [], [], rest. auto.
  - destruct (matchHere p (x :: s)) as [[caps' rest] |] eqn:Em.
    + intros [= <-]. exists [], (x :: s), rest. auto.
    + intros He. destruct (IH _ He) as (b & f & r & -> & Hm).
      exists (x :: b), f, r. auto.
Qed.

Lemma exec_misses (p : list item) :
  forall s,
    (forall before from, s = before ++ from -> matchHere p from = None) ->
    exec p s = None.
Proof.
  induction s as [| x s IH]; intros Hnone; cbn [exec].
  - rewrite (Hnone [] [] eq_refl). reflexivity.
  - rewrite (Hnone [] (x :: s) eq_refl). apply IH.
    intros b f ->. apply (Hnone (x :: b) f). reflexivity.
Qed.

Lemma skipn_runLength (c : cls) (s : jsstring) :
  Observe.startsOutside c (skipn (runLength c s) s).
Proof.
  induction s as [| x s IH]; [exact I |].
  cbn [runLength]. destruct (c x) eqn:Ex; [exact IH | exact Ex].
Qed.

(** A greedy class at the end of a pattern takes its longest run. *)
Lemma matchHere_last_rep (c : cls) (lo : nat) (s : jsstring)
    (caps : list jsstring) (rest : jsstring) :
  matchHere [Rep c lo None true] s = Some (caps, rest) ->
  caps = [firstn (runLength c s) s] /\ rest = skipn (runLength c s) s
  /\ (lo <= runLength c s)%nat.
Proof.
  cbn [matchHere]. destruct (runLength c s) as [| n] eqn:En;
    cbn [backtrack].
  - destruct (0 <? lo)%nat eqn:E; [discriminate |].
    apply Nat.ltb_ge in E. intros [= <- <-]. auto.
  - destruct (S n <? lo)%nat eqn:E; [discriminate |].
    apply Nat.ltb_ge in E. intros [= <- <-]. auto.
Qed.

Lemma firstn_positive {A} (k : nat) (s : list A) :
  (1 <= k <= length s)%nat -> firstn k s <> [].
Proof.
  destruct k as [| k]; [lia |]. destruct s; cbn; [lia | discriminate].
Qed.

Lemma runLength_le_length (c : cls) (s : jsstring) :
  (runLength c s <= length s)%nat.
Proof.
  induction s as [| x s IH]; cbn [runLength length]; [lia |].
  destruct (c x); lia.
Qed.

Lemma Forall_beforeFirst (P : Z -> Prop) (x : Z) (s : jsstring) :
  Forall P s -> Forall P (Auth.beforeFirst x s).
Proof.
  induction 1 as [| c s Hc _ IH]; cbn [Auth.beforeFirst]; [constructor |].
  destruct (c =? x); [constructor | constructor; assumption].
Qed.

Lemma beforeFirst_without (x : Z) (s : jsstring) :
  ~ In x (Auth.beforeFirst x s).
Proof.
  induction s as [| c s IH]; cbn [Auth.beforeFirst]; [intros [] |].
  destruct (c =? x) eqn:E; [intros [] |].
  apply Z.eqb_neq in E. intros [H | H]; [congruence | exact (IH H)].
Qed.

(** How a listing that the token pattern matches is made. *)
Lemma csrf_match_parts (from : jsstring) (caps : list jsstring)
    (tail : jsstring) :
  matchHere Auth.csrfTokenPattern from = Some (caps, tail) ->
  exists ws token,
    from = lit "--csrf_token" ++ ws ++ token ++ tail
    /\ caps = [token]
    /\ ws <> [] /\ Forall (fun c => space c = true) ws
    /\ token <> [] /\ Forall (fun c => Auth.tokenChar c = true) token
    /\ Observe.startsOutside Auth.tokenChar tail.
Proof.
  intros Hm. unfold Auth.csrfTokenPattern in Hm.
  apply matchHere_literal in Hm. destruct Hm as (s1 & -> & Hm).
  unfold plus at 1 in Hm. apply matchHere_rep in Hm.
  destruct Hm as (k & caps' & Hk & _ & Hm & ->).
  unfold group, plus in Hm. apply matchHere_last_rep in Hm.
  destruct Hm as (-> & -> & Hn).
  set (s2 := skipn k s1) in *.
  exists (firstn k s1), (firstn (runLength Auth.tokenChar s2) s2).
  pose proof (runLength_le_length space s1).
  pose proof (runLength_le_length Auth.tokenChar s2).
  repeat split.
  - rewrite (firstn_skipn _ s2). subst s2. rewrite (firstn_skipn k s1).
    reflexivity.
  - apply firstn_positive. lia.
  - apply firstn_runLength. lia.
  - apply firstn_positive. lia.
  - apply firstn_runLength. lia.
  - apply skipn_runLength.
Qed.

End PatternFacts.

(** X23.  When [getCSRFToken] returns a token, the process listing reads:
    something, the flag [--csrf_token], white space, the token, the
    rest.  Taking the leftmost place where the flag is followed by white
    space and such a character, the token is the longest run of
    characters among a-f, 0-9 and the hyphen behind the white space: it
    is never empty and the rest does not go on with such a character (a
    token with an upper-case digit is cut there). *)
Theorem csrf_token_is_cut_from_the_listing
    (processInfo : option jsstring) (token : jsstring) :
  Auth.getCSRFToken processInfo = inr token ->
  exists listing before ws rest,
    processInfo = Some listing
    /\ listing = before ++ lit "--csrf_token" ++ ws ++ token ++ rest
    /\ ws <> [] /\ Forall (fun c => Regex.space c = true) ws
    /\ token <> [] /\ Forall (fun c => Auth.tokenChar c = true) token
    /\ Observe.startsOutside Auth.tokenChar rest.
Proof.
  unfold Auth.getCSRFToken.
  destruct processInfo as [[| c info] |]; try discriminate.
  destruct (Regex.exec Auth.csrfTokenPattern (c :: info)) as [caps |] eqn:Ex;
    [| discriminate].
  destruct (exec_found _ _ _ Ex) as (before & from & tail & Hs & Hm).
  destruct (csrf_match_parts _ _ _ Hm)
    as (ws & tok & -> & -> & Hws & Hsp & Htok & Hchars & Htail).
  destruct (truthy tok); [| discriminate].
  intros [= <-].
  exists (c :: info), before, ws, tail. rewrite Hs. repeat split; assumption.
Qed.

Lemma csrf_token_is_cut_from_the_listing_witness :
  Auth.getCSRFToken
    (Some (lit "/opt/windsurf/language_server_linux --csrf_token 12ab-cd34EF --port 4000"))
  = inr (lit "12ab-cd34")
  /\ exists listing before ws rest,
       Some (lit "/opt/windsurf/language_server_linux --csrf_token 12ab-cd34EF --port 4000")
       = Some listing
       /\ listing
          = before ++ lit "--csrf_token" ++ ws ++ lit "12ab-cd34" ++ rest
       /\ ws <> [] /\ Forall (fun c => Regex.space c = true) ws
       /\ lit "12ab-cd34" <> []
       /\ Forall (fun c => Auth.tokenChar c = true) (lit "12ab-cd34")
       /\ Observe.startsOutside Auth.tokenChar rest.
Proof.
  split; [reflexivity |].
  apply (csrf_token_is_cut_from_the_listing
           (Some (lit "/opt/windsurf/language_server_linux --csrf_token 12ab-cd34EF --port 4000"))
           (lit "12ab-cd34")).
  reflexivity.
Defined.

(** X24.  Without a process listing [getCSRFToken] throws a
    [WindsurfError] of code [NOT_RUNNING]; with a listing that does not
    hold the flag [--csrf_token] it throws one of code [CSRF_MISSING]. *)
Theorem csrf_token_errors (listing : jsstring) :
  listing <> [] ->
  ~ Contains (lit "--csrf_token") listing ->
  (exists text, Auth.getCSRFToken None
                = inl (WindsurfError text NOT_RUNNING None))
  /\ (exists text, Auth.getCSRFToken (Some [])
                   = inl (WindsurfError text NOT_RUNNING None))
  /\ exists text, Auth.getCSRFToken (Some listing)
                  = inl (WindsurfError text CSRF_MISSING None).
Proof.
  intros Hne Hflag.
  split; [eexists; reflexivity |]. split; [eexists; reflexivity |].
  unfold Auth.getCSRFToken. destruct listing as [| c info]; [contradiction |].
  rewrite exec_misses; [eexists; reflexivity |].
  intros before from Hs.
  destruct (Regex.matchHere Auth.csrfTokenPattern from) as [[caps tail] |]
    eqn:Hm; [| reflexivity].
  exfalso. apply Hflag.
  destruct (csrf_match_parts _ _ _ Hm) as (ws & tok & -> & _).
  exists before, (ws ++ tok ++ tail). exact Hs.
Qed.

Lemma csrf_token_errors_witness :
  (exists text, Auth.getCSRFToken None
                = inl (WindsurfError text NOT_RUNNING None))
  /\ (exists text, Auth.getCSRFToken (Some [])
                   = inl (WindsurfError text NOT_RUNNING None))
  /\ exists text,
       Auth.getCSRFToken (Some (lit "csrf"))
       = inl (WindsurfError text CSRF_MISSING None).
Proof.
  apply (csrf_token_errors (lit "csrf")).
  - vm_compute. discriminate.
  - intros (before & after & H).
    apply (f_equal (@length Z)) in H.
    rewrite !length_app in H.
    change (length (lit "csrf")) with 4%nat in H.
    change (length (lit "--csrf_token")) with 12%nat in H. lia.
Defined.

(** X25.  The version [getWindsurfVersion] returns never holds a plus
    sign or white space (a build suffix behind [+] is dropped); without
    a listing, or with a listing that does not hold the flag
    [--windsurf_version], it is the default "1.13.104". *)
Theorem windsurf_version_is_clean (processInfo : option jsstring) :
  ~ In 43 (Auth.getWindsurfVersion processInfo)
  /\ Forall (fun c => Regex.space c = false)
            (Auth.getWindsurfVersion processInfo)
  /\ (processInfo = None ->
      Auth.getWindsurfVersion processInfo = lit "1.13.104")
  /\ (forall listing,
        processInfo = Some listing ->
        ~ Contains (lit "--windsurf_version") listing ->
        Auth.getWindsurfVersion processInfo = lit "1.13.104").
Proof.
  assert (Hdefault : ~ In 43 (lit "1.13.104")
                     /\ Forall (fun c => Regex.space c = false)
                               (lit "1.13.104")).
  { split; [vm_compute; intuition discriminate |].
    repeat constructor. }
  unfold Auth.getWindsurfVersion.
  destruct processInfo as [[| c info] |].
  - repeat split; try apply Hdefault; reflexivity || (intros; reflexivity).
  - destruct (Regex.exec Auth.versionPattern (c :: info)) as [caps |] eqn:Ex.
    + split; [apply beforeFirst_without |]. split.
      * apply Forall_beforeFirst.
        assert (Htrue : Forall (fun _ : Z => True) (c :: info))
          by (apply Forall_forall; intros; exact I).
        destruct (exec_parts _ _ _ _ Htrue Ex) as (_ & Hcls).
        change (Observe.captureClasses Auth.versionPattern)
          with [Regex.negate Regex.space] in Hcls.
        inversion Hcls as [| k g ks gs Hg Hrest]; subst.
        inversion Hrest; subst. cbn [nth].
        eapply Forall_impl; [| exact Hg].
        intros x Hx. apply negb_true_iff in Hx. exact Hx.
      * split; [discriminate |].
        intros listing [= <-] Hflag. exfalso. apply Hflag.
        destruct (exec_found _ _ _ Ex) as (before & from & tail & Hs & Hm).
        unfold Auth.versionPattern in Hm.
        apply matchHere_literal in Hm. destruct Hm as (s1 & -> & _).
        exists before, s1. exact Hs.
    + repeat split; try apply Hdefault; reflexivity || (intros; reflexivity).
  - repeat split; try apply Hdefault; reflexivity || (intros; reflexivity).
Qed.

Lemma windsurf_version_is_clean_witness :
  Auth.getWindsurfVersion
    (Some (lit "language_server --windsurf_version 1.48.2+next.7f3a --x"))
  = lit "1.48.2"
  /\ ~ In 43 (Auth.getWindsurfVersion
                (Some (lit "language_server --windsurf_version 1.48.2+next.7f3a --x"))).
Proof.
  split; [reflexivity |].
  apply (windsurf_version_is_clean
           (Some (lit "language_server --windsurf_version 1.48.2+next.7f3a --x"))).
Defined.

(* ====================================================================== *)
(** * The fallback of the chunk decoder *)
(* ====================================================================== *)

Section FallbackFacts.
Import Regex.

(** Where the text of the fallback comes from: a part without a hyphen,
    with its leading noise removed. *)
Lemma firstMeaningful_source (parts : list jsstring) :
  firstMeaningful parts = []
  \/ exists part,
       In part parts /\ includes 45 part = false
       /\ firstMeaningful parts = trim (removeAtStart leadingNoise part).
Proof.
  induction parts as [| part parts IH]; [left; reflexivity |].
  cbn [firstMeaningful].
  destruct (0 <? len part); cbn [andb];
    [| destruct IH as [IH | (q & Hq & Hh & IH)];
       [left; exact IH | right; exists q; auto using in_cons]].
  destruct (includes 45 part) eqn:Eh; cbn [negb andb];
    [destruct IH as [IH | (q & Hq & Hh & IH)];
     [left; exact IH | right; exists q; auto using in_cons] |].
  destruct (matchesAtStart hexToken part); cbn [negb];
    [destruct IH as [IH | (q & Hq & Hh & IH)];
     [left; exact IH | right; exists q; auto using in_cons] |].
  destruct (0 <? len (trim (removeAtStart leadingNoise part))).
  - right. exists part. split; [left; reflexivity | auto].
  - destruct IH as [IH | (q & Hq & Hh & IH)];
      [left; exact IH | right; exists q; auto using in_cons].
Qed.

Lemma includes_false (x : Z) (s : jsstring) :
  includes x s = false -> Forall (fun c => c <> x) s.
Proof.
  unfold includes. induction s as [| c s IH]; cbn [existsb];
    [constructor |].
  intros H. apply orb_false_iff in H. destruct H as [Hc Hs].
  apply Z.eqb_neq in Hc. constructor; [congruence | exact (IH Hs)].
Qed.

Lemma matchHere_single_rep (c : cls) (lo : nat) (capture : bool)
    (s : jsstring) :
  matchHere [Rep c lo None capture] s
  = if (runLength c s <? lo)%nat then None
    else Some ((if capture then [firstn (runLength c s) s] else []) ++ [],
               skipn (runLength c s) s).
Proof.
  cbn [matchHere]. generalize (runLength c s) as n. intros n.
  destruct n as [| n]; cbn [backtrack].
  - destruct (0 <? lo)%nat; reflexivity.
  - destruct (S n <? lo)%nat; reflexivity.
Qed.

(** What is left once the leading noise is removed does not start with
    noise. *)
Lemma removeAtStart_leadingNoise (part : jsstring) :
  Observe.startsOutside Observe.noise (removeAtStart leadingNoise part).
Proof.
  unfold removeAtStart, leadingNoise, plus. fold Observe.noise.
  rewrite matchHere_single_rep.
  destruct (runLength Observe.noise part <? 1)%nat eqn:E.
  - apply Nat.ltb_lt in E.
    destruct part as [| x part]; [exact I |].
    cbn [runLength] in E. cbn.
    destruct (Observe.noise x); [lia | reflexivity].
  - apply skipn_runLength.
Qed.

Lemma trim_keeps_start (K : cls) (s : jsstring) :
  (forall x, space x = true -> K x = true) ->
  Observe.startsOutside K s -> Observe.startsOutside K (trim s).
Proof.
  intros Hsub Hs. unfold trim.
  assert (Hd : dropWhile space s = s).
  { apply dropWhile_fixed. destruct s as [| x s]; [exact I |].
    cbn in *. destruct (space x) eqn:Ex; [| reflexivity].
    rewrite (Hsub x Ex) in Hs. discriminate. }
  rewrite Hd.
  destruct (dropWhile_suffix space (rev s)) as (d & Hrev).
  assert (Hsplit : s = rev (dropWhile space (rev s)) ++ rev d)
    by (rewrite <- rev_app_distr, <- Hrev, rev_involutive; reflexivity).
  destruct (rev (dropWhile space (rev s))) as [| x t]; [exact I |].
  rewrite Hsplit in Hs. exact Hs.
Qed.

End FallbackFacts.

(** X26.  When no asterisk marker matches, the text comes from the
    fallback, and then it never holds a hyphen (a part with a hyphen is
    skipped whole) and never starts with a digit, an asterisk or white
    space (a leading number is removed with the noise). *)
Theorem fallback_text_drops_hyphens_and_leading_digits (chunk : Buffer) :
  Regex.exec asteriskMarker (Observe.readable chunk) = None ->
  ~ In 45 (extractTextFromChunk chunk)
  /\ Observe.startsOutside Observe.noise (extractTextFromChunk chunk).
Proof.
  intros Hnone.
  destruct (extract_cases chunk) as [(tm & Hexec & _) | (_ & ->)];
    [congruence |].
  destruct (firstMeaningful_source
              (Regex.split spaces2 (Observe.readable chunk)))
    as [-> | (part & _ & Hh & ->)]; [split; [intros [] | exact I] |].
  split.
  - apply includes_false in Hh.
    assert (Hf : Forall (fun c => c <> 45)
                   (Regex.trim (Regex.removeAtStart leadingNoise part)))
      by (apply Forall_trim, removeAtStart_parts; exact Hh).
    intros Hin. rewrite Forall_forall in Hf. exact (Hf 45 Hin eq_refl).
  - apply trim_keeps_start; [| apply removeAtStart_leadingNoise].
    intros x Hx. unfold Observe.noise, Regex.union. rewrite Hx. reflexivity.
Qed.

Lemma fallback_text_drops_hyphens_and_leading_digits_witness :
  extractTextFromChunk (Buffer_from_utf8 (lit "2024 was a well-known year"))
  = []
  /\ extractTextFromChunk (Buffer_from_utf8 (lit "2024 was a good year"))
     = lit "was a good year"
  /\ ~ In 45 (extractTextFromChunk
                (Buffer_from_utf8 (lit "2024 was a good year")))
  /\ Observe.startsOutside Observe.noise
       (extractTextFromChunk (Buffer_from_utf8 (lit "2024 was a good year"))).
Proof.
  split; [reflexivity |]. split; [reflexivity |].
  apply (fallback_text_drops_hyphens_and_leading_digits
           (Buffer_from_utf8 (lit "2024 was a good year"))).
  reflexivity.
Defined.
